(** * A k-way merge of paginated transaction streams

    The repository holds two versions of one module: a timestamp normalizer
    [getTransactionTimestamp] and a class [StreamMerger] whose [takeN] merges
    several streams of transactions, newest first.

    - [src/unnamed/part_000] is embedded as [Module Part000];
    - [src/random.ts] is embedded as [Module Random].

    Both are translated function by function.  JavaScript numbers are
    embedded with their special values, promises are run in program order,
    and a [while] loop becomes a fuelled [Fixpoint]: the loop of [part_000]
    is proved to end on every input, the loop of [random.ts] is shown not to
    end on some. *)

From stdpp Require Import base option list strings pretty.
From Stdlib Require Import ZArith QArith Qround Qabs Lia Sorting.Sorted.

Open Scope string_scope.
Open Scope nat_scope.
Open Scope list_scope.
Open Scope stdpp_scope.

(** ** JavaScript numbers

    A number is NaN, one of the two infinities, or finite.  Finite doubles are
    rationals; the comparisons of the program ([<], [>], [<=], [===]) agree
    with the comparisons of [Q] on them, every comparison with NaN is false. *)
Module Number.

Inductive number : Type :=
| NaN
| NEGATIVE_INFINITY
| Finite (q : Q)
| POSITIVE_INFINITY.

Definition of_Z (z : Z) : number := Finite (inject_Z z).
Definition of_nat (n : nat) : number := of_Z (Z.of_nat n).

(** [a < b] *)
Definition lt (a b : number) : bool :=
  match a, b with
  | NaN, _ | _, NaN => false
  | _, NEGATIVE_INFINITY => false
  | NEGATIVE_INFINITY, _ => true
  | POSITIVE_INFINITY, _ => false
  | Finite _, POSITIVE_INFINITY => true
  | Finite p, Finite q => negb (Qle_bool q p)
  end.

(** [a > b] *)
Definition gt (a b : number) : bool := lt b a.

(** [a === b] *)
Definition strict_eq (a b : number) : bool :=
  match a, b with
  | NEGATIVE_INFINITY, NEGATIVE_INFINITY => true
  | POSITIVE_INFINITY, POSITIVE_INFINITY => true
  | Finite p, Finite q => Qeq_bool p q
  | _, _ => false
  end.

(** [a <= b] *)
Definition le (a b : number) : bool := lt a b || strict_eq a b.

(** [a >= b] *)
Definition ge (a b : number) : bool := le b a.

(** [Number.isFinite(a)] *)
Definition isFinite (a : number) : bool :=
  match a with Finite _ => true | _ => false end.

(** [isNaN(a)] on a number *)
Definition isNaN (a : number) : bool :=
  match a with NaN => true | _ => false end.

(** [Math.floor(a)] *)
Definition floor (a : number) : number :=
  match a with
  | Finite q => of_Z (Qfloor q)
  | _ => a
  end.

(** [a / d] for a finite positive literal [d].  The program divides an
    integral number of milliseconds by 1000 and floors the quotient at once;
    on that range the rounding of the double quotient never crosses an
    integer, so the exact quotient has the same floor. *)
Definition div_by (a : number) (d : positive) : number :=
  match a with
  | Finite q => Finite (q / inject_Z (Z.pos d))
  | _ => a
  end.

(** The integral part of a rational, rounding towards zero. *)
Definition truncate (q : Q) : Z :=
  if Qle_bool 0 q then Qfloor q else Qceiling q.

(** ECMAScript [TimeClip(ToIntegerOrInfinity(a))]: the time value of
    [new Date(a)] for a number [a].  Time values beyond 8.64e15 ms from the
    epoch make an invalid date. *)
Definition TimeClip (a : number) : number :=
  match a with
  | Finite q =>
      if Qle_bool (Qabs (inject_Z (truncate q))) (inject_Z 8640000000000000)
      then of_Z (truncate q) else NaN
  | _ => NaN
  end.

End Number.
Export Number.

Declare Scope number_scope.
Delimit Scope number_scope with num.
Bind Scope number_scope with number.
Notation "0" := (Number.of_Z 0) : number_scope.

(** ** The runtime

    Two primitives of the JavaScript runtime are left abstract: the parser
    behind [new Date(string)], which answers a time value in milliseconds or
    NaN for an invalid date, and the conversion of a number to a string that a
    template literal applies. *)
Class Runtime : Type := {
  Date_parse : string → number;
  Number_toString : number → string;
}.

(** A thrown [Error] with its message. *)
Record Error : Type := mkError { message : string }.

(** How a call completes: it returns a value or throws. *)
Inductive completion (A : Type) : Type :=
| Return (a : A)
| Throw (e : Error).
Arguments Return {A} a.
Arguments Throw {A} e.

(** The argument of [new Date(...)]: a string to parse or a time value. *)
Inductive date_value : Type :=
| DateString (s : string)
| DateNumber (n : number).

Record Date : Type := new_Date_of { time_value : number }.

Definition new_Date `{Runtime} (v : date_value) : Date :=
  match v with
  | DateString s => new_Date_of (Date_parse s)
  | DateNumber n => new_Date_of (TimeClip n)
  end.

Definition getTime (d : Date) : number := time_value d.

(** [`${v}`] for a string or a number. *)
Definition template `{Runtime} (v : date_value) : string :=
  match v with
  | DateString s => s
  | DateNumber n => Number_toString n
  end.

(** [a ?? b] *)
Definition nullish {A : Type} (a : option A) (b : A) : A :=
  match a with Some x => x | None => b end.

(** ** Transactions and streams

    Modelled from the spec: the declarations of [ResponseTransaction]
    ([../types]) and [TransactionStream] ([./types]) are not among the
    sources.  A transaction is a tagged union over the four source kinds; of
    its fields the program reads only those that yield a timestamp, the others
    are kept as one payload string.  A field the program tests with [typeof]
    or [??] is optional: [None] is a missing (undefined or null) field. *)
Inductive ResponseTransaction : Type :=
| bitcoin (payload : string) (blockTime : option number)
| stacks (payload : string) (block_time burn_block_time : option number)
| starknet (payload : string) (blockTimestamp : string)
| spark (payload : string) (createdAt : option string).

(** The answer of [next()]. *)
Record IteratorResult : Type := {
  done : bool;
  value : option ResponseTransaction;
}.

(** Modelled from the spec: a stream is a stateful cursor with two
    operations.  Each takes the state of the stream object and answers with
    the state it leaves.  The state is any type: it may hold what the outside
    world will answer, so a function of the state describes a stream that
    does I/O.  No law relates [peek] to [next] here, so that misbehaving
    streams are streams as well.  Operations that reject are not modelled. *)
Class TransactionStream (S : Type) : Type := {
  peek : S → option ResponseTransaction * S;
  next : S → IteratorResult * S;
}.

(** One call issued on a stream, with its answer. *)
Inductive call : Type :=
| PeekCall (streamIndex : nat) (answer : option ResponseTransaction)
| NextCall (streamIndex : nat) (answer : IteratorResult).

(** The merger object: the states of the stream objects its private array
    [streams] refers to (distinct objects, in array order), and, as a ghost
    field, the calls issued on them so far, oldest first.  The streams being
    distinct objects, the order in which the peeks of one round complete does
    not matter; they are logged in array order, the order in which [map]
    issues them. *)
Record StreamMerger (S : Type) : Type := {
  streams : list S;
  calls : list call;
}.
Arguments streams {S} _.
Arguments calls {S} _.

(** An element of [peeks]. *)
Record Peeked : Type := {
  transaction : option ResponseTransaction;
  streamIndex : nat;
}.

(** An element of [available]: a peeked entry whose transaction is defined,
    which is what the non-null assertions of the callback rely on. *)
Record Candidate : Type := {
  cand_transaction : ResponseTransaction;
  cand_streamIndex : nat;
}.

Section Rounds.
Context {S : Type} `{TransactionStream S}.

(** [await Promise.all(this.streams.map(async (stream, idx) => ...))]: [peek]
    is called on every stream, in array order. *)
Definition peeks (ss : list S) : list Peeked :=
  imap (λ idx stream, {| transaction := (peek stream).1; streamIndex := idx |}) ss.

Definition after_peeks (ss : list S) : list S :=
  (λ stream, (peek stream).2) <$> ss.

Definition peek_calls (ss : list S) : list call :=
  imap (λ idx stream, PeekCall idx (peek stream).1) ss.

(** The merger once every stream has been peeked. *)
Definition peeked (m : StreamMerger S) : StreamMerger S :=
  {| streams := after_peeks (streams m);
     calls := calls m ++ peek_calls (streams m) |}.

(** [peeks.filter((p) => p.transaction !== undefined)] *)
Definition available (ps : list Peeked) : list Candidate :=
  omap (λ p, (λ t, {| cand_transaction := t; cand_streamIndex := streamIndex p |})
               <$> transaction p) ps.

End Rounds.

(** [Array.prototype.reduce] without an initial value, for a callback that
    may throw. *)
Fixpoint reduce_from {A : Type} (f : A → A → completion A) (acc : A) (l : list A)
  : completion A :=
  match l with
  | [] => Return acc
  | x :: l' =>
      match f acc x with
      | Return acc' => reduce_from f acc' l'
      | Throw e => Throw e
      end
  end.

Definition reduce {A : Type} (f : A → A → completion A) (l : list A) : completion A :=
  match l with
  | [] => Throw (mkError "TypeError: Reduce of empty array with no initial value")
  | x :: l' => reduce_from f x l'
  end.

(** [!result.done && result.value] *)
Definition produced (result : IteratorResult) : option ResponseTransaction :=
  if negb (done result) then value result else None.

(** What one pass through the loop body does. *)
Inductive round_result (S : Type) : Type :=
| Exhausted (m : StreamMerger S)
| Failed (e : Error) (m : StreamMerger S)
| Appended (v : ResponseTransaction) (m : StreamMerger S)
| Empty (m : StreamMerger S).
Arguments Exhausted {S} m.
Arguments Failed {S} e m.
Arguments Appended {S} v m.
Arguments Empty {S} m.

(** [await this.streams[winner.streamIndex].next()] and the test that
    follows it. *)
Definition consume {S : Type} `{TransactionStream S}
    (winner : Candidate) (m : StreamMerger S) : round_result S :=
  match streams m !! cand_streamIndex winner with
  | None => Failed (mkError "TypeError: Cannot read properties of undefined") m
  | Some stream =>
      let '(result, stream') := next stream in
      let m' := {| streams := <[cand_streamIndex winner := stream']> (streams m);
                   calls := calls m ++ [NextCall (cand_streamIndex winner) result] |} in
      match produced result with
      | Some v => Appended v m'
      | None => Empty m'
      end
  end.

(** ** [src/unnamed/part_000] *)
Module Part000.

Section Normalizer.
Context `{Runtime}.

(** The [default] branch of the [switch] is unreachable for a value of the
    union type, and has no counterpart here. *)
Definition getTransactionTimestamp (tx : ResponseTransaction) : completion number :=
  match tx with
  | bitcoin _ blockTime => Return (nullish blockTime 0%num)
  | stacks _ block_time burn_block_time =>
      match (match block_time with
             | Some blockTime => if Number.gt blockTime 0%num then Some blockTime else None
             | None => None
             end) with
      | Some blockTime => Return blockTime
      | None =>
          match burn_block_time with
          | Some burnBlockTime => Return burnBlockTime
          | None => Return POSITIVE_INFINITY
          end
      end
  | starknet _ blockTimestamp =>
      let timestamp := getTime (new_Date (DateString blockTimestamp)) in
      if Number.isNaN timestamp
      then Throw (mkError ("Invalid blockTimestamp for starknet transaction: "
                           +:+ blockTimestamp))
      else Return (Number.floor (Number.div_by timestamp 1000))
  | spark _ created =>
      let createdAt := nullish (DateString <$> created) (DateNumber 0%num) in
      let timestamp := getTime (new_Date createdAt) in
      if Number.isNaN timestamp
      then Throw (mkError ("Invalid createdAt for spark transaction: "
                           +:+ template createdAt))
      else Return (Number.floor (Number.div_by timestamp 1000))
  end.

End Normalizer.

Definition MAX_ALLOWED_LIMIT : number := Number.of_Z 10000.
Definition MAX_EMPTY_PEEKS : nat := 3.

Section Merger.
Context `{Runtime} {S : Type} `{TransactionStream S}.

(** The constructor.  Its argument is [None] for an absent (undefined or
    null) array. *)
Definition new_StreamMerger (arg : option (list S)) : completion (StreamMerger S) :=
  match arg with
  | None => Throw (mkError "StreamMerger requires at least one stream")
  | Some ss =>
      if (length ss =? 0)%nat
      then Throw (mkError "StreamMerger requires at least one stream")
      else Return {| streams := ss; calls := [] |}
  end.

(** The callback of [available.reduce]. *)
Definition pick (best curr : Candidate) : completion Candidate :=
  match getTransactionTimestamp (cand_transaction best) with
  | Throw e => Throw e
  | Return bestTimestamp =>
      match getTransactionTimestamp (cand_transaction curr) with
      | Throw e => Throw e
      | Return currTimestamp =>
          if Number.gt currTimestamp bestTimestamp then Return curr
          else if Number.strict_eq currTimestamp bestTimestamp
               then Return (if (cand_streamIndex curr <? cand_streamIndex best)%nat
                            then curr else best)
               else Return best
      end
  end.

(** The loop body up to the test on [result]. *)
Definition round (m : StreamMerger S) : round_result S :=
  let ps := peeks (streams m) in
  let avail := available ps in
  if (length avail =? 0)%nat then Exhausted (peeked m)
  else match reduce pick avail with
       | Throw e => Failed e (peeked m)
       | Return winner => consume winner (peeked m)
       end.

Definition stall_error : Error :=
  mkError ("Stream returned empty results " +:+ pretty MAX_EMPTY_PEEKS
           +:+ " times consecutively. Possible infinite loop detected.").

(** The [while] loop, [fuel] bounding the number of passes. *)
Fixpoint loop (fuel : nat) (limit : number) (results : list ResponseTransaction)
    (emptyPeeksCount : nat) (m : StreamMerger S)
  : option (completion (list ResponseTransaction) * StreamMerger S) :=
  match fuel with
  | O => None
  | Datatypes.S fuel' =>
      if Number.lt (Number.of_nat (length results)) limit then
        match round m with
        | Exhausted m' => Some (Return results, m')
        | Failed e m' => Some (Throw e, m')
        | Appended v m' => loop fuel' limit (results ++ [v]) 0 m'
        | Empty m' =>
            let emptyPeeksCount' := Datatypes.S emptyPeeksCount in
            if (MAX_EMPTY_PEEKS <=? emptyPeeksCount')%nat
            then Some (Throw stall_error, m')
            else loop fuel' limit results emptyPeeksCount' m'
        end
      else Some (Return results, m)
  end.

Definition takeN (fuel : nat) (limit : number) (m : StreamMerger S)
  : option (completion (list ResponseTransaction) * StreamMerger S) :=
  if Number.le limit 0%num || negb (Number.isFinite limit)
  then Some (Throw (mkError ("Invalid limit: " +:+ Number_toString limit
                             +:+ ". Must be a positive finite number.")), m)
  else if Number.gt limit MAX_ALLOWED_LIMIT
  then Some (Throw (mkError ("Limit " +:+ Number_toString limit
                             +:+ " exceeds maximum allowed limit of "
                             +:+ Number_toString MAX_ALLOWED_LIMIT)), m)
  else loop fuel limit [] 0 m.

(** The state of the loop after [n] full passes, when it makes that many:
    the results collected, the count of empty rounds and the merger. *)
Fixpoint after_rounds (n : nat) (limit : number) (results : list ResponseTransaction)
    (emptyPeeksCount : nat) (m : StreamMerger S)
  : option (list ResponseTransaction * nat * StreamMerger S) :=
  match n with
  | O => Some (results, emptyPeeksCount, m)
  | Datatypes.S n' =>
      if Number.lt (Number.of_nat (length results)) limit then
        match round m with
        | Appended v m' => after_rounds n' limit (results ++ [v]) 0 m'
        | Empty m' =>
            if (MAX_EMPTY_PEEKS <=? Datatypes.S emptyPeeksCount)%nat then None
            else after_rounds n' limit results (Datatypes.S emptyPeeksCount) m'
        | _ => None
        end
      else None
  end.

End Merger.
End Part000.

(** ** [src/random.ts] *)
Module Random.

Section Normalizer.
Context `{Runtime}.

Definition getTransactionTimestamp (tx : ResponseTransaction) : number :=
  match tx with
  | bitcoin _ blockTime => nullish blockTime 0%num
  | stacks _ block_time burn_block_time =>
      match (match block_time with
             | Some blockTime => if Number.gt blockTime 0%num then Some blockTime else None
             | None => None
             end) with
      | Some blockTime => blockTime
      | None =>
          match burn_block_time with
          | Some burnBlockTime => burnBlockTime
          | None => POSITIVE_INFINITY
          end
      end
  | starknet _ blockTimestamp =>
      Number.floor (Number.div_by (getTime (new_Date (DateString blockTimestamp))) 1000)
  | spark _ created =>
      Number.floor
        (Number.div_by
           (getTime (new_Date (nullish (DateString <$> created) (DateNumber 0%num))))
           1000)
  end.

End Normalizer.

Section Merger.
Context `{Runtime} {S : Type} `{TransactionStream S}.

(** The constructor takes any array. *)
Definition new_StreamMerger (ss : list S) : StreamMerger S :=
  {| streams := ss; calls := [] |}.

(** The callback of [available.reduce].  It throws nothing; it is written as
    a completion for [reduce] to take it. *)
Definition pick (best curr : Candidate) : completion Candidate :=
  let bestTimestamp := getTransactionTimestamp (cand_transaction best) in
  let currTimestamp := getTransactionTimestamp (cand_transaction curr) in
  if Number.gt currTimestamp bestTimestamp then Return curr
  else if Number.strict_eq currTimestamp bestTimestamp
       then Return (if (cand_streamIndex curr <? cand_streamIndex best)%nat then curr else best)
       else Return best.

(** The loop body up to the test on [result]. *)
Definition round (m : StreamMerger S) : round_result S :=
  let ps := peeks (streams m) in
  let avail := available ps in
  if (length avail =? 0)%nat then Exhausted (peeked m)
  else match reduce pick avail with
       | Throw e => Failed e (peeked m)
       | Return winner => consume winner (peeked m)
       end.

(** The [while] loop, [fuel] bounding the number of passes. *)
Fixpoint loop (fuel : nat) (limit : number) (results : list ResponseTransaction)
    (m : StreamMerger S)
  : option (completion (list ResponseTransaction) * StreamMerger S) :=
  match fuel with
  | O => None
  | Datatypes.S fuel' =>
      if Number.lt (Number.of_nat (length results)) limit then
        match round m with
        | Exhausted m' => Some (Return results, m')
        | Failed e m' => Some (Throw e, m')
        | Appended v m' => loop fuel' limit (results ++ [v]) m'
        | Empty m' => loop fuel' limit results m'
        end
      else Some (Return results, m)
  end.

Definition takeN (fuel : nat) (limit : number) (m : StreamMerger S)
  : option (completion (list ResponseTransaction) * StreamMerger S) :=
  loop fuel limit [] m.

(** The state of the loop after [n] full passes, when it makes that many. *)
Fixpoint after_rounds (n : nat) (limit : number) (results : list ResponseTransaction)
    (m : StreamMerger S) : option (list ResponseTransaction * StreamMerger S) :=
  match n with
  | O => Some (results, m)
  | Datatypes.S n' =>
      if Number.lt (Number.of_nat (length results)) limit then
        match round m with
        | Appended v m' => after_rounds n' limit (results ++ [v]) m'
        | Empty m' => after_rounds n' limit results m'
        | _ => None
        end
      else None
  end.

End Merger.
End Random.

(** ** Concrete streams and a concrete runtime, for runs on explicit inputs *)

(** A stream that serves [items] in order; its first [stalls] calls of [next]
    answer "not done" without a value and leave the cursor where it is. *)
Record scripted : Type := {
  stalls : nat;
  items : list ResponseTransaction;
}.

#[export] Instance scripted_stream : TransactionStream scripted := {|
  peek s := (head (items s), s);
  next s :=
    match stalls s with
    | Datatypes.S k =>
        ({| done := false; value := None |}, {| stalls := k; items := items s |})
    | O =>
        match items s with
        | x :: rest =>
            ({| done := false; value := Some x |}, {| stalls := 0; items := rest |})
        | [] => ({| done := true; value := None |}, s)
        end
    end
|}.

Definition serving (l : list ResponseTransaction) : scripted :=
  {| stalls := 0; items := l |}.

(** A runtime that parses two date strings and prints integers. *)
Definition test_runtime : Runtime := {|
  Date_parse s :=
    if String.eqb s "1970-01-01T00:01:40.250Z" then Number.of_Z 100250
    else if String.eqb s "1969-12-31T23:59:59.500Z" then Number.of_Z (-500)
    else NaN;
  Number_toString n :=
    match n with
    | NaN => "NaN"
    | NEGATIVE_INFINITY => "-Infinity"
    | POSITIVE_INFINITY => "Infinity"
    | Finite q => pretty (Qfloor q)
    end
|}.

Definition btc (name : string) (t : Z) : ResponseTransaction :=
  bitcoin name (Some (Number.of_Z t)).

(** Two streams whose first items share a MergeKey. *)
Definition tie_lists : list (list ResponseTransaction) :=
  [[btc "A1" 100; btc "A2" 50]; [btc "B1" 100; btc "B2" 90]].

Definition tie_merger : StreamMerger scripted :=
  {| streams := serving <$> tie_lists; calls := [] |}.

Definition tie_output : list ResponseTransaction :=
  [btc "A1" 100; btc "B1" 100; btc "B2" 90; btc "A2" 50].

(** The streams of the first scenario of the specification. *)
Definition interleaved_merger : StreamMerger scripted :=
  {| streams := [serving [btc "A1" 100; btc "A2" 50]; serving [btc "B1" 90]];
     calls := [] |}.

(** A merger whose two streams are exhausted. *)
Definition drained_merger : StreamMerger scripted :=
  {| streams := [serving []; serving []]; calls := [] |}.

(** A merger whose second stream answers "not done" without a value three
    times before it serves its item. *)
Definition stalling_merger : StreamMerger scripted :=
  {| streams := [serving [btc "A1" 100];
                 {| stalls := 3; items := [btc "B1" 90] |}];
     calls := [] |}.

(** A merger whose first stream holds a starknet transaction with a timestamp
    that does not parse. *)
Definition garbled_merger : StreamMerger scripted :=
  {| streams := [serving [starknet "S1" "garbage"]; serving [btc "B1" 3]];
     calls := [] |}.

(** A stream that always shows the same item and never serves it: [next]
    answers "not done" without a value, for ever. *)
Record jammed : Type := { shown : ResponseTransaction }.

#[export] Instance jammed_stream : TransactionStream jammed := {|
  peek s := (Some (shown s), s);
  next s := ({| done := false; value := None |}, s)
|}.

Definition jammed_merger (cs : list call) : StreamMerger jammed :=
  {| streams := [{| shown := btc "J1" 7 |}]; calls := cs |}.

(** * Vocabulary of the specification *)

(** ** MergeKeys and the order of the merged output *)
Section Vocabulary.
Context `{Runtime}.

(** The MergeKey of a transaction is what the normalizer returns for it; NaN
    stands for a transaction on which the normalizer throws. *)
Definition merge_key (tx : ResponseTransaction) : number :=
  match Part000.getTransactionTimestamp tx with
  | Return k => k
  | Throw _ => NaN
  end.

(** A transaction has a MergeKey when the normalizer returns a number of the
    totally ordered domain, that is any number but NaN. *)
Definition keyed (tx : ResponseTransaction) : Prop :=
  Number.isNaN (merge_key tx) = false.

(** A sequence of items in non-increasing MergeKey order. *)
Definition non_increasing (l : list ResponseTransaction) : Prop :=
  Sorted (λ a b, Number.ge (merge_key a) (merge_key b) = true) l.

(** A sequence sorted by MergeKey descending: every item is at or above
    every later one. *)
Definition descending (l : list ResponseTransaction) : Prop :=
  StronglySorted (λ a b, Number.ge (merge_key a) (merge_key b) = true) l.

(** The order of the output, on items tagged with the index of the stream
    that produced them: MergeKey descending, and on equal MergeKeys stream
    index ascending. *)
Definition merge_order (p q : nat * ResponseTransaction) : Prop :=
  Number.gt (merge_key p.2) (merge_key q.2) = true
  ∨ (Number.strict_eq (merge_key p.2) (merge_key q.2) = true ∧ p.1 ≤ q.1).

Definition tagged (c : Candidate) : nat * ResponseTransaction :=
  (cand_streamIndex c, cand_transaction c).

(** [w] is a candidate of [avail] that no candidate of [avail] precedes. *)
Definition best_candidate (w : Candidate) (avail : list Candidate) : Prop :=
  w ∈ avail ∧ ∀ c, c ∈ avail → merge_order (tagged w) (tagged c).

(** What the two callbacks compute on candidates that have MergeKeys. *)
Definition choose (best curr : Candidate) : Candidate :=
  let bestTimestamp := merge_key (cand_transaction best) in
  let currTimestamp := merge_key (cand_transaction curr) in
  if Number.gt currTimestamp bestTimestamp then curr
  else if Number.strict_eq currTimestamp bestTimestamp
       then (if (cand_streamIndex curr <? cand_streamIndex best)%nat then curr else best)
       else best.

(** A starknet or spark transaction whose timestamp field [raw] does not
    parse. *)
Definition malformed (tx : ResponseTransaction) (raw : string) : Prop :=
  ((∃ p, tx = starknet p raw) ∨ (∃ p, tx = spark p (Some raw)))
  ∧ Date_parse raw = NaN.

End Vocabulary.

(** A stacks block time that is missing, or is a number not above 0. *)
Definition unconfirmed (block_time : option number) : Prop :=
  ∀ t, block_time = Some t → Number.gt t 0%num = false.

(** [raw] occurs in [msg]. *)
Definition contains (msg raw : string) : Prop :=
  ∃ pre post, msg = pre +:+ raw +:+ post.

(** ** Reading the log of calls *)

(** The items appended to the results, each with the index of the stream
    whose [next] produced it, in order. *)
Definition provenance (cs : list call) : list (nat * ResponseTransaction) :=
  omap (λ c, match c with
             | NextCall i r => (λ v, (i, v)) <$> produced r
             | PeekCall _ _ => None
             end) cs.

(** What each completed round appended, one entry per round that went as far
    as calling [next]: [Some v], or [None] for a round whose [next] gave
    nothing to append. *)
Definition yields (cs : list call) : list (option ResponseTransaction) :=
  omap (λ c, match c with
             | NextCall _ r => Some (produced r)
             | PeekCall _ _ => None
             end) cs.

(** The streams on which [next] was called, in order. *)
Definition next_calls (cs : list call) : list nat :=
  omap (λ c, match c with
             | NextCall i _ => Some i
             | PeekCall _ _ => None
             end) cs.

(** Three consecutive rounds without an appended value. *)
Inductive three_empty_in_a_row : list (option ResponseTransaction) → Prop :=
| three_here ys : three_empty_in_a_row (None :: None :: None :: ys)
| three_later y ys : three_empty_in_a_row ys → three_empty_in_a_row (y :: ys).

(** ** Limits *)

(** A valid limit: a positive finite integer not above 10,000. *)
Definition valid_limit (limit : number) : Prop :=
  ∃ z : Z, Number.strict_eq limit (Number.of_Z z) = true ∧ (0 < z ≤ 10000)%Z.

(** A limit that [takeN] refuses: non-positive, non-finite, or above
    10,000. *)
Definition refused_limit (limit : number) : Prop :=
  Number.le limit 0%num = true
  ∨ Number.isFinite limit = false
  ∨ Number.gt limit (Number.of_Z 10000) = true.

(** An item is pushed only while fewer than [limit] items are collected. *)
Definition within (limit : number) (results : list ResponseTransaction) : Prop :=
  length results = 0
  ∨ Number.lt (Number.of_nat (length results - 1)) limit = true.

(** The number of items a finite limit lets the loop collect. *)
Definition room (q : Q) : nat := Z.to_nat (Qceiling q).

(** ** The contract of a stream

    [R s l] reads: the stream in state [s] has the items [l] left to emit.
    [peek] reports the first of them and leaves them in place.  [next] on a
    stream with an item left serves that item and moves past it, or serves
    nothing (a transient empty answer), the cursor staying or moving past the
    item. *)
Record follows_contract {S : Type} `{TransactionStream S}
    (R : S → list ResponseTransaction → Prop) : Prop := {
  peek_reports_head : ∀ s l, R s l → (peek s).1 = head l ∧ R (peek s).2 l;
  next_serves_head : ∀ s x l, R s (x :: l) →
    (produced (next s).1 = Some x ∧ R (next s).2 l)
    ∨ (produced (next s).1 = None ∧ (R (next s).2 (x :: l) ∨ R (next s).2 l));
}.

(** A stream that never gives a transient empty answer: [next] serves the
    item that is left. *)
Definition always_serves {S : Type} `{TransactionStream S}
    (R : S → list ResponseTransaction → Prop) : Prop :=
  ∀ s x l, R s (x :: l) → produced (next s).1 = Some x.

(** The number of items left in all streams. *)
Definition total (ls : list (list ResponseTransaction)) : nat :=
  sum_list (length <$> ls).

(** ** The merge, on the items left in each stream *)
Section AbstractMerge.
Context `{Runtime}.

(** The candidates of a round: the first item left in each stream. *)
Definition candidates (ls : list (list ResponseTransaction)) : list Candidate :=
  available (imap (λ i l, {| transaction := head l; streamIndex := i |}) ls).

(** The first item [x] of stream [i] is one no other first item precedes. *)
Definition is_winner (ls : list (list ResponseTransaction)) (i : nat)
    (x : ResponseTransaction) : Prop :=
  ∀ j y l, ls !! j = Some (y :: l) → merge_order (i, x) (j, y).

(** One completed round: the winner is served and appended, or nothing is
    appended and the winner stays or is dropped. *)
Inductive merge_step (ls : list (list ResponseTransaction))
  : option (nat * ResponseTransaction) → list (list ResponseTransaction) → Prop :=
| step_serve i x l :
    ls !! i = Some (x :: l) → is_winner ls i x →
    merge_step ls (Some (i, x)) (<[i := l]> ls)
| step_hold i x l :
    ls !! i = Some (x :: l) → is_winner ls i x →
    merge_step ls None ls
| step_drop i x l :
    ls !! i = Some (x :: l) → is_winner ls i x →
    merge_step ls None (<[i := l]> ls).

Inductive merge_run (ls : list (list ResponseTransaction))
  : list (nat * ResponseTransaction) → list (list ResponseTransaction) → Prop :=
| run_done : merge_run ls [] ls
| run_more o ls1 out ls2 :
    merge_step ls o ls1 → merge_run ls1 out ls2 →
    merge_run ls (option_list o ++ out) ls2.

End AbstractMerge.

(** ** The shape of a round *)
Section RoundVocabulary.
Context {S : Type} `{TransactionStream S}.

(** The merger after [next] has been called on stream [i] of the peeked
    merger. *)
Definition advanced (m : StreamMerger S) (i : nat) (s : S) : StreamMerger S :=
  {| streams := <[i := (next (peek s).2).2]> (after_peeks (streams m));
     calls := calls m ++ peek_calls (streams m) ++ [NextCall i (next (peek s).2).1] |}.

(** The shapes a round takes, for a callback [pick]. *)
Inductive round_shape (pick : Candidate → Candidate → completion Candidate)
    (m : StreamMerger S) : round_result S → Prop :=
| shape_exhausted :
    Forall (λ s, (peek s).1 = None) (streams m) →
    round_shape pick m (Exhausted (peeked m))
| shape_failed e :
    available (peeks (streams m)) ≠ [] →
    reduce pick (available (peeks (streams m))) = Throw e →
    round_shape pick m (Failed e (peeked m))
| shape_appended w s v :
    reduce pick (available (peeks (streams m))) = Return w →
    streams m !! cand_streamIndex w = Some s →
    (peek s).1 = Some (cand_transaction w) →
    produced (next (peek s).2).1 = Some v →
    round_shape pick m (Appended v (advanced m (cand_streamIndex w) s))
| shape_empty w s :
    reduce pick (available (peeks (streams m))) = Return w →
    streams m !! cand_streamIndex w = Some s →
    (peek s).1 = Some (cand_transaction w) →
    produced (next (peek s).2).1 = None →
    round_shape pick m (Empty (advanced m (cand_streamIndex w) s)).

(** What a round may do to the merger: peek every stream once, in order,
    then call [next] once, on the stream of the winner that [reduce] returned,
    or on no stream when the round stops. *)
Definition round_frame (pick : Candidate → Candidate → completion Candidate)
    (m : StreamMerger S) (r : round_result S) : Prop :=
  match r with
  | Appended _ m' | Empty m' =>
      ∃ w s new,
        reduce pick (available (peeks (streams m))) = Return w
        ∧ streams m !! cand_streamIndex w = Some s
        ∧ calls m' = calls m ++ new
        ∧ new = peek_calls (streams m)
                ++ [NextCall (cand_streamIndex w) (next (peek s).2).1]
        ∧ next_calls new = [cand_streamIndex w]
        ∧ streams m' !! cand_streamIndex w = Some (next (peek s).2).2
        ∧ ∀ j, j ≠ cand_streamIndex w →
            streams m' !! j = (λ s', (peek s').2) <$> streams m !! j
  | Exhausted m' | Failed _ m' =>
      ∃ new, calls m' = calls m ++ new ∧ new = peek_calls (streams m)
             ∧ next_calls new = [] ∧ streams m' = after_peeks (streams m)
  end.

(** What a round does, read off the candidates and the answer of [reduce]:
    with no candidate the round stops after the peeks; when the callback
    throws, the round fails after the peeks; when [reduce] returns a winner,
    [next] is called on the winner's stream, as its [peek] left it, and the
    round appends what that call produced, or nothing. *)
Definition round_rule (pick : Candidate → Candidate → completion Candidate)
    (m : StreamMerger S) (r : round_result S) : Prop :=
  let avail := available (peeks (streams m)) in
  (avail = [] → r = Exhausted (peeked m))
  ∧ (∀ e, avail ≠ [] → reduce pick avail = Throw e → r = Failed e (peeked m))
  ∧ (∀ w, avail ≠ [] → reduce pick avail = Return w →
       ∃ s, streams m !! cand_streamIndex w = Some s
            ∧ (peek s).1 = Some (cand_transaction w)
            ∧ r = match produced (next (peek s).2).1 with
                  | Some v => Appended v (advanced m (cand_streamIndex w) s)
                  | None => Empty (advanced m (cand_streamIndex w) s)
                  end).

End RoundVocabulary.

(** ** Calls, pages and errors *)

(** The items [next] produced on stream [i], in order. *)
Definition from_stream (i : nat) (out : list (nat * ResponseTransaction))
  : list ResponseTransaction :=
  (filter (λ p, p.1 = i) out).*2.

(** The number of calls of [peek] in a log. *)
Definition peek_count (cs : list call) : nat :=
  length (omap (λ c, match c with
                     | PeekCall i _ => Some i
                     | NextCall _ _ => None
                     end) cs).

(** The completion of a second page put behind a first page [pre]. *)
Definition prepend (pre : list ResponseTransaction)
    (out : completion (list ResponseTransaction))
  : completion (list ResponseTransaction) :=
  match out with
  | Return res => Return (pre ++ res)
  | Throw e => Throw e
  end.

(** The errors of a call of [takeN] of [part_000] that leaves the merger
    [m']: the two of the limit checks, the stall error, and an error that the
    normalizer threw on a candidate of the round the call stopped in, a round
    of two candidates or more that ended after its peeks. *)
Definition takeN_error `{Runtime} {S : Type} `{TransactionStream S}
    (limit : number) (m' : StreamMerger S) (e : Error) : Prop :=
  e = mkError ("Invalid limit: " +:+ Number_toString limit
               +:+ ". Must be a positive finite number.")
  ∨ e = mkError ("Limit " +:+ Number_toString limit
                 +:+ " exceeds maximum allowed limit of "
                 +:+ Number_toString Part000.MAX_ALLOWED_LIMIT)
  ∨ e = Part000.stall_error
  ∨ (∃ m0 c, m' = peeked m0
             ∧ 2 ≤ length (available (peeks (streams m0)))
             ∧ c ∈ available (peeks (streams m0))
             ∧ Part000.getTransactionTimestamp (cand_transaction c) = Throw e).

(** The time value the normalizer reads off a starknet or spark transaction:
    [new Date(...).getTime()], before the test for NaN. *)
Definition time_of `{Runtime} (tx : ResponseTransaction) : option number :=
  match tx with
  | starknet _ blockTimestamp => Some (getTime (new_Date (DateString blockTimestamp)))
  | spark _ created =>
      Some (getTime (new_Date (nullish (DateString <$> created) (DateNumber 0%num))))
  | _ => None
  end.

(** A call that ended before its page of [a] items was full: it returned
    fewer items, or it threw. *)
Definition unfilled (a : nat) (out : completion (list ResponseTransaction)) : Prop :=
  match out with
  | Return res => length res < a
  | Throw _ => True
  end.

(** Stream by stream, the items [out] took from a stream, followed by those
    left in [ls'], are drawn in order from the items that were left in [ls]:
    none is made up, repeated or moved.  When [exact] holds none is missing
    either. *)
Definition drawn (exact : Prop) (ls : list (list ResponseTransaction))
    (out : list (nat * ResponseTransaction))
    (ls' : list (list ResponseTransaction)) : Prop :=
  ∀ i l, ls !! i = Some l →
    ∃ l', ls' !! i = Some l'
          ∧ sublist (from_stream i out ++ l') l
          ∧ (exact → l = from_stream i out ++ l').

(** * Comparisons of numbers *)
Section NumberFacts.

Lemma Qltb_spec (p q : Q) : negb (Qle_bool q p) = true ↔ (p < q)%Q.
Proof.
  rewrite negb_true_iff. split; intros Hpq.
  - apply Qnot_le_lt. intros Hle. apply Qle_bool_iff in Hle. congruence.
  - destruct (Qle_bool q p) eqn:E; [|done].
    apply Qle_bool_iff in E. exfalso. exact (Qlt_not_le _ _ Hpq E).
Qed.

Ltac number_cases :=
  repeat match goal with
         | a : number |- _ => destruct a
         end;
  simpl in *; try done.

Ltac to_Q :=
  repeat match goal with
         | H : negb (Qle_bool _ _) = true |- _ => apply Qltb_spec in H
         | H : negb (Qle_bool _ _) = false |- _ =>
             apply negb_false_iff, Qle_bool_iff in H
         | H : Qeq_bool _ _ = true |- _ => apply Qeq_bool_iff in H
         | H : Qeq_bool _ _ = false |- _ => apply Qeq_bool_neq in H
         | |- negb (Qle_bool _ _) = true => apply Qltb_spec
         | |- Qeq_bool _ _ = true => apply Qeq_bool_iff
         end.

Lemma lt_trans (a b c : number) :
  Number.lt a b = true → Number.lt b c = true → Number.lt a c = true.
Proof. intros; number_cases; to_Q; eapply Qlt_trans; eauto. Qed.

Lemma lt_eq_trans (a b c : number) :
  Number.lt a b = true → Number.strict_eq b c = true → Number.lt a c = true.
Proof.
  intros; number_cases; to_Q.
  eapply Qlt_le_trans; eauto. rewrite H0. apply Qle_refl.
Qed.

Lemma eq_lt_trans (a b c : number) :
  Number.strict_eq a b = true → Number.lt b c = true → Number.lt a c = true.
Proof.
  intros; number_cases; to_Q.
  eapply Qle_lt_trans; eauto. rewrite H. apply Qle_refl.
Qed.

Lemma strict_eq_sym (a b : number) :
  Number.strict_eq a b = Number.strict_eq b a.
Proof. number_cases. apply Qeq_bool_comm. Qed.

Lemma strict_eq_trans (a b c : number) :
  Number.strict_eq a b = true → Number.strict_eq b c = true →
  Number.strict_eq a c = true.
Proof. intros; number_cases; to_Q. by rewrite H. Qed.

Lemma strict_eq_refl (a : number) :
  Number.isNaN a = false → Number.strict_eq a a = true.
Proof. intros; number_cases. apply Qeq_bool_refl. Qed.

Lemma lt_not_eq (a b : number) :
  Number.lt a b = true → Number.strict_eq a b = false.
Proof.
  intros; number_cases. to_Q.
  apply not_true_is_false; intros E. to_Q.
  rewrite E in H. exact (Qlt_irrefl _ H).
Qed.

(** Numbers other than NaN are totally ordered. *)
Lemma lt_total (a b : number) :
  Number.isNaN a = false → Number.isNaN b = false →
  Number.lt a b = true ∨ Number.strict_eq a b = true ∨ Number.lt b a = true.
Proof.
  intros; number_cases; auto.
  match goal with
  | |- negb (Qle_bool ?q ?p) = true ∨ _ => destruct (Q_dec p q) as [[Hlt|Hgt]|Heq]
  end.
  - left. by apply Qltb_spec.
  - right; right. by apply Qltb_spec.
  - right; left. by apply Qeq_bool_iff.
Qed.

Lemma ge_trans (a b c : number) :
  Number.ge a b = true → Number.ge b c = true → Number.ge a c = true.
Proof.
  unfold Number.ge, Number.le. rewrite !orb_true_iff.
  intros [Hab|Hab] [Hbc|Hbc].
  - left. eapply lt_trans; eauto.
  - left. eapply eq_lt_trans; eauto.
  - left. eapply lt_eq_trans; eauto.
  - right. eapply strict_eq_trans; eauto.
Qed.

(** Equal numbers compare alike. *)
Lemma lt_compat_r (a b b' : number) :
  Number.strict_eq b b' = true → Number.lt a b = Number.lt a b'.
Proof.
  intros; number_cases. to_Q. f_equal. by apply Qleb_comp.
Qed.

Lemma lt_compat_l (a a' b : number) :
  Number.strict_eq a a' = true → Number.lt a b = Number.lt a' b.
Proof.
  intros; number_cases. to_Q. f_equal. by apply Qleb_comp.
Qed.

Lemma strict_eq_compat_l (a a' b : number) :
  Number.strict_eq a a' = true → Number.strict_eq a b = Number.strict_eq a' b.
Proof.
  intros; number_cases. to_Q. by apply Qeqb_comp.
Qed.

Lemma strict_eq_compat_r (a b b' : number) :
  Number.strict_eq b b' = true → Number.strict_eq a b = Number.strict_eq a b'.
Proof.
  intros; number_cases. to_Q. by apply Qeqb_comp.
Qed.

Lemma le_compat_l (a a' b : number) :
  Number.strict_eq a a' = true → Number.le a b = Number.le a' b.
Proof.
  intros Heq. unfold Number.le.
  by rewrite (lt_compat_l _ _ _ Heq), (strict_eq_compat_l _ _ _ Heq).
Qed.

Lemma le_compat_r (a b b' : number) :
  Number.strict_eq b b' = true → Number.le a b = Number.le a b'.
Proof.
  intros Heq. unfold Number.le.
  by rewrite (lt_compat_r _ _ _ Heq), (strict_eq_compat_r _ _ _ Heq).
Qed.

Lemma strict_eq_finite (a b : number) :
  Number.strict_eq a b = true → Number.isFinite a = Number.isFinite b.
Proof. intros; number_cases. Qed.

(** The sentinel is above every finite number. *)
Lemma infinity_above_finite (q : Q) :
  Number.gt POSITIVE_INFINITY (Finite q) = true.
Proof. done. Qed.

Lemma finite_not_ge_infinity (q : Q) :
  Number.ge (Finite q) POSITIVE_INFINITY = false.
Proof. done. Qed.

(** Flooring the exact quotient of an integer is integer division. *)
Lemma floor_div_by_of_Z (z : Z) (d : positive) :
  Number.floor (Number.div_by (Number.of_Z z) d) = Number.of_Z (z / Z.pos d).
Proof.
  unfold Number.floor, Number.div_by, Number.of_Z. by rewrite <- Zdiv_Qdiv.
Qed.

End NumberFacts.

(** * The normalizers *)
Section NormalizerFacts.
Context `{Runtime}.

(** The normalizer of [random.ts] computes the MergeKey, and NaN where the
    normalizer of [part_000] throws. *)
Lemma random_timestamp_is_merge_key (tx : ResponseTransaction) :
  Random.getTransactionTimestamp tx = merge_key tx.
Proof.
  unfold merge_key. destruct tx as [p t|p t b|p raw|p [raw|]]; simpl.
  - done.
  - repeat case_match; simplify_eq; done.
  - unfold getTime; simpl. by destruct (Date_parse raw).
  - unfold getTime; simpl. by destruct (Date_parse raw).
  - done.
Qed.

Lemma keyed_returns (tx : ResponseTransaction) :
  keyed tx → Part000.getTransactionTimestamp tx = Return (merge_key tx).
Proof.
  unfold keyed, merge_key.
  by destruct (Part000.getTransactionTimestamp tx).
Qed.

Lemma returns_merge_key (tx : ResponseTransaction) (k : number) :
  Part000.getTransactionTimestamp tx = Return k → merge_key tx = k.
Proof. unfold merge_key. by intros ->. Qed.

Lemma contains_suffix (pre raw : string) : contains (pre +:+ raw) raw.
Proof.
  exists pre, "". f_equal. induction raw as [|a raw IH]; [done|].
  change (String a raw = String a (raw +:+ "")). congruence.
Qed.

Lemma malformed_throws (tx : ResponseTransaction) (raw : string) :
  malformed tx raw →
  ∃ e, Part000.getTransactionTimestamp tx = Throw e ∧ contains (message e) raw.
Proof.
  intros [[[p ->]|[p ->]] Hnan]; simpl; unfold getTime; simpl; rewrite Hnan; simpl;
    eexists; (split; [reflexivity|]); simpl; apply contains_suffix.
Qed.

Lemma throws_malformed (tx : ResponseTransaction) (e : Error) :
  Part000.getTransactionTimestamp tx = Throw e →
  ∃ raw, malformed tx raw ∧ contains (message e) raw.
Proof.
  destruct tx as [p t|p t b|p raw|p [raw|]]; simpl.
  - done.
  - repeat case_match; simplify_eq; done.
  - unfold getTime; simpl. destruct (Date_parse raw) eqn:E; simpl; try done.
    intros [= <-]. exists raw. split; [split; eauto|]. apply contains_suffix.
  - unfold getTime; simpl. destruct (Date_parse raw) eqn:E; simpl; try done.
    intros [= <-]. exists raw. split; [split; eauto|]. apply contains_suffix.
  - done.
Qed.

End NormalizerFacts.

(** * Selecting the winner *)
Section Winner.
Context `{Runtime}.

Lemma merge_order_trans (p q r : nat * ResponseTransaction) :
  merge_order p q → merge_order q r → merge_order p r.
Proof.
  unfold merge_order, Number.gt.
  intros [Hpq|[Hpq Hi]] [Hqr|[Hqr Hj]].
  - left. eapply lt_trans; eauto.
  - left. eapply eq_lt_trans; eauto. by rewrite strict_eq_sym.
  - left. eapply lt_eq_trans; eauto. by rewrite strict_eq_sym.
  - right. split; [eapply strict_eq_trans; eauto | lia].
Qed.

Lemma merge_order_refl (p : nat * ResponseTransaction) :
  keyed p.2 → merge_order p p.
Proof. intros Hk. right. split; [by apply strict_eq_refl | done]. Qed.

Lemma merge_order_ge (p q : nat * ResponseTransaction) :
  merge_order p q → Number.ge (merge_key p.2) (merge_key q.2) = true.
Proof.
  unfold merge_order, Number.ge, Number.le, Number.gt.
  intros [->|[Heq _]]; [done|]. rewrite strict_eq_sym, Heq. apply orb_true_r.
Qed.

Lemma choose_either (best curr : Candidate) :
  choose best curr = best ∨ choose best curr = curr.
Proof.
  unfold choose. repeat case_match; auto.
Qed.

Lemma choose_precedes (best curr : Candidate) :
  keyed (cand_transaction best) → keyed (cand_transaction curr) →
  merge_order (tagged (choose best curr)) (tagged best)
  ∧ merge_order (tagged (choose best curr)) (tagged curr).
Proof.
  intros Hb Hc. unfold choose.
  destruct (Number.gt _ _) eqn:Hgt.
  { split; [by left | by apply merge_order_refl]. }
  destruct (Number.strict_eq _ _) eqn:Heq.
  { destruct (_ <? _) eqn:Hlt.
    - apply Nat.ltb_lt in Hlt.
      split; [right; simpl; split; [done|lia] | by apply merge_order_refl].
    - apply Nat.ltb_ge in Hlt.
      split; [by apply merge_order_refl|].
      right; simpl; split; [by rewrite strict_eq_sym | lia]. }
  split; [by apply merge_order_refl|].
  left. simpl. unfold Number.gt in *.
  destruct (lt_total (merge_key (cand_transaction best))
              (merge_key (cand_transaction curr))) as [Hlt|[Heq'|Hlt]];
    [done|done|congruence| |done].
  rewrite strict_eq_sym in Heq'. congruence.
Qed.

Lemma fold_choose_best (l : list Candidate) (acc : Candidate) :
  keyed (cand_transaction acc) → Forall (λ c, keyed (cand_transaction c)) l →
  best_candidate (fold_left choose l acc) (acc :: l).
Proof.
  revert acc. induction l as [|x l IH]; intros acc Hacc Hl; simpl.
  { split; [left|]. intros c ->%list_elem_of_singleton. by apply merge_order_refl. }
  inversion Hl as [|? ? Hx Hl']; subst.
  destruct (choose_precedes acc x Hacc Hx) as [Hca Hcx].
  assert (keyed (cand_transaction (choose acc x))) as Hk
    by (destruct (choose_either acc x) as [-> | ->]; done).
  destruct (IH _ Hk Hl') as [Hin Hbest]. split.
  - apply elem_of_cons in Hin as [Hin|Hin].
    + rewrite Hin. destruct (choose_either acc x) as [-> | ->];
        [left | right; left].
    + right; right; done.
  - intros c Hc. apply elem_of_cons in Hc as [->|Hc].
    + eapply merge_order_trans; [|exact Hca]. apply Hbest. left.
    + apply elem_of_cons in Hc as [->|Hc].
      * eapply merge_order_trans; [|exact Hcx]. apply Hbest. left.
      * apply Hbest. by right.
Qed.

(** A callback that computes [choose] makes [reduce] fold it. *)
Lemma reduce_from_choose (f : Candidate → Candidate → completion Candidate)
    (P : Candidate → Prop) (l : list Candidate) (acc : Candidate) :
  (∀ b c, P b → P c → f b c = Return (choose b c)) →
  P acc → Forall P l →
  reduce_from f acc l = Return (fold_left choose l acc).
Proof.
  intros Hf. revert acc. induction l as [|x l IH]; intros acc Hacc Hl; simpl; [done|].
  inversion Hl; subst. rewrite Hf by done. apply IH; [|done].
  destruct (choose_either acc x) as [-> | ->]; done.
Qed.

Lemma pick_choose (best curr : Candidate) :
  keyed (cand_transaction best) → keyed (cand_transaction curr) →
  Part000.pick best curr = Return (choose best curr).
Proof.
  intros Hb Hc. unfold Part000.pick, choose.
  rewrite (keyed_returns _ Hb), (keyed_returns _ Hc).
  repeat case_match; done.
Qed.

Lemma random_pick_choose (best curr : Candidate) :
  Random.pick best curr = Return (choose best curr).
Proof.
  unfold Random.pick, choose. rewrite !random_timestamp_is_merge_key.
  repeat case_match; done.
Qed.

(** On candidates that have MergeKeys, [reduce] with the callback of
    [part_000] returns a best candidate. *)
Lemma reduce_pick_best (avail : list Candidate) :
  avail ≠ [] → Forall (λ c, keyed (cand_transaction c)) avail →
  ∃ w, reduce Part000.pick avail = Return w ∧ best_candidate w avail.
Proof.
  destruct avail as [|a l]; [done|]. intros _ Hall.
  inversion Hall; subst. eexists. split.
  - simpl. apply (reduce_from_choose _ (λ c, keyed (cand_transaction c))); try done.
    intros; by apply pick_choose.
  - by apply fold_choose_best.
Qed.

Lemma random_reduce_pick (avail : list Candidate) (a : Candidate) :
  reduce Random.pick (a :: avail) = Return (fold_left choose avail a).
Proof.
  simpl. apply (reduce_from_choose _ (λ _, True)); try done.
  - intros; apply random_pick_choose.
  - by apply Forall_forall.
Qed.

End Winner.

(** * Reading the log *)
Section Log.

Lemma provenance_app (cs ds : list call) :
  provenance (cs ++ ds) = provenance cs ++ provenance ds.
Proof. apply omap_app. Qed.

Lemma yields_app (cs ds : list call) : yields (cs ++ ds) = yields cs ++ yields ds.
Proof. apply omap_app. Qed.

Lemma next_calls_app (cs ds : list call) :
  next_calls (cs ++ ds) = next_calls cs ++ next_calls ds.
Proof. apply omap_app. Qed.

Context {S : Type} `{TransactionStream S}.

Lemma omap_peek_calls {B : Type} (f : call → option B) (ss : list S) :
  (∀ i a, f (PeekCall i a) = None) → omap f (peek_calls ss) = [].
Proof.
  intros Hf. unfold peek_calls.
  assert (∀ g : nat → S → call, (∀ i s, ∃ j a, g i s = PeekCall j a) →
          omap f (imap g ss) = []) as Hgen.
  { induction ss as [|s ss IH]; intros g Hg; [done|].
    rewrite imap_cons. simpl. destruct (Hg 0 s) as (j & a & ->). rewrite Hf.
    apply IH. intros i s'. apply Hg. }
  apply Hgen. eauto.
Qed.

Lemma provenance_peek_calls (ss : list S) : provenance (peek_calls ss) = [].
Proof. by apply omap_peek_calls. Qed.

Lemma yields_peek_calls (ss : list S) : yields (peek_calls ss) = [].
Proof. by apply omap_peek_calls. Qed.

Lemma next_calls_peek_calls (ss : list S) : next_calls (peek_calls ss) = [].
Proof. by apply omap_peek_calls. Qed.

End Log.

(** * Rounds on streams that follow the contract *)
Section Contract.
Context `{Runtime} {S : Type} `{TransactionStream S}.
Context (R : S → list ResponseTransaction → Prop) (HR : follows_contract R).

Lemma after_peeks_contract (ss : list S) (ls : list (list ResponseTransaction)) :
  Forall2 R ss ls → Forall2 R (after_peeks ss) ls.
Proof.
  unfold after_peeks. induction 1; csimpl; constructor; [|done].
  by apply (peek_reports_head R HR).
Qed.

Lemma available_peeks (ss : list S) (ls : list (list ResponseTransaction)) :
  Forall2 R ss ls → available (peeks ss) = candidates ls.
Proof.
  intros HF. unfold candidates. f_equal. apply list_eq. intros i.
  unfold peeks. rewrite !list_lookup_imap.
  destruct (ss !! i) as [s|] eqn:Hs.
  - destruct (Forall2_lookup_l _ _ _ _ _ HF Hs) as (l & -> & Hsl). simpl.
    by destruct (peek_reports_head R HR s l Hsl) as [-> _].
  - apply lookup_ge_None in Hs. rewrite (Forall2_length _ _ _ HF) in Hs.
    apply lookup_ge_None in Hs. by rewrite Hs.
Qed.

Lemma elem_of_candidates (c : Candidate) (ls : list (list ResponseTransaction)) :
  c ∈ candidates ls
  ↔ ∃ l, ls !! cand_streamIndex c = Some (cand_transaction c :: l).
Proof.
  unfold candidates, available. rewrite list_elem_of_omap. split.
  - intros (p & Hp & Hc). apply elem_of_lookup_imap in Hp as (i & l & -> & Hl).
    simpl in Hc. destruct l as [|x l]; simplify_eq/=. eauto.
  - intros (l & Hl). eexists. split.
    + apply elem_of_lookup_imap. eauto.
    + simpl. by destruct c.
Qed.

Lemma candidates_keyed (ls : list (list ResponseTransaction)) :
  Forall (Forall keyed) ls →
  Forall (λ c, keyed (cand_transaction c)) (candidates ls).
Proof.
  intros Hk. apply Forall_forall. intros c (l & Hl)%elem_of_candidates.
  eapply Forall_lookup_1 in Hk; [|done]. by inversion Hk.
Qed.

Lemma best_is_winner (w : Candidate) (ls : list (list ResponseTransaction)) :
  best_candidate w (candidates ls) →
  ∃ l, ls !! cand_streamIndex w = Some (cand_transaction w :: l)
       ∧ is_winner ls (cand_streamIndex w) (cand_transaction w).
Proof.
  intros [(l & Hl)%elem_of_candidates Hbest]. exists l. split; [done|].
  intros j y l' Hj.
  apply (Hbest {| cand_transaction := y; cand_streamIndex := j |}).
  apply elem_of_candidates. eauto.
Qed.

(** What [next] on the winner does to the merger. *)
Lemma consume_contract (m : StreamMerger S) (ls : list (list ResponseTransaction))
    (w : Candidate) (l : list ResponseTransaction) :
  Forall2 R (streams m) ls →
  ls !! cand_streamIndex w = Some (cand_transaction w :: l) →
  ∃ r m',
    calls m' = calls m ++ [NextCall (cand_streamIndex w) r]
    ∧ ((produced r = Some (cand_transaction w)
        ∧ consume w m = Appended (cand_transaction w) m'
        ∧ Forall2 R (streams m') (<[cand_streamIndex w := l]> ls))
       ∨ (produced r = None ∧ consume w m = Empty m'
          ∧ (Forall2 R (streams m') ls
             ∨ Forall2 R (streams m') (<[cand_streamIndex w := l]> ls)))).
Proof.
  intros HF Hl. destruct (Forall2_lookup_r _ _ _ _ _ HF Hl) as (s & Hs & Hsl).
  unfold consume. rewrite Hs.
  pose proof (next_serves_head R HR s _ _ Hsl) as Hnext.
  destruct (next s) as [r s'] eqn:Hn. simpl in Hnext.
  exists r, {| streams := <[cand_streamIndex w := s']> (streams m);
               calls := calls m ++ [NextCall (cand_streamIndex w) r] |}.
  split; [reflexivity|].
  destruct Hnext as [[Hr Hs']|[Hr Hs']]; rewrite Hr; [left|right];
    (split; [done|]); (split; [done|]); simpl.
  - by apply Forall2_insert.
  - destruct Hs' as [Hs'|Hs']; [left|right].
    + rewrite <- (list_insert_id ls (cand_streamIndex w) _ Hl).
      by apply Forall2_insert.
    + by apply Forall2_insert.
Qed.

(** A round of [part_000] on streams whose items have MergeKeys is a step of
    the merge. *)
Lemma round_refines (m : StreamMerger S) (ls : list (list ResponseTransaction)) :
  Forall2 R (streams m) ls → Forall (Forall keyed) ls →
  match Part000.round m with
  | Exhausted m' =>
      Forall2 R (streams m') ls ∧ provenance (calls m') = provenance (calls m)
  | Failed _ _ => False
  | Appended v m' =>
      ∃ i ls', merge_step ls (Some (i, v)) ls' ∧ Forall2 R (streams m') ls'
               ∧ provenance (calls m') = provenance (calls m) ++ [(i, v)]
  | Empty m' =>
      ∃ ls', merge_step ls None ls' ∧ Forall2 R (streams m') ls'
             ∧ provenance (calls m') = provenance (calls m)
  end.
Proof.
  intros HF Hk. unfold Part000.round. rewrite (available_peeks _ _ HF).
  destruct (length (candidates ls) =? 0) eqn:Hlen.
  { simpl. split; [by apply after_peeks_contract|].
    by rewrite provenance_app, provenance_peek_calls, app_nil_r. }
  apply Nat.eqb_neq in Hlen.
  destruct (reduce_pick_best (candidates ls)) as (w & -> & Hbest).
  { by destruct (candidates ls). }
  { by apply candidates_keyed. }
  destruct (best_is_winner _ _ Hbest) as (l & Hl & Hwin).
  set (m1 := peeked m).
  destruct (consume_contract m1 ls w l) as (r & m' & Hcalls & Hcase);
    [by apply after_peeks_contract | done |].
  assert (provenance (calls m1) = provenance (calls m)) as Hprov.
  { simpl. by rewrite provenance_app, provenance_peek_calls, app_nil_r. }
  destruct Hcase as [(Hr & -> & HF')|(Hr & -> & HF')].
  - eexists _, _. split; [by eapply step_serve|]. split; [done|].
    rewrite Hcalls, provenance_app, Hprov. simpl. by rewrite Hr.
  - assert (provenance (calls m') = provenance (calls m)) as Hp'.
    { rewrite Hcalls, provenance_app, Hprov. simpl. rewrite Hr. apply app_nil_r. }
    destruct HF' as [HF'|HF'].
    + eexists. split; [by eapply step_hold|]. done.
    + eexists. split; [by eapply step_drop|]. done.
Qed.

End Contract.

(** * The merge on the items left in each stream *)
Section MergeRuns.
Context `{Runtime}.

Implicit Types ls : list (list ResponseTransaction).

Lemma non_increasing_strongly (l : list ResponseTransaction) :
  non_increasing l →
  StronglySorted (λ a b, Number.ge (merge_key a) (merge_key b) = true) l.
Proof.
  apply Sorted_StronglySorted. intros a b c. apply ge_trans.
Qed.

Lemma non_increasing_tail (x : ResponseTransaction) (l : list ResponseTransaction) :
  non_increasing (x :: l) → non_increasing l.
Proof. intros Hs. by inversion Hs. Qed.

(** The items of a step's result are items of its start, stream by stream. *)
Lemma merge_step_items ls o ls' j l' :
  merge_step ls o ls' → ls' !! j = Some l' →
  ∃ l, ls !! j = Some l ∧ ∀ y, y ∈ l' → y ∈ l.
Proof.
  assert (∀ i x l, ls !! i = Some (x :: l) → <[i:=l]> ls !! j = Some l' →
          ∃ l0, ls !! j = Some l0 ∧ ∀ y, y ∈ l' → y ∈ l0) as Hins.
  { intros i x l Hi Hj. destruct (decide (i = j)) as [->|Hne].
    - rewrite list_lookup_insert_eq in Hj by (by eapply lookup_lt_Some).
      simplify_eq. eexists; split; [done|]. intros y Hy. by right.
    - rewrite list_lookup_insert_ne in Hj by done. eauto. }
  intros Hstep Hj. inversion Hstep; subst; eauto.
Qed.

Lemma merge_step_preserves (P : list ResponseTransaction → Prop) ls o ls' :
  (∀ x l, P (x :: l) → P l) →
  merge_step ls o ls' → Forall P ls → Forall P ls'.
Proof.
  intros HP Hstep Hall. inversion Hstep; subst; try done.
  all: apply Forall_insert; [done|];
    eapply HP, (Forall_lookup_1 _ _ _ _ Hall); done.
Qed.

Lemma merge_step_keyed ls o ls' :
  merge_step ls o ls' → Forall (Forall keyed) ls → Forall (Forall keyed) ls'.
Proof. apply merge_step_preserves. intros x l Hx. by inversion Hx. Qed.

Lemma merge_step_sorted ls o ls' :
  merge_step ls o ls' → Forall non_increasing ls → Forall non_increasing ls'.
Proof. apply merge_step_preserves, non_increasing_tail. Qed.

(** Every item of the output was left in the stream that is said to have
    produced it. *)
Lemma merge_run_items ls out ls' :
  merge_run ls out ls' →
  ∀ p, p ∈ out → ∃ l, ls !! p.1 = Some l ∧ p.2 ∈ l.
Proof.
  induction 1 as [|ls o ls1 out ls2 Hstep Hrun IH]; intros p Hp.
  { by apply elem_of_nil in Hp. }
  apply elem_of_app in Hp as [Hp|Hp].
  - inversion Hstep; subst; simpl in Hp; try by apply elem_of_nil in Hp.
    apply list_elem_of_singleton in Hp as ->. simpl. eexists; split; [done|left].
  - destruct (IH p Hp) as (l1 & Hl1 & Hin).
    destruct (merge_step_items _ _ _ _ _ Hstep Hl1) as (l & Hl & Hsub). eauto.
Qed.

(** The winner of a round precedes every item left in any stream. *)
Lemma winner_precedes_all ls i x :
  Forall non_increasing ls → Forall (Forall keyed) ls →
  is_winner ls i x →
  ∀ j l y, ls !! j = Some l → y ∈ l → merge_order (i, x) (j, y).
Proof.
  intros Hsorted Hkeyed Hwin j l y Hj Hy.
  destruct l as [|h t]; [by apply elem_of_nil in Hy|].
  pose proof (Hwin j h t Hj) as Hxh.
  apply elem_of_cons in Hy as [->|Hy]; [done|].
  eapply Forall_lookup_1 in Hsorted; [|done].
  apply non_increasing_strongly in Hsorted.
  apply StronglySorted_inv in Hsorted as [_ Hh].
  rewrite Forall_forall in Hh. apply Hh in Hy.
  unfold merge_order, Number.gt, Number.ge, Number.le in *. simpl in *.
  apply orb_true_iff in Hy as [Hy|Hy]; destruct Hxh as [Hxh|[Hxh Hij]].
  - left. eapply lt_trans; eauto.
  - left. eapply lt_eq_trans; eauto. by rewrite strict_eq_sym.
  - left. eapply eq_lt_trans; eauto.
  - right. split; [|done]. eapply strict_eq_trans; eauto. by rewrite strict_eq_sym.
Qed.

(** The output of a merge of non-increasing streams is in merge order. *)
Lemma merge_run_sorted ls out ls' :
  merge_run ls out ls' →
  Forall non_increasing ls → Forall (Forall keyed) ls →
  StronglySorted merge_order out.
Proof.
  induction 1 as [|ls o ls1 out ls2 Hstep Hrun IH]; intros Hsorted Hkeyed.
  { constructor. }
  pose proof (IH (merge_step_sorted _ _ _ Hstep Hsorted)
                 (merge_step_keyed _ _ _ Hstep Hkeyed)) as Hout.
  inversion Hstep as [i x l Hi Hwin|i x l Hi Hwin|i x l Hi Hwin]; subst; simpl; try done.
  constructor; [done|]. apply Forall_forall. intros [j y] Hp.
  destruct (merge_run_items _ _ _ Hrun _ Hp) as (l1 & Hl1 & Hin).
  destruct (merge_step_items _ _ _ _ _ Hstep Hl1) as (l0 & Hl0 & Hsub).
  eapply winner_precedes_all; eauto.
Qed.

Lemma total_insert_tail ls i x l :
  ls !! i = Some (x :: l) → Datatypes.S (total (<[i:=l]> ls)) = total ls.
Proof.
  unfold total. revert i. induction ls as [|l0 ls IH]; intros [|i] Hi; simplify_eq/=.
  - done.
  - rewrite <- (IH i Hi). lia.
Qed.

End MergeRuns.

(** * The two versions, round by round *)
Section Agreement.
Context `{Runtime} {S : Type} `{TransactionStream S}.

Lemma pick_return (best curr w : Candidate) :
  Part000.pick best curr = Return w → w = choose best curr.
Proof.
  unfold Part000.pick, choose.
  destruct (Part000.getTransactionTimestamp (cand_transaction best)) as [kb|] eqn:Hb;
    [|done].
  destruct (Part000.getTransactionTimestamp (cand_transaction curr)) as [kc|] eqn:Hc;
    [|done].
  rewrite (returns_merge_key _ _ Hb), (returns_merge_key _ _ Hc).
  repeat case_match; congruence.
Qed.

Lemma reduce_from_pick_return (l : list Candidate) (acc w : Candidate) :
  reduce_from Part000.pick acc l = Return w → fold_left choose l acc = w.
Proof.
  revert acc. induction l as [|x l IH]; intros acc; simpl; [congruence|].
  destruct (Part000.pick acc x) as [c|] eqn:Hp; [|done].
  apply pick_return in Hp as ->. apply IH.
Qed.

(** Where the callback of [part_000] returns a winner, the callback of
    [random.ts] returns the same one. *)
Lemma reduce_pick_agrees (avail : list Candidate) (w : Candidate) :
  reduce Part000.pick avail = Return w → reduce Random.pick avail = Return w.
Proof.
  destruct avail as [|a l]; [done|]. intros Hw.
  rewrite random_reduce_pick. f_equal. by apply reduce_from_pick_return.
Qed.

Lemma random_reduce_returns (avail : list Candidate) :
  avail ≠ [] → ∃ w, reduce Random.pick avail = Return w.
Proof.
  destruct avail as [|a l]; [done|]. intros _. rewrite random_reduce_pick. eauto.
Qed.

(** A round of [part_000] that does not fail is the same round in
    [random.ts]. *)
Lemma round_not_failed_agrees (m : StreamMerger S) :
  (∀ e m', Part000.round m ≠ Failed e m') → Random.round m = Part000.round m.
Proof.
  unfold Random.round, Part000.round. intros Hok.
  destruct (length _ =? 0); [done|].
  destruct (reduce Part000.pick _) as [w|e] eqn:Hw; [|by edestruct Hok].
  by rewrite (reduce_pick_agrees _ _ Hw).
Qed.

End Agreement.

(** * Unfolding the loops *)
Section LoopEquations.
Context `{Runtime} {S : Type} `{TransactionStream S}.

Lemma loop_S (fuel : nat) (limit : number) (results : list ResponseTransaction)
    (c : nat) (m : StreamMerger S) :
  Part000.loop (Datatypes.S fuel) limit results c m =
  if Number.lt (Number.of_nat (length results)) limit then
    match Part000.round m with
    | Exhausted m' => Some (Return results, m')
    | Failed e m' => Some (Throw e, m')
    | Appended v m' => Part000.loop fuel limit (results ++ [v]) 0 m'
    | Empty m' =>
        if (Part000.MAX_EMPTY_PEEKS <=? Datatypes.S c)%nat
        then Some (Throw Part000.stall_error, m')
        else Part000.loop fuel limit results (Datatypes.S c) m'
    end
  else Some (Return results, m).
Proof. done. Qed.

Lemma random_loop_S (fuel : nat) (limit : number)
    (results : list ResponseTransaction) (m : StreamMerger S) :
  Random.loop (Datatypes.S fuel) limit results m =
  if Number.lt (Number.of_nat (length results)) limit then
    match Random.round m with
    | Exhausted m' => Some (Return results, m')
    | Failed e m' => Some (Throw e, m')
    | Appended v m' => Random.loop fuel limit (results ++ [v]) m'
    | Empty m' => Random.loop fuel limit results m'
    end
  else Some (Return results, m).
Proof. done. Qed.

Lemma after_rounds_S (n : nat) (limit : number) (results : list ResponseTransaction)
    (c : nat) (m : StreamMerger S) :
  Part000.after_rounds (Datatypes.S n) limit results c m =
  if Number.lt (Number.of_nat (length results)) limit then
    match Part000.round m with
    | Appended v m' => Part000.after_rounds n limit (results ++ [v]) 0 m'
    | Empty m' =>
        if (Part000.MAX_EMPTY_PEEKS <=? Datatypes.S c)%nat then None
        else Part000.after_rounds n limit results (Datatypes.S c) m'
    | _ => None
    end
  else None.
Proof. done. Qed.

Lemma random_after_rounds_S (n : nat) (limit : number)
    (results : list ResponseTransaction) (m : StreamMerger S) :
  Random.after_rounds (Datatypes.S n) limit results m =
  if Number.lt (Number.of_nat (length results)) limit then
    match Random.round m with
    | Appended v m' => Random.after_rounds n limit (results ++ [v]) m'
    | Empty m' => Random.after_rounds n limit results m'
    | _ => None
    end
  else None.
Proof. done. Qed.

End LoopEquations.

(** * Runs on streams that follow the contract *)
Section ContractRuns.
Context `{Runtime} {S : Type} `{TransactionStream S}.
Context (R : S → list ResponseTransaction → Prop) (HR : follows_contract R).

Lemma random_round_refines (m : StreamMerger S) (ls : list (list ResponseTransaction)) :
  Forall2 R (streams m) ls → Forall (Forall keyed) ls →
  Random.round m = Part000.round m.
Proof.
  intros HF Hk. apply round_not_failed_agrees. intros e m' He.
  pose proof (round_refines R HR m ls HF Hk) as Href. by rewrite He in Href.
Qed.

(** A run of [part_000] that returns is a run of the merge. *)
Lemma loop_refines (fuel : nat) (limit : number) (results : list ResponseTransaction)
    (c : nat) (m : StreamMerger S) (ls : list (list ResponseTransaction))
    (res : list ResponseTransaction) (m' : StreamMerger S) :
  Forall2 R (streams m) ls → Forall (Forall keyed) ls →
  Part000.loop fuel limit results c m = Some (Return res, m') →
  ∃ out ls', merge_run ls out ls' ∧ res = results ++ out.*2
             ∧ provenance (calls m') = provenance (calls m) ++ out
             ∧ Forall2 R (streams m') ls'.
Proof.
  revert results c m ls.
  induction fuel as [|fuel IH]; intros results c m ls HF Hk Hloop; [done|].
  rewrite loop_S in Hloop. destruct (Number.lt _ limit).
  2:{ simplify_eq. exists [], ls. rewrite !app_nil_r. repeat split; [constructor|done]. }
  pose proof (round_refines R HR m ls HF Hk) as Href.
  destruct (Part000.round m) as [m1|e m1|v m1|m1]; try done.
  - simplify_eq. destruct Href as [HF' Hp]. exists [], ls.
    rewrite !app_nil_r. repeat split; [constructor|done|done].
  - destruct Href as (i & ls1 & Hstep & HF1 & Hp).
    destruct (IH _ _ _ _ HF1 (merge_step_keyed _ _ _ Hstep Hk) Hloop)
      as (out & ls' & Hrun & Hres & Hprov & HF').
    exists ((i, v) :: out), ls'. split; [|split; [|split]]; [| | |done].
    + by apply (run_more ls (Some (i, v)) ls1).
    + rewrite Hres. csimpl. by rewrite <- app_assoc.
    + rewrite Hprov, Hp. by rewrite <- app_assoc.
  - destruct (Part000.MAX_EMPTY_PEEKS <=? Datatypes.S c)%nat; [done|].
    destruct Href as (ls1 & Hstep & HF1 & Hp).
    destruct (IH _ _ _ _ HF1 (merge_step_keyed _ _ _ Hstep Hk) Hloop)
      as (out & ls' & Hrun & Hres & Hprov & HF').
    exists out, ls'. split; [|split; [|split]]; [|done| |done].
    + by apply (run_more ls None ls1).
    + by rewrite Hprov, Hp.
Qed.

(** A run of [random.ts] that returns is a run of the merge. *)
Lemma random_loop_refines (fuel : nat) (limit : number)
    (results : list ResponseTransaction)
    (m : StreamMerger S) (ls : list (list ResponseTransaction))
    (res : list ResponseTransaction) (m' : StreamMerger S) :
  Forall2 R (streams m) ls → Forall (Forall keyed) ls →
  Random.loop fuel limit results m = Some (Return res, m') →
  ∃ out ls', merge_run ls out ls' ∧ res = results ++ out.*2
             ∧ provenance (calls m') = provenance (calls m) ++ out
             ∧ Forall2 R (streams m') ls'.
Proof.
  revert results m ls.
  induction fuel as [|fuel IH]; intros results m ls HF Hk Hloop; [done|].
  rewrite random_loop_S in Hloop. destruct (Number.lt _ limit).
  2:{ simplify_eq. exists [], ls. rewrite !app_nil_r. repeat split; [constructor|done]. }
  pose proof (round_refines R HR m ls HF Hk) as Href.
  rewrite (random_round_refines m ls HF Hk) in Hloop.
  destruct (Part000.round m) as [m1|e m1|v m1|m1]; try done.
  - simplify_eq. destruct Href as [HF' Hp]. exists [], ls.
    rewrite !app_nil_r. repeat split; [constructor|done|done].
  - destruct Href as (i & ls1 & Hstep & HF1 & Hp).
    destruct (IH _ _ _ HF1 (merge_step_keyed _ _ _ Hstep Hk) Hloop)
      as (out & ls' & Hrun & Hres & Hprov & HF').
    exists ((i, v) :: out), ls'. split; [|split; [|split]]; [| | |done].
    + by apply (run_more ls (Some (i, v)) ls1).
    + rewrite Hres. csimpl. by rewrite <- app_assoc.
    + rewrite Hprov, Hp. by rewrite <- app_assoc.
  - destruct Href as (ls1 & Hstep & HF1 & Hp).
    destruct (IH _ _ _ HF1 (merge_step_keyed _ _ _ Hstep Hk) Hloop)
      as (out & ls' & Hrun & Hres & Hprov & HF').
    exists out, ls'. split; [|split; [|split]]; [|done| |done].
    + by apply (run_more ls None ls1).
    + by rewrite Hprov, Hp.
Qed.

End ContractRuns.

(** * The loop and its limit *)
Section Loops.
Context `{Runtime} {S : Type} `{TransactionStream S}.

Lemma takeN_returns_loop (fuel : nat) (limit : number) (m m' : StreamMerger S)
    (res : list ResponseTransaction) :
  Part000.takeN fuel limit m = Some (Return res, m') →
  Part000.loop fuel limit [] 0 m = Some (Return res, m').
Proof.
  unfold Part000.takeN. destruct (_ || _); [done|]. by destruct (Number.gt _ _).
Qed.

Lemma within_push (limit : number) (results : list ResponseTransaction)
    (v : ResponseTransaction) :
  Number.lt (Number.of_nat (length results)) limit = true →
  within limit (results ++ [v]).
Proof.
  intros Hlt. right. rewrite length_app. simpl.
  by replace (length results + 1 - 1) with (length results) by lia.
Qed.

Lemma loop_within (fuel : nat) (limit : number) (results : list ResponseTransaction)
    (c : nat) (m m' : StreamMerger S) (res : list ResponseTransaction) :
  within limit results →
  Part000.loop fuel limit results c m = Some (Return res, m') →
  within limit res.
Proof.
  revert results c m. induction fuel as [|fuel IH]; intros results c m Hw Hloop; [done|].
  rewrite loop_S in Hloop. destruct (Number.lt _ limit) eqn:Hlt; [|by simplify_eq].
  destruct (Part000.round m) as [m1|e m1|v m1|m1]; try done.
  - by simplify_eq.
  - eapply IH; [|done]. by apply within_push.
  - destruct (_ <=? _)%nat; [done|]. by eapply IH.
Qed.

Lemma random_loop_within (fuel : nat) (limit : number)
    (results : list ResponseTransaction)
    (m m' : StreamMerger S) (res : list ResponseTransaction) :
  within limit results →
  Random.loop fuel limit results m = Some (Return res, m') →
  within limit res.
Proof.
  revert results m. induction fuel as [|fuel IH]; intros results m Hw Hloop; [done|].
  rewrite random_loop_S in Hloop. destruct (Number.lt _ limit) eqn:Hlt; [|by simplify_eq].
  destruct (Random.round m) as [m1|e m1|v m1|m1]; try done.
  - by simplify_eq.
  - eapply IH; [|done]. by apply within_push.
  - by eapply IH.
Qed.

Lemma of_Z_lt (a b : Z) : Number.lt (Number.of_Z a) (Number.of_Z b) = true ↔ (a < b)%Z.
Proof.
  unfold Number.lt, Number.of_Z. rewrite Qltb_spec. by rewrite <- Zlt_Qlt.
Qed.

Lemma of_Z_le (a b : Z) : Number.le (Number.of_Z a) (Number.of_Z b) = true ↔ (a ≤ b)%Z.
Proof.
  unfold Number.le. rewrite orb_true_iff, of_Z_lt. unfold Number.of_Z; simpl.
  rewrite Qeq_bool_iff, inject_Z_injective. lia.
Qed.

(** For an integral limit, [within] bounds the length by the limit. *)
Lemma within_integral (z : Z) (results : list ResponseTransaction) :
  (0 < z)%Z → within (Number.of_Z z) results →
  Number.le (Number.of_nat (length results)) (Number.of_Z z) = true.
Proof.
  intros Hz [Hw|Hw]; unfold Number.of_nat in *; apply of_Z_le.
  - lia.
  - apply of_Z_lt in Hw. lia.
Qed.

Lemma valid_limit_accepted (fuel : nat) (limit : number) (m : StreamMerger S) :
  valid_limit limit →
  Part000.takeN fuel limit m = Part000.loop fuel limit [] 0 m.
Proof.
  intros (z & Heq & Hz). unfold Part000.takeN.
  assert (Number.le limit 0%num = false) as ->
    by (rewrite (le_compat_l _ _ _ Heq); apply not_true_is_false;
        rewrite of_Z_le; lia).
  assert (Number.isFinite limit = true) as -> by (by rewrite (strict_eq_finite _ _ Heq)).
  assert (Number.gt limit Part000.MAX_ALLOWED_LIMIT = false) as ->
    by (unfold Number.gt, Part000.MAX_ALLOWED_LIMIT;
        rewrite (lt_compat_r _ _ _ Heq); apply not_true_is_false;
        rewrite of_Z_lt; lia).
  done.
Qed.

Lemma valid_limit_positive (limit : number) :
  valid_limit limit → Number.lt (Number.of_nat 0) limit = true.
Proof.
  intros (z & Heq & Hz). rewrite (lt_compat_r _ _ _ Heq). apply of_Z_lt. lia.
Qed.

(** For a valid limit, [within] bounds the length by the limit. *)
Lemma within_valid (limit : number) (results : list ResponseTransaction) :
  valid_limit limit → within limit results →
  Number.le (Number.of_nat (length results)) limit = true.
Proof.
  intros (z & Heq & Hz) Hw. rewrite (le_compat_r _ _ _ Heq).
  apply within_integral; [lia|].
  destruct Hw as [Hw|Hw]; [by left|right]. by rewrite <- (lt_compat_r _ _ _ Heq).
Qed.

End Loops.

(** * The anatomy of a round *)
Section Anatomy.
Context `{Runtime} {S : Type} `{TransactionStream S}.

Lemma fold_choose_elem (l : list Candidate) (acc : Candidate) :
  fold_left choose l acc ∈ acc :: l.
Proof.
  revert acc. induction l as [|x l IH]; intros acc; simpl; [left|].
  pose proof (IH (choose acc x)) as Hin.
  apply elem_of_cons in Hin as [Hin|Hin]; [|by right; right].
  rewrite Hin. destruct (choose_either acc x) as [-> | ->]; [left|right; left].
Qed.

Lemma reduce_pick_elem (avail : list Candidate) (w : Candidate) :
  reduce Part000.pick avail = Return w → w ∈ avail.
Proof.
  destruct avail as [|a l]; [done|]. intros Hw.
  apply reduce_from_pick_return in Hw as <-. apply fold_choose_elem.
Qed.

Lemma random_reduce_pick_elem (avail : list Candidate) (w : Candidate) :
  reduce Random.pick avail = Return w → w ∈ avail.
Proof.
  destruct avail as [|a l]; [done|]. rewrite random_reduce_pick.
  intros [= <-]. apply fold_choose_elem.
Qed.

Lemma elem_of_available (c : Candidate) (ss : list S) :
  c ∈ available (peeks ss)
  ↔ ∃ s, ss !! cand_streamIndex c = Some s ∧ (peek s).1 = Some (cand_transaction c).
Proof.
  unfold available, peeks. rewrite list_elem_of_omap. split.
  - intros (p & Hp & Hc). apply elem_of_lookup_imap in Hp as (i & s & -> & Hs).
    simpl in Hc. destruct (peek s).1 as [t|] eqn:Ht; simplify_eq/=. eauto.
  - intros (s & Hs & Ht). eexists. split.
    + apply elem_of_lookup_imap. eauto.
    + simpl. rewrite Ht. by destruct c.
Qed.

Lemma available_nil (ss : list S) :
  available (peeks ss) = [] ↔ Forall (λ s, (peek s).1 = None) ss.
Proof.
  split.
  - intros Hnil. apply Forall_lookup. intros i s Hs.
    destruct (peek s).1 as [t|] eqn:Ht; [|done].
    assert ({| cand_transaction := t; cand_streamIndex := i |}
            ∈ available (peeks ss)) as Hin by (apply elem_of_available; eauto).
    rewrite Hnil in Hin. by apply elem_of_nil in Hin.
  - intros Hall. destruct (available (peeks ss)) as [|c l] eqn:Ha; [done|].
    assert (c ∈ available (peeks ss)) as Hin by (rewrite Ha; left).
    apply elem_of_available in Hin as (s & Hs & Ht).
    eapply Forall_lookup_1 in Hall; [|done]. congruence.
Qed.

Lemma lookup_after_peeks (ss : list S) (i : nat) :
  after_peeks ss !! i = (λ s, (peek s).2) <$> ss !! i.
Proof. apply list_lookup_fmap. Qed.

Lemma consume_shape (pick : Candidate → Candidate → completion Candidate)
    (m : StreamMerger S) (w : Candidate) :
  reduce pick (available (peeks (streams m))) = Return w →
  w ∈ available (peeks (streams m)) →
  round_shape pick m (consume w (peeked m)).
Proof.
  intros Hw (s & Hs & Ht)%elem_of_available. unfold consume. simpl.
  rewrite lookup_after_peeks, Hs. simpl.
  destruct (next (peek s).2) as [r s'] eqn:Hn.
  destruct (produced r) as [v|] eqn:Hr.
  - replace (Appended v _) with (Appended v (advanced m (cand_streamIndex w) s)).
    + eapply shape_appended; eauto. by rewrite Hn.
    + unfold advanced. rewrite Hn. simpl. by rewrite <- app_assoc.
  - replace (Empty _) with (Empty (advanced m (cand_streamIndex w) s)).
    + eapply shape_empty; eauto. by rewrite Hn.
    + unfold advanced. rewrite Hn. simpl. by rewrite <- app_assoc.
Qed.

Lemma round_shape_000 (m : StreamMerger S) :
  round_shape Part000.pick m (Part000.round m).
Proof.
  unfold Part000.round.
  destruct (length _ =? 0) eqn:Hlen.
  { apply Nat.eqb_eq, length_zero_iff_nil in Hlen.
    by apply shape_exhausted, available_nil. }
  apply Nat.eqb_neq in Hlen.
  destruct (reduce Part000.pick _) as [w|e] eqn:Hw.
  - apply consume_shape; [done|]. by apply reduce_pick_elem.
  - apply shape_failed; [|done]. intros Hnil. by rewrite Hnil in Hlen.
Qed.

Lemma round_shape_random (m : StreamMerger S) :
  round_shape Random.pick m (Random.round m).
Proof.
  unfold Random.round.
  destruct (length _ =? 0) eqn:Hlen.
  { apply Nat.eqb_eq, length_zero_iff_nil in Hlen.
    by apply shape_exhausted, available_nil. }
  apply Nat.eqb_neq in Hlen.
  destruct (reduce Random.pick _) as [w|e] eqn:Hw.
  - apply consume_shape; [done|]. by apply random_reduce_pick_elem.
  - apply shape_failed; [|done]. intros Hnil. by rewrite Hnil in Hlen.
Qed.

(** A round of [random.ts] never fails. *)
Lemma random_round_not_failed (m m' : StreamMerger S) (e : Error) :
  Random.round m ≠ Failed e m'.
Proof.
  intros Hr. pose proof (round_shape_random m) as Hs. rewrite Hr in Hs.
  inversion Hs as [|e' Hne Hthrow| |]; subst.
  destruct (random_reduce_returns _ Hne) as (w & Hw). congruence.
Qed.

(** What a round adds to the log of calls. *)
Lemma round_shape_calls (pick : Candidate → Candidate → completion Candidate)
    (m : StreamMerger S) (r : round_result S) :
  round_shape pick m r →
  match r with
  | Exhausted m' | Failed _ m' =>
      ∃ new, calls m' = calls m ++ new ∧ yields new = [] ∧ next_calls new = []
  | Appended v m' =>
      ∃ new, calls m' = calls m ++ new ∧ yields new = [Some v]
  | Empty m' =>
      ∃ new, calls m' = calls m ++ new ∧ yields new = [None]
  end.
Proof.
  intros [Hall|e Hne He|w s v Hw Hs Ht Hv|w s Hw Hs Ht Hv]; simpl.
  - eexists. split; [done|]. by rewrite yields_peek_calls, next_calls_peek_calls.
  - eexists. split; [done|]. by rewrite yields_peek_calls, next_calls_peek_calls.
  - eexists. split; [done|]. rewrite yields_app, yields_peek_calls. simpl. by rewrite Hv.
  - eexists. split; [done|]. rewrite yields_app, yields_peek_calls. simpl. by rewrite Hv.
Qed.

End Anatomy.

(** * Fuel, termination and the stall guard *)
Section Termination.
Context `{Runtime} {S : Type} `{TransactionStream S}.

(** More fuel does not change a result. *)
Lemma loop_fuel_mono (fuel k : nat) (limit : number)
    (results : list ResponseTransaction) (c : nat) (m : StreamMerger S)
    (r : completion (list ResponseTransaction) * StreamMerger S) :
  Part000.loop fuel limit results c m = Some r →
  Part000.loop (fuel + k) limit results c m = Some r.
Proof.
  revert results c m. induction fuel as [|fuel IH]; intros results c m; [done|].
  rewrite Nat.add_succ_l, !loop_S.
  destruct (Number.lt _ _); [|done].
  destruct (Part000.round m); try done; [apply IH|].
  destruct (_ <=? _)%nat; [done|apply IH].
Qed.

(** After [n] passes the loop goes on from the state they leave. *)
Lemma loop_after_rounds (n fuel : nat) (limit : number)
    (results results' : list ResponseTransaction) (c c' : nat)
    (m m' : StreamMerger S) :
  Part000.after_rounds n limit results c m = Some (results', c', m') →
  Part000.loop (n + fuel) limit results c m = Part000.loop fuel limit results' c' m'.
Proof.
  revert results c m. induction n as [|n IH]; intros results c m.
  { by intros [= -> -> ->]. }
  rewrite Nat.add_succ_l, after_rounds_S, loop_S.
  destruct (Number.lt _ _); [|done].
  destruct (Part000.round m); try done; [apply IH|].
  destruct (_ <=? _)%nat; [done|apply IH].
Qed.

Lemma random_loop_after_rounds (n fuel : nat) (limit : number)
    (results results' : list ResponseTransaction) (m m' : StreamMerger S) :
  Random.after_rounds n limit results m = Some (results', m') →
  Random.loop (n + fuel) limit results m = Random.loop fuel limit results' m'.
Proof.
  revert results m. induction n as [|n IH]; intros results m.
  { by intros [= -> ->]. }
  rewrite Nat.add_succ_l, random_after_rounds_S, random_loop_S.
  destruct (Number.lt _ _); [|done].
  destruct (Random.round m); try done; apply IH.
Qed.

Lemma lt_room (q : Q) (n : nat) :
  Number.lt (Number.of_nat n) (Finite q) = true → n < room q.
Proof.
  unfold Number.lt, Number.of_nat, Number.of_Z, room. rewrite Qltb_spec. intros Hlt.
  assert (inject_Z (Z.of_nat n) < inject_Z (Qceiling q))%Q as Hc
    by (eapply Qlt_le_trans; [done|apply Qle_ceiling]).
  rewrite <- Zlt_Qlt in Hc. lia.
Qed.

(** The loop of [part_000] ends: every pass either collects an item or
    counts an empty round, and three of those in a row end it. *)
Lemma loop_terminates (q : Q) (fuel : nat) (results : list ResponseTransaction)
    (c : nat) (m : StreamMerger S) :
  c < 3 → 3 * (room q - length results) - c < fuel →
  ∃ r, Part000.loop fuel (Finite q) results c m = Some r.
Proof.
  revert results c m. induction fuel as [|fuel IH]; intros results c m Hc Hfuel; [lia|].
  rewrite loop_S. destruct (Number.lt _ _) eqn:Hlt; [|eauto].
  apply lt_room in Hlt.
  destruct (Part000.round m) as [m1|e m1|v m1|m1]; eauto.
  - apply IH; [lia|]. rewrite length_app. simpl. lia.
  - unfold Part000.MAX_EMPTY_PEEKS.
    destruct (3 <=? Datatypes.S c)%nat eqn:Hle; [eauto|].
    apply Nat.leb_gt in Hle. apply IH; lia.
Qed.

Lemma room_bound (q : Q) :
  Number.gt (Finite q) Part000.MAX_ALLOWED_LIMIT = false →
  (Z.of_nat (room q) ≤ 10000)%Z.
Proof.
  unfold Number.gt, Number.lt, Part000.MAX_ALLOWED_LIMIT, Number.of_Z, room.
  intros Hle%negb_false_iff%Qle_bool_iff.
  apply Qceiling_resp_le in Hle. rewrite Qceiling_Z in Hle. lia.
Qed.

(** [takeN] of [part_000] completes on every input: no accepted limit lets
    the loop make more than 30,000 passes. *)
Lemma takeN_terminates (limit : number) (m : StreamMerger S) :
  ∃ r, ∀ fuel, (30000 < Z.of_nat fuel)%Z → Part000.takeN fuel limit m = Some r.
Proof.
  unfold Part000.takeN.
  destruct (_ || _) eqn:Hinvalid; [eauto|].
  destruct (Number.gt limit _) eqn:Hgt; [eauto|].
  destruct limit as [| |q|]; try done.
  apply room_bound in Hgt.
  destruct (loop_terminates q (Z.to_nat 30001) [] 0 m) as [r Hr]; [lia|simpl; lia|].
  exists r. intros fuel Hfuel.
  replace fuel with (Z.to_nat 30001 + (fuel - Z.to_nat 30001)) by lia.
  by apply loop_fuel_mono.
Qed.

(** ** Three empty rounds in a row *)

Lemma three_replicate (c : nat) :
  c < 3 → ¬ three_empty_in_a_row (replicate c None).
Proof.
  intros Hc Hthree.
  destruct c as [|[|[|c]]]; [| | |lia]; simpl in Hthree;
    repeat match goal with
           | Hx : three_empty_in_a_row _ |- _ => inversion Hx; clear Hx; subst
           end.
Qed.

Lemma three_after_some (c : nat) (v : ResponseTransaction)
    (ys : list (option ResponseTransaction)) :
  c < 3 →
  three_empty_in_a_row (replicate c None ++ Some v :: ys) ↔ three_empty_in_a_row ys.
Proof.
  intros Hc. split.
  - destruct c as [|[|[|c]]]; [| | |lia]; simpl; intros Hthree;
      repeat match goal with
             | Hx : three_empty_in_a_row (_ :: _) |- _ => inversion Hx; clear Hx; subst
             end; done.
  - intros Hthree. induction c as [|c IH]; simpl.
    + by constructor.
    + constructor. apply IH. lia.
Qed.

Lemma replicate_snoc {A : Type} (c : nat) (x : A) (ys : list A) :
  replicate c x ++ x :: ys = replicate (Datatypes.S c) x ++ ys.
Proof. induction c as [|c IH]; simpl; [done|]. by rewrite IH. Qed.

(** The errors of the normalizer are not the stall error. *)
Lemma throw_not_stall (tx : ResponseTransaction) (e : Error) :
  Part000.getTransactionTimestamp tx = Throw e → e ≠ Part000.stall_error.
Proof.
  destruct tx as [p t|p t b|p raw|p [raw|]]; simpl.
  - done.
  - repeat case_match; done.
  - destruct (Number.isNaN _); [|done]. by intros [= <-].
  - destruct (Number.isNaN _); [|done]. by intros [= <-].
  - done.
Qed.

Lemma pick_throw_not_stall (best curr : Candidate) (e : Error) :
  Part000.pick best curr = Throw e → e ≠ Part000.stall_error.
Proof.
  unfold Part000.pick.
  destruct (Part000.getTransactionTimestamp (cand_transaction best)) eqn:Hb.
  2:{ intros [= <-]. by eapply throw_not_stall. }
  destruct (Part000.getTransactionTimestamp (cand_transaction curr)) eqn:Hc.
  2:{ intros [= <-]. by eapply throw_not_stall. }
  repeat case_match; done.
Qed.

Lemma reduce_throw_not_stall (avail : list Candidate) (e : Error) :
  reduce Part000.pick avail = Throw e → e ≠ Part000.stall_error.
Proof.
  destruct avail as [|a l]; [by intros [= <-]|]. simpl. revert a.
  induction l as [|x l IH]; intros a; simpl; [done|].
  destruct (Part000.pick a x) eqn:Hp; [apply IH|].
  intros [= <-]. by eapply pick_throw_not_stall.
Qed.

(** The loop of [part_000] throws the stall error exactly when three rounds
    in a row, counting the [c] empty rounds behind it, append nothing. *)
Lemma loop_stall (fuel : nat) (limit : number) (results : list ResponseTransaction)
    (c : nat) (m m' : StreamMerger S) (out : completion (list ResponseTransaction)) :
  c < 3 →
  Part000.loop fuel limit results c m = Some (out, m') →
  ∃ new, calls m' = calls m ++ new
         ∧ (three_empty_in_a_row (replicate c None ++ yields new)
            ↔ out = Throw Part000.stall_error).
Proof.
  revert results c m. induction fuel as [|fuel IH]; intros results c m Hc Hloop; [done|].
  rewrite loop_S in Hloop.
  assert (∀ res : list ResponseTransaction,
            three_empty_in_a_row (replicate c None ++ [])
            ↔ Return res = Throw Part000.stall_error) as Hquiet.
  { intros res. rewrite app_nil_r. split; [|done]. intros Ht. by apply three_replicate in Ht. }
  destruct (Number.lt _ _).
  2:{ simplify_eq. exists []. by rewrite app_nil_r. }
  pose proof (round_shape_calls _ _ _ (round_shape_000 m)) as Hcalls.
  pose proof (round_shape_000 m) as Hshape.
  destruct (Part000.round m) as [m1|e m1|v m1|m1].
  - simplify_eq. destruct Hcalls as (new & Hnew & Hy & _). exists new.
    split; [done|]. rewrite Hy. apply Hquiet.
  - simplify_eq. destruct Hcalls as (new & Hnew & Hy & _). exists new.
    split; [done|]. rewrite Hy, app_nil_r.
    split; [intros Ht; by apply three_replicate in Ht|].
    intros [= ->]. inversion Hshape; subst.
    by edestruct reduce_throw_not_stall.
  - destruct Hcalls as (new & Hnew & Hy).
    destruct (IH _ 0 _ ltac:(lia) Hloop) as (new' & Hnew' & Hiff).
    exists (new ++ new'). split; [by rewrite Hnew', Hnew, app_assoc|].
    rewrite yields_app, Hy. simpl. rewrite three_after_some by done.
    by rewrite <- Hiff.
  - destruct Hcalls as (new & Hnew & Hy).
    unfold Part000.MAX_EMPTY_PEEKS in Hloop.
    destruct (3 <=? Datatypes.S c)%nat eqn:Hle.
    + simplify_eq. exists new. split; [done|]. rewrite Hy. split; [done|]. intros _.
      apply Nat.leb_le in Hle. assert (c = 2) as -> by lia. simpl. constructor.
    + apply Nat.leb_gt in Hle.
      destruct (IH _ (Datatypes.S c) _ ltac:(lia) Hloop) as (new' & Hnew' & Hiff).
      exists (new ++ new'). split; [by rewrite Hnew', Hnew, app_assoc|].
      rewrite yields_app, Hy. simpl. by rewrite replicate_snoc.
Qed.

End Termination.

(** * [random.ts] against [part_000] *)
Section Simulation.
Context `{Runtime} {S : Type} `{TransactionStream S}.

(** Where [part_000] returns, [random.ts] returns the same, leaving the same
    merger. *)
Lemma loop_simulates (fuel : nat) (limit : number) (results : list ResponseTransaction)
    (c : nat) (m m' : StreamMerger S) (res : list ResponseTransaction) :
  Part000.loop fuel limit results c m = Some (Return res, m') →
  Random.loop fuel limit results m = Some (Return res, m').
Proof.
  revert results c m. induction fuel as [|fuel IH]; intros results c m; [done|].
  rewrite loop_S, random_loop_S. destruct (Number.lt _ _); [|done].
  destruct (Part000.round m) as [m1|e m1|v m1|m1] eqn:Hr; try done;
    rewrite round_not_failed_agrees by (intros ? ?; congruence); rewrite Hr; try done.
  - apply IH.
  - destruct (_ <=? _)%nat; [done|apply IH].
Qed.

Lemma takeN_simulates (fuel : nat) (limit : number) (m m' : StreamMerger S)
    (res : list ResponseTransaction) :
  Part000.takeN fuel limit m = Some (Return res, m') →
  Random.takeN fuel limit m = Some (Return res, m').
Proof. intros Ht%takeN_returns_loop. by eapply loop_simulates. Qed.

(** [random.ts] throws nothing. *)
Lemma random_loop_returns (fuel : nat) (limit : number)
    (results : list ResponseTransaction) (m m' : StreamMerger S)
    (out : completion (list ResponseTransaction)) :
  Random.loop fuel limit results m = Some (out, m') → ∃ res, out = Return res.
Proof.
  revert results m. induction fuel as [|fuel IH]; intros results m; [done|].
  rewrite random_loop_S. destruct (Number.lt _ _); [|intros [= <- _]; eauto].
  destruct (Random.round m) as [m1|e m1|v m1|m1] eqn:Hr.
  - intros [= <- _]; eauto.
  - by apply random_round_not_failed in Hr.
  - apply IH.
  - apply IH.
Qed.

End Simulation.

(** * Malformed timestamps *)
Section Malformed.
Context `{Runtime} {S : Type} `{TransactionStream S}.

Lemma returns_not_malformed (tx : ResponseTransaction) (k : number) (raw : string) :
  Part000.getTransactionTimestamp tx = Return k → ¬ malformed tx raw.
Proof.
  intros Hk Hm. destruct (malformed_throws _ _ Hm) as (e & He & _). congruence.
Qed.

(** Among two candidates or more, [reduce] meets every candidate until the
    normalizer throws: a malformed one makes it throw. *)
Lemma reduce_from_malformed (l : list Candidate) (acc c0 : Candidate) (raw0 : string) :
  l ≠ [] → c0 ∈ acc :: l → malformed (cand_transaction c0) raw0 →
  ∃ e c raw, reduce_from Part000.pick acc l = Throw e
             ∧ c ∈ acc :: l ∧ malformed (cand_transaction c) raw
             ∧ contains (message e) raw.
Proof.
  revert acc. induction l as [|x l IH]; intros acc Hne Hin Hm; [done|].
  simpl. unfold Part000.pick at 1.
  destruct (Part000.getTransactionTimestamp (cand_transaction acc)) as [kb|e] eqn:Hb.
  2:{ destruct (throws_malformed _ _ Hb) as (raw & Hraw & Hc).
      exists e, acc, raw. split_and!; [done|left|done|done]. }
  destruct (Part000.getTransactionTimestamp (cand_transaction x)) as [kc|e] eqn:Hc.
  2:{ destruct (throws_malformed _ _ Hc) as (raw & Hraw & Hcont).
      exists e, x, raw. split_and!; [done|right; left|done|done]. }
  apply elem_of_cons in Hin as [->|Hin]; [by eapply returns_not_malformed in Hm|].
  apply elem_of_cons in Hin as [->|Hin]; [by eapply returns_not_malformed in Hm|].
  assert (l ≠ []) as Hl by (intros ->; by apply elem_of_nil in Hin).
  set (acc' := if Number.gt kc kb then x
               else if Number.strict_eq kc kb
                    then (if cand_streamIndex x <? cand_streamIndex acc then x else acc)
                    else acc).
  assert (acc' = acc ∨ acc' = x) as Hacc'
    by (unfold acc'; repeat case_match; auto).
  assert (reduce_from Part000.pick acc' l
          = match (if Number.gt kc kb then Return x
                   else if Number.strict_eq kc kb
                        then Return (if cand_streamIndex x <? cand_streamIndex acc
                                     then x else acc)
                        else Return acc) with
            | Return a => reduce_from Part000.pick a l
            | Throw e => Throw e
            end) as <-
    by (unfold acc'; repeat case_match; done).
  destruct (IH acc' Hl ltac:(by right) Hm) as (e & c & raw & He & Hcin & Hcm & Hcont).
  exists e, c, raw. split_and!; try done.
  apply elem_of_cons in Hcin as [->|Hcin]; [|by right; right].
  destruct Hacc' as [-> | ->]; [left|right; left].
Qed.

(** A round with two candidates or more, one of them malformed, fails with
    an error that shows the raw value of a malformed candidate. *)
Lemma round_malformed (m : StreamMerger S) (c0 : Candidate) (raw0 : string) :
  2 ≤ length (available (peeks (streams m))) →
  c0 ∈ available (peeks (streams m)) → malformed (cand_transaction c0) raw0 →
  ∃ e c raw, Part000.round m = Failed e (peeked m)
             ∧ c ∈ available (peeks (streams m))
             ∧ malformed (cand_transaction c) raw
             ∧ contains (message e) raw.
Proof.
  unfold Part000.round. intros Hlen Hin Hm.
  destruct (available (peeks (streams m))) as [|a [|x l]]; simpl in Hlen; [lia|lia|].
  destruct (reduce_from_malformed (x :: l) a c0 raw0) as (e & c & raw & He & Hc);
    [done|done|done|].
  exists e, c, raw. split; [|done]. simpl length. simpl (_ =? _).
  unfold reduce. by rewrite He.
Qed.

End Malformed.

(** * Rounds on streams that follow the contract, whatever their items *)
Section ContractCount.
Context `{Runtime} {S : Type} `{TransactionStream S}.
Context (R : S → list ResponseTransaction → Prop) (HR : follows_contract R).

(** A round appends at most one item, taken from the items left. *)
Lemma round_shape_total (pick : Candidate → Candidate → completion Candidate)
    (m : StreamMerger S) (r : round_result S) (ls : list (list ResponseTransaction)) :
  round_shape pick m r → Forall2 R (streams m) ls →
  match r with
  | Exhausted m' | Failed _ m' => Forall2 R (streams m') ls
  | Appended _ m' =>
      ∃ ls', Forall2 R (streams m') ls' ∧ Datatypes.S (total ls') = total ls
  | Empty m' => ∃ ls', Forall2 R (streams m') ls' ∧ total ls' ≤ total ls
  end.
Proof.
  intros Hshape HF.
  assert (∀ w s, streams m !! cand_streamIndex w = Some s →
                 (peek s).1 = Some (cand_transaction w) →
                 ∃ l, ls !! cand_streamIndex w = Some (cand_transaction w :: l)) as Hhead.
  { intros w s Hs Ht.
    destruct (Forall2_lookup_l _ _ _ _ _ HF Hs) as (l & Hl & Hsl).
    destruct (peek_reports_head R HR s l Hsl) as [Hp _]. rewrite Ht in Hp.
    destruct l as [|x l]; simplify_eq/=. eauto. }
  assert (∀ w s l, streams m !! cand_streamIndex w = Some s →
            ls !! cand_streamIndex w = Some (cand_transaction w :: l) →
            let m' := advanced m (cand_streamIndex w) s in
            (produced (next (peek s).2).1 = Some (cand_transaction w)
             ∧ Forall2 R (streams m') (<[cand_streamIndex w := l]> ls))
            ∨ (produced (next (peek s).2).1 = None
               ∧ (Forall2 R (streams m') ls
                  ∨ Forall2 R (streams m') (<[cand_streamIndex w := l]> ls)))) as Hnext.
  { intros w s l Hs Hl. simpl.
    destruct (Forall2_lookup_l _ _ _ _ _ HF Hs) as (l0 & Hl0 & Hsl). simplify_eq.
    destruct (peek_reports_head R HR s _ Hsl) as [_ Hsl'].
    pose proof (after_peeks_contract R HR _ _ HF) as HF1.
    destruct (next_serves_head R HR _ _ _ Hsl') as [[Hr Hs']|[Hr Hs']]; [left|right];
      (split; [done|]).
    - by apply Forall2_insert.
    - destruct Hs' as [Hs'|Hs']; [left|right].
      + rewrite <- (list_insert_id ls (cand_streamIndex w) _ Hl).
        by apply Forall2_insert.
      + by apply Forall2_insert. }
  destruct Hshape as [Hall|e Hne He|w s v Hw Hs Ht Hv|w s Hw Hs Ht Hv].
  - by apply after_peeks_contract.
  - by apply after_peeks_contract.
  - destruct (Hhead w s Hs Ht) as (l & Hl).
    destruct (Hnext w s l Hs Hl) as [[_ HF']|[Hr _]]; [|congruence].
    eexists. split; [done|]. by eapply total_insert_tail.
  - destruct (Hhead w s Hs Ht) as (l & Hl).
    destruct (Hnext w s l Hs Hl) as [[Hr _]|[_ [HF'|HF']]]; [congruence| |].
    + eauto.
    + eexists. split; [done|]. apply total_insert_tail in Hl. lia.
Qed.

Lemma loop_total (fuel : nat) (limit : number) (results : list ResponseTransaction)
    (c : nat) (m m' : StreamMerger S) (ls : list (list ResponseTransaction))
    (res : list ResponseTransaction) :
  Forall2 R (streams m) ls →
  Part000.loop fuel limit results c m = Some (Return res, m') →
  length res ≤ length results + total ls.
Proof.
  revert results c m ls. induction fuel as [|fuel IH]; intros results c m ls HF; [done|].
  rewrite loop_S. destruct (Number.lt _ _); [|intros [= <- _]; lia].
  pose proof (round_shape_total _ _ _ ls (round_shape_000 m) HF) as Hr.
  destruct (Part000.round m) as [m1|e m1|v m1|m1]; try done.
  - intros [= <- _]; lia.
  - destruct Hr as (ls' & HF' & Ht). intros Hloop.
    apply (IH _ _ _ _ HF') in Hloop. rewrite length_app in Hloop. simpl in Hloop. lia.
  - destruct (_ <=? _)%nat; [done|]. destruct Hr as (ls' & HF' & Ht). intros Hloop.
    apply (IH _ _ _ _ HF') in Hloop. lia.
Qed.

Lemma random_loop_total (fuel : nat) (limit : number)
    (results : list ResponseTransaction)
    (m m' : StreamMerger S) (ls : list (list ResponseTransaction))
    (res : list ResponseTransaction) :
  Forall2 R (streams m) ls →
  Random.loop fuel limit results m = Some (Return res, m') →
  length res ≤ length results + total ls.
Proof.
  revert results m ls. induction fuel as [|fuel IH]; intros results m ls HF; [done|].
  rewrite random_loop_S. destruct (Number.lt _ _); [|intros [= <- _]; lia].
  pose proof (round_shape_total _ _ _ ls (round_shape_random m) HF) as Hr.
  destruct (Random.round m) as [m1|e m1|v m1|m1]; try done.
  - intros [= <- _]; lia.
  - destruct Hr as (ls' & HF' & Ht). intros Hloop.
    apply (IH _ _ _ HF') in Hloop. rewrite length_app in Hloop. simpl in Hloop. lia.
  - destruct Hr as (ls' & HF' & Ht). intros Hloop.
    apply (IH _ _ _ HF') in Hloop. lia.
Qed.

End ContractCount.

(** * Runs that return *)
Section Returning.
Context `{Runtime} {S : Type} `{TransactionStream S}.
Context (R : S → list ResponseTransaction → Prop) (HR : follows_contract R).
Context (Hserves : always_serves R).

(** On streams that always serve, no round is empty. *)
Lemma round_not_empty (pick : Candidate → Candidate → completion Candidate)
    (m m' : StreamMerger S) (ls : list (list ResponseTransaction)) :
  Forall2 R (streams m) ls → ¬ round_shape pick m (Empty m').
Proof.
  intros HF Hshape. inversion Hshape as [| | |w s Hw Hs Ht Hv]; subst.
  destruct (Forall2_lookup_l _ _ _ _ _ HF Hs) as (l & Hl & Hsl).
  destruct (peek_reports_head R HR s l Hsl) as [Hp Hsl']. rewrite Ht in Hp.
  destruct l as [|x l]; simplify_eq/=.
  rewrite (Hserves _ _ _ Hsl') in Hv. done.
Qed.

Lemma loop_returns_strict (fuel : nat) (limit : number)
    (results : list ResponseTransaction) (c : nat) (m m' : StreamMerger S)
    (ls : list (list ResponseTransaction))
    (out : completion (list ResponseTransaction)) :
  Forall2 R (streams m) ls → Forall (Forall keyed) ls →
  Part000.loop fuel limit results c m = Some (out, m') → ∃ res, out = Return res.
Proof.
  revert results c m ls. induction fuel as [|fuel IH]; intros results c m ls HF Hk; [done|].
  rewrite loop_S. destruct (Number.lt _ _); [|intros [= <- _]; eauto].
  pose proof (round_refines R HR m ls HF Hk) as Href.
  pose proof (round_shape_000 m) as Hshape.
  destruct (Part000.round m) as [m1|e m1|v m1|m1]; try done.
  - intros [= <- _]; eauto.
  - destruct Href as (i & ls1 & Hstep & HF1 & _).
    apply (IH _ _ _ ls1 HF1). by eapply merge_step_keyed.
  - by eapply round_not_empty in Hshape.
Qed.

(** On streams that always serve keyed items, [takeN] of both versions
    returns, for a valid limit, and returns the same. *)
Lemma takeN_returns_strict (limit : number) (m : StreamMerger S)
    (ls : list (list ResponseTransaction)) :
  Forall2 R (streams m) ls → Forall (Forall keyed) ls → valid_limit limit →
  ∃ res m', ∀ fuel, (30000 < Z.of_nat fuel)%Z →
    Part000.takeN fuel limit m = Some (Return res, m')
    ∧ Random.takeN fuel limit m = Some (Return res, m').
Proof.
  intros HF Hk Hvalid.
  destruct (takeN_terminates limit m) as [[out m'] Hr].
  pose proof (Hr (Z.to_nat 30001) ltac:(lia)) as Hone.
  rewrite valid_limit_accepted in Hone by done.
  destruct (loop_returns_strict _ _ _ _ _ _ _ _ HF Hk Hone) as [res ->].
  exists res, m'. intros fuel Hfuel. split; [by apply Hr|].
  by apply takeN_simulates, Hr.
Qed.

End Returning.

(** * The scripted streams follow the contract *)
Section Scripted.

Lemma scripted_contract :
  follows_contract (λ (s : scripted) (l : list ResponseTransaction), items s = l).
Proof.
  split.
  - intros s l <-. done.
  - intros [k its] x l Hl. simpl in Hl. subst its. simpl.
    destruct k as [|k]; simpl; auto.
Qed.

Lemma serving_related (ls : list (list ResponseTransaction)) :
  Forall2 (λ (s : scripted) l, items s = l) (serving <$> ls) ls.
Proof. induction ls; csimpl; by constructor. Qed.

End Scripted.

(** * Sorted lists, position by position *)
Section SortedLookup.

Lemma StronglySorted_lookup {A : Type} (Rel : A → A → Prop) (l : list A)
    (i j : nat) (x y : A) :
  StronglySorted Rel l → i < j → l !! i = Some x → l !! j = Some y → Rel x y.
Proof.
  intros Hs. revert i j. induction Hs as [|a l Hs IH Hall]; intros i j Hij Hi Hj; [done|].
  destruct j as [|j]; [lia|]. destruct i as [|i]; simpl in *.
  - simplify_eq. rewrite Forall_forall in Hall. apply Hall.
    by eapply list_elem_of_lookup_2.
  - eapply (IH i j); [lia|done|done].
Qed.

Lemma StronglySorted_fmap {A B : Type} (RA : A → A → Prop) (RB : B → B → Prop)
    (f : A → B) (l : list A) :
  (∀ x y, RA x y → RB (f x) (f y)) →
  StronglySorted RA l → StronglySorted RB (f <$> l).
Proof.
  intros Hf. induction 1 as [|a l Hs IH Hall]; csimpl; constructor; [done|].
  apply Forall_fmap. eapply Forall_impl; [done|]. intros y. apply Hf.
Qed.

End SortedLookup.

(** * The claims *)
Section Ordering.
Context `{Runtime} {S : Type} `{TransactionStream S}.

(** The output of either version on streams that follow the contract and
    emit keyed items in non-increasing order. *)
Lemma takeN_in_merge_order (R : S → list ResponseTransaction → Prop)
    (fuel : nat) (limit : number) (m m' : StreamMerger S)
    (ls : list (list ResponseTransaction)) (res : list ResponseTransaction) :
  follows_contract R →
  Forall2 R (streams m) ls → Forall (Forall keyed) ls → Forall non_increasing ls →
  Part000.takeN fuel limit m = Some (Return res, m')
  ∨ Random.takeN fuel limit m = Some (Return res, m') →
  ∃ out, provenance (calls m') = provenance (calls m) ++ out ∧ out.*2 = res
         ∧ StronglySorted merge_order out.
Proof.
  intros HR HF Hk Hs Htake.
  assert (∃ out ls', merge_run ls out ls' ∧ res = [] ++ out.*2
                     ∧ provenance (calls m') = provenance (calls m) ++ out
                     ∧ Forall2 R (streams m') ls') as (out & ls' & Hrun & Hres & Hp & _).
  { destruct Htake as [Ht|Ht].
    - apply takeN_returns_loop in Ht. by eapply loop_refines.
    - by eapply random_loop_refines. }
  exists out. split; [done|]. split; [done|]. by eapply merge_run_sorted.
Qed.

Lemma merge_order_descending (out : list (nat * ResponseTransaction)) :
  StronglySorted merge_order out → descending out.*2.
Proof. apply StronglySorted_fmap. intros x y. apply merge_order_ge. Qed.

(** C1: on streams that each emit their items in non-increasing MergeKey
    order, the sequence [takeN] returns is sorted by MergeKey descending;
    of two returned items of equal MergeKey the one produced by the
    lower-indexed stream comes first; and the winner of every round is the
    available candidate of highest MergeKey, the lowest stream index winning
    exact ties.  This holds for [takeN] of [part_000] and of [random.ts];
    on streams that never answer empty both return such a sequence, for
    every valid limit. *)
Theorem C1_output_in_merge_order (R : S → list ResponseTransaction → Prop)
    (limit : number) (m : StreamMerger S) (ls : list (list ResponseTransaction)) :
  follows_contract R →
  Forall2 R (streams m) ls → Forall (Forall keyed) ls → Forall non_increasing ls →
  (∀ fuel res m',
     Part000.takeN fuel limit m = Some (Return res, m')
     ∨ Random.takeN fuel limit m = Some (Return res, m') →
     descending res
     ∧ ∃ out, provenance (calls m') = provenance (calls m) ++ out ∧ out.*2 = res
              ∧ StronglySorted merge_order out
              ∧ ∀ i j p q, i < j → out !! i = Some p → out !! j = Some q →
                  Number.strict_eq (merge_key p.2) (merge_key q.2) = true → p.1 ≤ q.1)
  ∧ (∀ m0 : StreamMerger S,
       available (peeks (streams m0)) ≠ [] →
       Forall (λ c, keyed (cand_transaction c)) (available (peeks (streams m0))) →
       ∃ w, best_candidate w (available (peeks (streams m0)))
            ∧ Part000.round m0 = consume w (peeked m0)
            ∧ Random.round m0 = consume w (peeked m0))
  ∧ (always_serves R → valid_limit limit →
     ∃ res m', ∀ fuel, (30000 < Z.of_nat fuel)%Z →
       Part000.takeN fuel limit m = Some (Return res, m')
       ∧ Random.takeN fuel limit m = Some (Return res, m')).
Proof.
  intros HR HF Hk Hs. split_and!.
  - intros fuel res m' Htake.
    destruct (takeN_in_merge_order R fuel limit m m' ls res HR HF Hk Hs Htake)
      as (out & Hp & Hres & Hsorted).
    split.
    { rewrite <- Hres. by apply merge_order_descending. }
    exists out. split_and!; try done.
    intros i j p q Hij Hi Hj Heq.
    destruct (StronglySorted_lookup _ _ _ _ _ _ Hsorted Hij Hi Hj) as [Hgt|[_ Hle]];
      [|done].
    apply lt_not_eq in Hgt. rewrite strict_eq_sym in Hgt. congruence.
  - intros m0 Hne Hkeyed.
    destruct (reduce_pick_best _ Hne Hkeyed) as (w & Hw & Hbest).
    exists w. split; [done|].
    assert (Part000.round m0 = consume w (peeked m0)) as Hround.
    { unfold Part000.round. rewrite Hw.
      destruct (available (peeks (streams m0))); done. }
    split; [done|]. rewrite <- Hround. apply round_not_failed_agrees.
    intros e m1 He. rewrite Hround in He.
    pose proof (consume_shape Part000.pick m0 w Hw (proj1 Hbest)) as Hshape.
    rewrite He in Hshape. inversion Hshape; congruence.
  - intros Hserves Hvalid. by eapply takeN_returns_strict.
Qed.

End Ordering.

Lemma C1_witness :
  (fst <$> Part000.takeN (H:=test_runtime) 10 (Number.of_Z 4) tie_merger)
  = Some (Return tie_output)
  ∧ descending (H:=test_runtime) tie_output.
Proof.
  split; [by vm_compute|].
  refine (proj1 (proj1 (C1_output_in_merge_order (H:=test_runtime)
                          (λ s l, items s = l) (Number.of_Z 4) tie_merger
                          tie_lists scripted_contract _ _ _)
                   10 tie_output _ (or_introl _))).
  - apply serving_related.
  - repeat constructor.
  - repeat constructor.
  - by vm_compute.
Defined.

Section Limits.
Context `{Runtime} {S : Type} `{TransactionStream S}.

(** C5: for a valid limit, the list [takeN] returns is no longer than the
    limit and no longer than the number of items left in all streams.  This
    holds for [takeN] of [part_000] and of [random.ts].  [takeN] of
    [part_000] completes on every input, and on streams that never answer
    empty and whose items have MergeKeys both versions return a list. *)
Theorem C5_length_bounds (R : S → list ResponseTransaction → Prop)
    (limit : number) (m : StreamMerger S) (ls : list (list ResponseTransaction)) :
  follows_contract R → Forall2 R (streams m) ls → valid_limit limit →
  (∀ fuel res m',
     Part000.takeN fuel limit m = Some (Return res, m')
     ∨ Random.takeN fuel limit m = Some (Return res, m') →
     Number.le (Number.of_nat (length res)) limit = true
     ∧ length res ≤ total ls)
  ∧ (∃ r, ∀ fuel, (30000 < Z.of_nat fuel)%Z → Part000.takeN fuel limit m = Some r)
  ∧ (always_serves R → Forall (Forall keyed) ls →
     ∃ res m', ∀ fuel, (30000 < Z.of_nat fuel)%Z →
       Part000.takeN fuel limit m = Some (Return res, m')
       ∧ Random.takeN fuel limit m = Some (Return res, m')).
Proof.
  intros HR HF Hvalid. split_and!.
  - intros fuel res m' Htake.
    assert (within limit res
            ∧ length res ≤ length (@nil ResponseTransaction) + total ls) as [Hw Ht].
    { destruct Htake as [Ht|Ht].
      - apply takeN_returns_loop in Ht. split.
        + eapply loop_within; [|done]. by left.
        + by eapply loop_total.
      - split.
        + eapply random_loop_within; [|done]. by left.
        + by eapply random_loop_total. }
    split; [|done]. by apply within_valid.
  - apply takeN_terminates.
  - intros Hserves Hk. by eapply takeN_returns_strict.
Qed.

End Limits.

Lemma C5_witness :
  (fst <$> Part000.takeN (H:=test_runtime) 10 (Number.of_Z 3) tie_merger)
  = Some (Return [btc "A1" 100; btc "B1" 100; btc "B2" 90])
  ∧ Number.le (Number.of_nat 3) (Number.of_Z 3) = true ∧ 3 ≤ total tie_lists.
Proof.
  split; [by vm_compute|].
  refine (proj1 (C5_length_bounds (H:=test_runtime) (λ s l, items s = l)
                   (Number.of_Z 3) tie_merger tie_lists scripted_contract _ _)
            10 [btc "A1" 100; btc "B1" 100; btc "B2" 90] _ (or_introl _)).
  - apply serving_related.
  - exists 3%Z. split; [done|lia].
  - by vm_compute.
Defined.

Section Normalizers.
Context `{Runtime} {S : Type} `{TransactionStream S}.

(** C6: for a stacks transaction the normalizer returns the block time when
    it is a number above 0; otherwise the burn-chain block time when it is a
    number, whatever its sign; otherwise the sentinel, which is above every
    finite timestamp, so that in the merged output of streams in
    non-increasing order a stacks item without both fields stands before
    every item with a finite timestamp.  This holds for both versions. *)
Theorem C6_stacks_sentinel :
  (∀ p t b, Number.gt t 0%num = true →
     Part000.getTransactionTimestamp (stacks p (Some t) b) = Return t
     ∧ Random.getTransactionTimestamp (stacks p (Some t) b) = t)
  ∧ (∀ p bt u, unconfirmed bt →
       Part000.getTransactionTimestamp (stacks p bt (Some u)) = Return u
       ∧ Random.getTransactionTimestamp (stacks p bt (Some u)) = u)
  ∧ (∀ p bt, unconfirmed bt →
       Part000.getTransactionTimestamp (stacks p bt None) = Return POSITIVE_INFINITY
       ∧ Random.getTransactionTimestamp (stacks p bt None) = POSITIVE_INFINITY)
  ∧ (∀ q, Number.gt POSITIVE_INFINITY (Finite q) = true)
  ∧ (∀ (R : S → list ResponseTransaction → Prop) fuel limit (m m' : StreamMerger S)
       ls res,
       follows_contract R →
       Forall2 R (streams m) ls → Forall (Forall keyed) ls →
       Forall non_increasing ls →
       Part000.takeN fuel limit m = Some (Return res, m')
       ∨ Random.takeN fuel limit m = Some (Return res, m') →
       ∀ i j p bt a q,
         unconfirmed bt →
         res !! i = Some (stacks p bt None) → res !! j = Some a →
         merge_key a = Finite q → i < j).
Proof.
  split_and!.
  - intros p t b Ht.
    unfold Part000.getTransactionTimestamp, Random.getTransactionTimestamp.
    by rewrite Ht.
  - intros p [t|] u Hbt; [|done].
    unfold Part000.getTransactionTimestamp, Random.getTransactionTimestamp.
    by rewrite (Hbt t eq_refl).
  - intros p [t|] Hbt; [|done].
    unfold Part000.getTransactionTimestamp, Random.getTransactionTimestamp.
    by rewrite (Hbt t eq_refl).
  - apply infinity_above_finite.
  - intros R fuel limit m m' ls res HR HF Hk Hs Htake i j p bt a q Hbt Hi Hj Ha.
    assert (merge_key (stacks p bt None) = POSITIVE_INFINITY) as Hinf.
    { unfold merge_key, Part000.getTransactionTimestamp.
      destruct bt as [t|]; [|done]. by rewrite (Hbt t eq_refl). }
    destruct (takeN_in_merge_order R fuel limit m m' ls res HR HF Hk Hs Htake)
      as (out & _ & Hres & Hsorted).
    apply merge_order_descending in Hsorted. rewrite Hres in Hsorted.
    destruct (decide (i < j)) as [|Hge]; [done|]. exfalso.
    destruct (decide (i = j)) as [->|Hne].
    + rewrite Hi in Hj. simplify_eq. congruence.
    + pose proof (StronglySorted_lookup _ _ j i _ _ Hsorted ltac:(lia) Hj Hi) as Hord.
      cbv beta in Hord. rewrite Ha, Hinf in Hord.
      by rewrite finite_not_ge_infinity in Hord.
Qed.

(** C7: the normalizer returns, for a bitcoin transaction, its block time
    when present and 0 otherwise; for a starknet transaction whose timestamp
    parses to [ms] milliseconds, the floor of [ms / 1000]; for a spark
    transaction, 0 when [createdAt] is absent and the floor of [ms / 1000]
    when it parses to [ms] milliseconds.  This holds for both versions. *)
Theorem C7_timestamps :
  (∀ p t, Part000.getTransactionTimestamp (bitcoin p (Some t)) = Return t
          ∧ Random.getTransactionTimestamp (bitcoin p (Some t)) = t)
  ∧ (∀ p, Part000.getTransactionTimestamp (bitcoin p None) = Return (Number.of_Z 0)
          ∧ Random.getTransactionTimestamp (bitcoin p None) = Number.of_Z 0)
  ∧ (∀ p raw ms, Date_parse raw = Number.of_Z ms →
       Part000.getTransactionTimestamp (starknet p raw)
       = Return (Number.of_Z (ms / 1000))
       ∧ Random.getTransactionTimestamp (starknet p raw) = Number.of_Z (ms / 1000))
  ∧ (∀ p, Part000.getTransactionTimestamp (spark p None) = Return (Number.of_Z 0)
          ∧ Random.getTransactionTimestamp (spark p None) = Number.of_Z 0)
  ∧ (∀ p raw ms, Date_parse raw = Number.of_Z ms →
       Part000.getTransactionTimestamp (spark p (Some raw))
       = Return (Number.of_Z (ms / 1000))
       ∧ Random.getTransactionTimestamp (spark p (Some raw))
         = Number.of_Z (ms / 1000)).
Proof.
  split_and!; try done.
  - intros p raw ms Hms.
    unfold Part000.getTransactionTimestamp, Random.getTransactionTimestamp.
    cbv [getTime new_Date time_value]. rewrite Hms, floor_div_by_of_Z. done.
  - intros p raw ms Hms.
    unfold Part000.getTransactionTimestamp, Random.getTransactionTimestamp.
    cbv [getTime new_Date time_value nullish fmap option_fmap option_map].
    rewrite Hms, floor_div_by_of_Z. done.
Qed.

End Normalizers.

Lemma C6_witness :
  Part000.getTransactionTimestamp (H:=test_runtime)
    (stacks "pending" (Some (Number.of_Z 0)) (Some (Number.of_Z (-5))))
  = Return (Number.of_Z (-5)).
Proof.
  refine (proj1 (proj1 (proj2 (C6_stacks_sentinel (H:=test_runtime) (S:=scripted)))
                   "pending" (Some (Number.of_Z 0)) (Number.of_Z (-5)) _)).
  intros t [= <-]. done.
Defined.

Lemma C7_witness :
  Part000.getTransactionTimestamp (H:=test_runtime)
    (starknet "s" "1969-12-31T23:59:59.500Z") = Return (Number.of_Z (-1)).
Proof.
  refine (proj1 (proj1 (proj2 (proj2 (C7_timestamps (H:=test_runtime))))
                   "s" "1969-12-31T23:59:59.500Z" (-500)%Z _)).
  done.
Defined.

Section RoundsOfTakeN.
Context `{Runtime} {S : Type} `{TransactionStream S}.

Lemma round_exhausted (m : StreamMerger S) :
  Forall (λ s, (peek s).1 = None) (streams m) →
  Part000.round m = Exhausted (peeked m) ∧ Random.round m = Exhausted (peeked m).
Proof.
  intros Hnil%available_nil. unfold Part000.round, Random.round. by rewrite Hnil.
Qed.

(** C8: if in some round every stream's peek reports no item, [takeN] stops
    and returns the items collected so far, without an error; when that
    happens in the first round the result is the empty sequence.  The round is
    reached after [n] full passes; it runs because fewer than [limit] items
    are collected.  This holds for [takeN] of [part_000] and of
    [random.ts]. *)
Theorem C8_exhaustion_returns (limit : number) (m : StreamMerger S) :
  valid_limit limit →
  (∀ n fuel results c mn,
     Part000.after_rounds n limit [] 0 m = Some (results, c, mn) →
     Number.lt (Number.of_nat (length results)) limit = true →
     Forall (λ s, (peek s).1 = None) (streams mn) →
     Part000.takeN (n + Datatypes.S fuel) limit m = Some (Return results, peeked mn))
  ∧ (∀ n fuel results mn,
       Random.after_rounds n limit [] m = Some (results, mn) →
       Number.lt (Number.of_nat (length results)) limit = true →
       Forall (λ s, (peek s).1 = None) (streams mn) →
       Random.takeN (n + Datatypes.S fuel) limit m = Some (Return results, peeked mn))
  ∧ (Forall (λ s, (peek s).1 = None) (streams m) →
     ∀ fuel,
       Part000.takeN (Datatypes.S fuel) limit m = Some (Return [], peeked m)
       ∧ Random.takeN (Datatypes.S fuel) limit m = Some (Return [], peeked m)).
Proof.
  intros Hvalid.
  assert (∀ n fuel results c mn,
     Part000.after_rounds n limit [] 0 m = Some (results, c, mn) →
     Number.lt (Number.of_nat (length results)) limit = true →
     Forall (λ s, (peek s).1 = None) (streams mn) →
     Part000.takeN (n + Datatypes.S fuel) limit m = Some (Return results, peeked mn))
    as Hpart.
  { intros n fuel results c mn Hreach Hlt Hnone.
    rewrite valid_limit_accepted by done.
    rewrite (loop_after_rounds _ _ _ _ _ _ _ _ _ Hreach), loop_S, Hlt.
    by destruct (round_exhausted mn Hnone) as [-> _]. }
  assert (∀ n fuel results mn,
       Random.after_rounds n limit [] m = Some (results, mn) →
       Number.lt (Number.of_nat (length results)) limit = true →
       Forall (λ s, (peek s).1 = None) (streams mn) →
       Random.takeN (n + Datatypes.S fuel) limit m = Some (Return results, peeked mn))
    as Hrandom.
  { intros n fuel results mn Hreach Hlt Hnone. unfold Random.takeN.
    rewrite (random_loop_after_rounds _ _ _ _ _ _ _ Hreach), random_loop_S, Hlt.
    by destruct (round_exhausted mn Hnone) as [_ ->]. }
  split_and!; [done|done|].
  intros Hnone fuel. split.
  - apply (Hpart 0 fuel [] 0 m); [done|by apply valid_limit_positive|done].
  - apply (Hrandom 0 fuel [] m); [done|by apply valid_limit_positive|done].
Qed.

Lemma round_shape_frame (pick : Candidate → Candidate → completion Candidate)
    (m : StreamMerger S) (r : round_result S) :
  round_shape pick m r → round_frame pick m r.
Proof.
  intros Hshape.
  assert (∀ w s, streams m !! cand_streamIndex w = Some s →
            reduce pick (available (peeks (streams m))) = Return w →
            ∃ w0 s0 new,
              reduce pick (available (peeks (streams m))) = Return w0
              ∧ streams m !! cand_streamIndex w0 = Some s0
              ∧ calls (advanced m (cand_streamIndex w) s) = calls m ++ new
              ∧ new = peek_calls (streams m)
                      ++ [NextCall (cand_streamIndex w0) (next (peek s0).2).1]
              ∧ next_calls new = [cand_streamIndex w0]
              ∧ streams (advanced m (cand_streamIndex w) s) !! cand_streamIndex w0
                = Some (next (peek s0).2).2
              ∧ ∀ j, j ≠ cand_streamIndex w0 →
                  streams (advanced m (cand_streamIndex w) s) !! j
                  = (λ s', (peek s').2) <$> streams m !! j) as Hadv.
  { intros w s Hs Hw.
    exists w, s, (peek_calls (streams m)
                  ++ [NextCall (cand_streamIndex w) (next (peek s).2).1]).
    split_and!; try done.
    - by rewrite next_calls_app, next_calls_peek_calls.
    - simpl. apply list_lookup_insert_eq. unfold after_peeks. rewrite length_fmap.
      by eapply lookup_lt_Some.
    - intros j Hj. simpl. rewrite list_lookup_insert_ne by done.
      apply lookup_after_peeks. }
  destruct Hshape as [Hall|e Hne He|w s v Hw Hs Ht Hv|w s Hw Hs Ht Hv].
  - eexists. split_and!; try done. apply next_calls_peek_calls.
  - eexists. split_and!; try done. apply next_calls_peek_calls.
  - by apply Hadv.
  - by apply Hadv.
Qed.

Lemma round_shape_rule (pick : Candidate → Candidate → completion Candidate)
    (m : StreamMerger S) (r : round_result S) :
  round_shape pick m r → round_rule pick m r.
Proof.
  intros Hshape.
  assert (∀ w, reduce pick (available (peeks (streams m))) = Return w →
               available (peeks (streams m)) ≠ []) as Hsome
    by (intros w Hw Hnil; by rewrite Hnil in Hw).
  destruct Hshape as [Hall|e Hne He|w s v Hw Hs Ht Hv|w s Hw Hs Ht Hv];
    unfold round_rule; cbv zeta; split_and!.
  - done.
  - intros e Hne. by apply available_nil in Hall.
  - intros w Hne. by apply available_nil in Hall.
  - done.
  - intros e' _ He'. congruence.
  - intros w _ Hw. congruence.
  - intros Hnil. by destruct (Hsome w Hw).
  - intros e _ He. congruence.
  - intros w' _ Hw'. assert (w' = w) as -> by congruence.
    exists s. by rewrite Hv.
  - intros Hnil. by destruct (Hsome w Hw).
  - intros e _ He. congruence.
  - intros w' _ Hw'. assert (w' = w) as -> by congruence.
    exists s. by rewrite Hv.
Qed.

(** C9: in a round in which [reduce] returns a winner, [next] is called, once
    and on the winning stream, after one [peek] of every stream: the round
    appends what that call produced, or nothing; the winner's cursor is what
    its [next] leaves, every other stream is left as its [peek] left it.  A
    round that stops, because no stream shows an item or the callback throws,
    calls [next] on no stream.  This holds for the rounds of [part_000] and of
    [random.ts]. *)
Theorem C9_one_next_per_round (m : StreamMerger S) :
  (round_rule Part000.pick m (Part000.round m)
   ∧ round_frame Part000.pick m (Part000.round m))
  ∧ (round_rule Random.pick m (Random.round m)
     ∧ round_frame Random.pick m (Random.round m)).
Proof.
  split; split.
  - apply round_shape_rule, round_shape_000.
  - apply round_shape_frame, round_shape_000.
  - apply round_shape_rule, round_shape_random.
  - apply round_shape_frame, round_shape_random.
Qed.

End RoundsOfTakeN.

Lemma C8_witness :
  Part000.takeN (H:=test_runtime) 1 (Number.of_Z 5) drained_merger
  = Some (Return [], peeked drained_merger).
Proof.
  refine (proj1 (proj2 (proj2 (C8_exhaustion_returns (H:=test_runtime)
                                 (Number.of_Z 5) drained_merger _)) _ 0)).
  - exists 5%Z. split; [done|lia].
  - repeat constructor.
Defined.

(** The first round on [tie_merger]: the winner is the item of stream 0, and
    [next] is called on stream 0. *)
Lemma C9_witness :
  ∃ s, streams tie_merger !! 0 = Some s
       ∧ (peek s).1 = Some (btc "A1" 100)
       ∧ Part000.round (H:=test_runtime) tie_merger
         = match produced (next (peek s).2).1 with
           | Some v => Appended v (advanced tie_merger 0 s)
           | None => Empty (advanced tie_merger 0 s)
           end.
Proof.
  destruct (C9_one_next_per_round (H:=test_runtime) tie_merger)
    as [[(_ & _ & Hwinner) _] _].
  apply (Hwinner {| cand_transaction := btc "A1" 100; cand_streamIndex := 0 |}).
  - done.
  - by vm_compute.
Defined.

Section Guards.
Context `{Runtime} {S : Type} `{TransactionStream S}.

Lemma limit_errors_not_stall (x y : string) :
  mkError ("Invalid limit: " +:+ x) ≠ Part000.stall_error
  ∧ mkError ("Limit " +:+ y) ≠ Part000.stall_error.
Proof. split; intros [= Heq]. Qed.

(** [takeN] of [part_000] throws the stall error exactly when three
    consecutive rounds of the call appended nothing. *)
Lemma takeN_stall (fuel : nat) (limit : number) (m m' : StreamMerger S)
    (out : completion (list ResponseTransaction)) :
  Part000.takeN fuel limit m = Some (out, m') →
  ∃ new, calls m' = calls m ++ new
         ∧ (three_empty_in_a_row (yields new) ↔ out = Throw Part000.stall_error).
Proof.
  unfold Part000.takeN.
  assert (∀ e, e ≠ Part000.stall_error →
            Some (Throw e, m) = Some (out, m') →
            ∃ new, calls m' = calls m ++ new
                   ∧ (three_empty_in_a_row (yields new)
                      ↔ out = Throw Part000.stall_error)) as Hrefused.
  { intros e He [= <- <-]. exists []. split; [by rewrite app_nil_r|].
    change (yields []) with (@nil (option ResponseTransaction)).
    split; [intros Ht; inversion Ht|congruence]. }
  destruct (_ || _).
  { apply Hrefused, (limit_errors_not_stall _ ""). }
  destruct (Number.gt _ _).
  { apply Hrefused, (limit_errors_not_stall ""). }
  intros Hloop. apply (loop_stall fuel limit [] 0); [lia|done].
Qed.

(** A refused limit makes [takeN] of [part_000] throw at once. *)
Lemma takeN_refuses (fuel : nat) (limit : number) (m : StreamMerger S) :
  refused_limit limit →
  ∃ e, Part000.takeN fuel limit m = Some (Throw e, m)
       ∧ (e = mkError ("Invalid limit: " +:+ Number_toString limit
                       +:+ ". Must be a positive finite number.")
          ∨ e = mkError ("Limit " +:+ Number_toString limit
                         +:+ " exceeds maximum allowed limit of "
                         +:+ Number_toString Part000.MAX_ALLOWED_LIMIT)).
Proof.
  intros Hrefused. unfold Part000.takeN.
  destruct (_ || _) eqn:Hfirst; [eauto|].
  apply orb_false_iff in Hfirst as [Hle Hfin%negb_false_iff].
  destruct Hrefused as [Hr|[Hr|Hr]]; [congruence|congruence|].
  unfold Part000.MAX_ALLOWED_LIMIT. rewrite Hr. eauto.
Qed.

(** A round that fails ends [takeN] of [part_000] with the error. *)
Lemma takeN_round_fails (n fuel : nat) (limit : number) (m mn mf : StreamMerger S)
    (results : list ResponseTransaction) (c : nat) (e : Error) :
  valid_limit limit →
  Part000.after_rounds n limit [] 0 m = Some (results, c, mn) →
  Number.lt (Number.of_nat (length results)) limit = true →
  Part000.round mn = Failed e mf →
  Part000.takeN (n + Datatypes.S fuel) limit m = Some (Throw e, mf).
Proof.
  intros Hvalid Hreach Hlt Hfail. rewrite valid_limit_accepted by done.
  by rewrite (loop_after_rounds _ _ _ _ _ _ _ _ _ Hreach), loop_S, Hlt, Hfail.
Qed.

Lemma random_takeN_zero (fuel : nat) (limit : number) (m : StreamMerger S) :
  Number.lt (Number.of_nat 0) limit = false →
  Random.takeN (Datatypes.S fuel) limit m = Some (Return [], m).
Proof. intros Hlt. unfold Random.takeN. rewrite random_loop_S. simpl length. by rewrite Hlt. Qed.

End Guards.

(** On a stream that never serves its item [takeN] of [random.ts] does not
    end, whatever the fuel. *)
Lemma random_jammed (fuel : nat) (cs : list call) :
  Random.loop (H:=test_runtime) fuel (Number.of_Z 1) [] (jammed_merger cs) = None.
Proof.
  revert cs. induction fuel as [|fuel IH]; intros cs; [done|].
  rewrite random_loop_S.
  change (Number.lt (Number.of_nat (length (@nil ResponseTransaction)))
            (Number.of_Z 1)) with true.
  cbv iota.
  change (Random.round (H:=test_runtime) (jammed_merger cs))
    with (Empty (jammed_merger
                   ((cs ++ [PeekCall 0 (Some (btc "J1" 7))])
                    ++ [NextCall 0 {| done := false; value := None |}]))).
  apply IH.
Qed.

(** C2: in [part_000], three consecutive rounds that append nothing make
    the whole call throw the stall error, whatever was collected before, and
    no other run throws it: a successful append in between resets the
    count; the call ends on every input.  [random.ts] has no such guard: on
    [stalling_merger] its [takeN] goes through three empty rounds in a row
    and returns a result, and on [jammed_merger] it never ends. *)
Theorem C2_stall_guard :
  (∀ (rt : Runtime) (S : Type) (TS : TransactionStream S) fuel limit
     (m m' : StreamMerger S) out,
     Part000.takeN fuel limit m = Some (out, m') →
     ∃ new, calls m' = calls m ++ new
            ∧ (three_empty_in_a_row (yields new) ↔ out = Throw Part000.stall_error))
  ∧ (∀ (rt : Runtime) (S : Type) (TS : TransactionStream S) limit (m : StreamMerger S),
       ∃ r, ∀ fuel, (30000 < Z.of_nat fuel)%Z → Part000.takeN fuel limit m = Some r)
  ∧ (∃ m', Part000.takeN (H:=test_runtime) 20 (Number.of_Z 3) stalling_merger
           = Some (Throw Part000.stall_error, m')
           ∧ provenance (calls m') = [(0, btc "A1" 100)])
  ∧ (∃ m', Random.takeN (H:=test_runtime) 20 (Number.of_Z 3) stalling_merger
           = Some (Return [btc "A1" 100; btc "B1" 90], m')
           ∧ three_empty_in_a_row (yields (calls m')))
  ∧ (∃ m', Part000.takeN (H:=test_runtime) 3 (Number.of_Z 1) (jammed_merger [])
           = Some (Throw Part000.stall_error, m'))
  ∧ (∀ fuel, Random.takeN (H:=test_runtime) fuel (Number.of_Z 1) (jammed_merger [])
             = None).
Proof.
  split_and!.
  - intros rt S TS fuel limit m m' out. apply takeN_stall.
  - intros rt S TS limit m. apply takeN_terminates.
  - eexists. split; [by vm_compute|]. by vm_compute.
  - eexists. split; [by vm_compute|]. vm_compute. repeat constructor.
  - eexists. by vm_compute.
  - intros fuel. apply random_jammed.
Qed.

(** C3: in [part_000], constructing a merger from an absent or empty list
    throws, and [takeN] with a limit that is non-positive, non-finite or above
    10,000 throws an error that names the limit and leaves the merger as it
    was: no [peek] and no [next] is issued.  [random.ts] checks neither: its
    constructor takes the empty list, its [takeN] returns the empty sequence
    for a limit of 0, -1 or NaN and merges for a limit of 10,001. *)
Theorem C3_validation :
  (∀ (rt : Runtime) (S : Type) (TS : TransactionStream S),
     Part000.new_StreamMerger (S:=S) None
     = Throw (mkError "StreamMerger requires at least one stream")
     ∧ Part000.new_StreamMerger (S:=S) (Some [])
       = Throw (mkError "StreamMerger requires at least one stream")
     ∧ ∀ fuel limit (m : StreamMerger S),
         refused_limit limit →
         ∃ e, Part000.takeN fuel limit m = Some (Throw e, m)
              ∧ (e = mkError ("Invalid limit: " +:+ Number_toString limit
                              +:+ ". Must be a positive finite number.")
                 ∨ e = mkError ("Limit " +:+ Number_toString limit
                                +:+ " exceeds maximum allowed limit of "
                                +:+ Number_toString Part000.MAX_ALLOWED_LIMIT)))
  ∧ Random.new_StreamMerger (S:=scripted) [] = {| streams := []; calls := [] |}
  ∧ (∀ (rt : Runtime) (S : Type) (TS : TransactionStream S) fuel limit
       (m : StreamMerger S),
       limit = Number.of_Z 0 ∨ limit = Number.of_Z (-1) ∨ limit = NaN →
       Random.takeN (Datatypes.S fuel) limit m = Some (Return [], m))
  ∧ (∃ m', Random.takeN (H:=test_runtime) 10 (Number.of_Z 10001) tie_merger
           = Some (Return tie_output, m')
           ∧ next_calls (calls m') = [0; 1; 1; 0]).
Proof.
  split_and!.
  - intros rt S TS. split_and!; [done|done|]. intros fuel limit m. apply takeN_refuses.
  - done.
  - intros rt S TS fuel limit m [-> |[-> | ->]]; by apply random_takeN_zero.
  - eexists. split; by vm_compute.
Qed.

(** C4: in [part_000], the normalizer throws on a starknet transaction whose
    [blockTimestamp] does not parse and on a spark transaction whose
    [createdAt] does not parse, with a message that shows the raw value; a
    [takeN] call that reaches a round with two candidates or more, one of them
    such a transaction, throws such an error.  [random.ts] throws nothing: its
    normalizer answers NaN, and its [takeN] returns the unparsable item ahead
    of a dated one. *)
Theorem C4_malformed_timestamp :
  (∀ (rt : Runtime) tx raw,
     malformed tx raw →
     ∃ e, Part000.getTransactionTimestamp tx = Throw e ∧ contains (message e) raw)
  ∧ (∀ (rt : Runtime) (S : Type) (TS : TransactionStream S) n fuel limit
       (m mn : StreamMerger S) results c c0 raw0,
       valid_limit limit →
       Part000.after_rounds n limit [] 0 m = Some (results, c, mn) →
       Number.lt (Number.of_nat (length results)) limit = true →
       2 ≤ length (available (peeks (streams mn))) →
       c0 ∈ available (peeks (streams mn)) → malformed (cand_transaction c0) raw0 →
       ∃ e c1 raw,
         Part000.takeN (n + Datatypes.S fuel) limit m = Some (Throw e, peeked mn)
         ∧ c1 ∈ available (peeks (streams mn))
         ∧ malformed (cand_transaction c1) raw
         ∧ contains (message e) raw)
  ∧ Random.getTransactionTimestamp (H:=test_runtime) (starknet "S1" "garbage") = NaN
  ∧ (∃ m', Random.takeN (H:=test_runtime) 10 (Number.of_Z 2) garbled_merger
           = Some (Return [starknet "S1" "garbage"; btc "B1" 3], m')).
Proof.
  split_and!.
  - intros rt tx raw. apply malformed_throws.
  - intros rt S TS n fuel limit m mn results c c0 raw0 Hvalid Hreach Hlt Hlen Hin Hm.
    destruct (round_malformed mn c0 raw0 Hlen Hin Hm) as (e & c1 & raw & Hfail & Hrest).
    exists e, c1, raw. split; [|done]. by eapply takeN_round_fails.
  - done.
  - eexists. by vm_compute.
Qed.

(** C10: whenever [takeN] of [part_000] returns a sequence, [takeN] of
    [random.ts] returns the same sequence and leaves the same merger; but
    [random.ts] throws on no input, so the two do not raise errors on the same
    inputs: for a limit of 0 [part_000] throws and [random.ts] returns the
    empty sequence. *)
Theorem C10_versions_compared :
  (∀ (rt : Runtime) (S : Type) (TS : TransactionStream S) fuel limit
     (m m' : StreamMerger S) res,
     Part000.takeN fuel limit m = Some (Return res, m') →
     Random.takeN fuel limit m = Some (Return res, m'))
  ∧ (∀ (rt : Runtime) (S : Type) (TS : TransactionStream S) fuel limit
       (m m' : StreamMerger S) out,
       Random.takeN fuel limit m = Some (out, m') → ∃ res, out = Return res)
  ∧ (Part000.takeN (H:=test_runtime) 1 (Number.of_Z 0) tie_merger
     = Some (Throw (mkError "Invalid limit: 0. Must be a positive finite number."),
             tie_merger)
     ∧ Random.takeN (H:=test_runtime) 1 (Number.of_Z 0) tie_merger
       = Some (Return [], tie_merger)).
Proof.
  split_and!.
  - intros rt S TS fuel limit m m' res. apply takeN_simulates.
  - intros rt S TS fuel limit m m' out. apply random_loop_returns.
  - by vm_compute.
  - by vm_compute.
Qed.

(** The stall error of [part_000] on [stalling_merger] tells of three empty
    rounds in a row. *)
Lemma C2_witness :
  ∃ m', Part000.takeN (H:=test_runtime) 20 (Number.of_Z 3) stalling_merger
        = Some (Throw Part000.stall_error, m')
        ∧ ∃ new, calls m' = calls stalling_merger ++ new
                 ∧ three_empty_in_a_row (yields new).
Proof.
  destruct C2_stall_guard as (Hguard & _).
  destruct (Part000.takeN (H:=test_runtime) 20 (Number.of_Z 3) stalling_merger)
    as [[out m']|] eqn:Hrun; [|by vm_compute in Hrun].
  assert (out = Throw Part000.stall_error) as ->
    by (vm_compute in Hrun; by simplify_eq).
  exists m'. split; [done|].
  destruct (Hguard test_runtime _ _ _ _ _ _ _ Hrun) as (new & Hcalls & Hiff).
  exists new. split; [done|]. by apply Hiff.
Defined.

(** A limit of 10,001 is refused by [part_000] before any call on a stream. *)
Lemma C3_witness :
  ∃ e, Part000.takeN (H:=test_runtime) 5 (Number.of_Z 10001) tie_merger
       = Some (Throw e, tie_merger)
       ∧ (e = mkError ("Invalid limit: "
                       +:+ Number_toString (Runtime:=test_runtime) (Number.of_Z 10001)
                       +:+ ". Must be a positive finite number.")
          ∨ e = mkError ("Limit "
                         +:+ Number_toString (Runtime:=test_runtime) (Number.of_Z 10001)
                         +:+ " exceeds maximum allowed limit of "
                         +:+ Number_toString (Runtime:=test_runtime)
                               Part000.MAX_ALLOWED_LIMIT)).
Proof.
  destruct C3_validation as (Hpart & _).
  destruct (Hpart test_runtime scripted _) as (_ & _ & Hrefuse).
  apply Hrefuse. right; right. done.
Defined.

(** The first round of [part_000] on [garbled_merger] has two candidates,
    one of them malformed: the call throws. *)
Lemma C4_witness :
  ∃ e c1 raw,
    Part000.takeN (H:=test_runtime) (0 + 1) (Number.of_Z 2) garbled_merger
    = Some (Throw e, peeked garbled_merger)
    ∧ c1 ∈ available (peeks (streams garbled_merger))
    ∧ malformed (H:=test_runtime) (cand_transaction c1) raw
    ∧ contains (message e) raw.
Proof.
  destruct C4_malformed_timestamp as (_ & Htake & _).
  apply (Htake test_runtime scripted _ 0 0 (Number.of_Z 2) garbled_merger
           garbled_merger [] 0
           {| cand_transaction := starknet "S1" "garbage"; cand_streamIndex := 0 |}
           "garbage").
  - exists 2%Z. split; [done|lia].
  - done.
  - done.
  - vm_compute. lia.
  - vm_compute. left.
  - split; [left; by exists "S1"|done].
Defined.

(** Where [part_000] returns the merge of [tie_merger], so does [random.ts]. *)
Lemma C10_witness :
  fst <$> Random.takeN (H:=test_runtime) 10 (Number.of_Z 4) tie_merger
  = Some (Return tie_output).
Proof.
  destruct C10_versions_compared as (Hsim & _).
  destruct (Part000.takeN (H:=test_runtime) 10 (Number.of_Z 4) tie_merger)
    as [[out m']|] eqn:Hrun; [|by vm_compute in Hrun].
  assert (out = Return tie_output) as ->
    by (vm_compute in Hrun; by simplify_eq).
  by rewrite (Hsim test_runtime _ _ _ _ _ _ _ Hrun).
Defined.

(** * The scenarios of the specification *)

(** Stream A yields [t=100, t=50], stream B yields [t=90]: [takeN(3)] returns
    [A:100, B:90, A:50]. *)
Example scenario_interleaved :
  fst <$> Part000.takeN (H:=test_runtime) 10 (Number.of_Z 3) interleaved_merger
  = Some (Return [btc "A1" 100; btc "B1" 90; btc "A2" 50])
  ∧ fst <$> Random.takeN (H:=test_runtime) 10 (Number.of_Z 3) interleaved_merger
    = Some (Return [btc "A1" 100; btc "B1" 90; btc "A2" 50]).
Proof. split; by vm_compute. Qed.

(** Two streams with equal first timestamps: the item of index 0 wins. *)
Example scenario_tie :
  fst <$> Part000.takeN (H:=test_runtime) 10 (Number.of_Z 1) tie_merger
  = Some (Return [btc "A1" 100])
  ∧ fst <$> Random.takeN (H:=test_runtime) 10 (Number.of_Z 1) tie_merger
    = Some (Return [btc "A1" 100]).
Proof. split; by vm_compute. Qed.

(** A limit that is not an integer is accepted: [takeN(2.5)] returns three
    items. *)
Example fractional_limit :
  fst <$> Part000.takeN (H:=test_runtime) 10 (Finite (5 # 2)) tie_merger
  = Some (Return [btc "A1" 100; btc "B1" 100; btc "B2" 90]).
Proof. by vm_compute. Qed.

(** A lone candidate is never passed to the normalizer: [part_000] returns an
    item whose timestamp does not parse when no other stream has an item. *)
Example lone_malformed_candidate :
  fst <$> Part000.takeN (H:=test_runtime) 10 (Number.of_Z 1)
            {| streams := [serving [starknet "S1" "garbage"]]; calls := [] |}
  = Some (Return [starknet "S1" "garbage"]).
Proof. by vm_compute. Qed.

(** * Beyond the claims: calls, results and errors of one call *)
Section CallAccounting.
Context `{Runtime} {S : Type} `{TransactionStream S}.

Lemma peek_count_app (cs ds : list call) :
  peek_count (cs ++ ds) = peek_count cs + peek_count ds.
Proof. unfold peek_count. by rewrite omap_app, length_app. Qed.

Lemma peek_count_peek_calls (ss : list S) : peek_count (peek_calls ss) = length ss.
Proof.
  unfold peek_count, peek_calls.
  assert (∀ g : nat → S → call, (∀ i s, ∃ j a, g i s = PeekCall j a) →
            length (omap (λ c, match c with
                               | PeekCall i _ => Some i
                               | NextCall _ _ => None
                               end) (imap g ss)) = length ss) as Hgen.
  { induction ss as [|s ss IH]; intros g Hg; [done|].
    rewrite imap_cons. simpl. destruct (Hg 0 s) as (j & a & ->). simpl.
    f_equal. apply IH. intros i s'. apply Hg. }
  apply Hgen. eauto.
Qed.

Lemma length_after_peeks (ss : list S) : length (after_peeks ss) = length ss.
Proof. apply length_fmap. Qed.

(** What one round adds to the log and to the results, whatever the streams
    do. *)
Lemma round_shape_io (pick : Candidate → Candidate → completion Candidate)
    (m : StreamMerger S) (r : round_result S) :
  round_shape pick m r →
  ∃ new m',
    m' = match r with
         | Exhausted m1 | Failed _ m1 | Appended _ m1 | Empty m1 => m1
         end
    ∧ calls m' = calls m ++ new
    ∧ length (streams m') = length (streams m)
    ∧ peek_count new = length (streams m)
    ∧ length (next_calls new) = match r with
                                | Appended _ _ | Empty _ => 1
                                | _ => 0
                                end
    ∧ (provenance new).*2 = match r with
                            | Appended v _ => [v]
                            | _ => []
                            end.
Proof.
  intros [Hall|e Hne He|w s v Hw Hs Ht Hv|w s Hw Hs Ht Hv];
    eexists _, _; (split; [reflexivity|]); (split; [reflexivity|]); simpl.
  - rewrite length_after_peeks, peek_count_peek_calls,
      next_calls_peek_calls, provenance_peek_calls. done.
  - rewrite length_after_peeks, peek_count_peek_calls,
      next_calls_peek_calls, provenance_peek_calls. done.
  - rewrite length_insert, length_after_peeks, peek_count_app, peek_count_peek_calls,
      next_calls_app, next_calls_peek_calls, provenance_app, provenance_peek_calls.
    simpl. rewrite Hv. split_and!; try done; unfold peek_count; simpl; lia.
  - rewrite length_insert, length_after_peeks, peek_count_app, peek_count_peek_calls,
      next_calls_app, next_calls_peek_calls, provenance_app, provenance_peek_calls.
    simpl. rewrite Hv. split_and!; try done; unfold peek_count; simpl; lia.
Qed.

(** The calls of a run of the loop of [part_000]: at most one [next] for
    each unit of the measure that makes the loop end, and one [peek] of every
    stream for each round. *)
Lemma loop_calls (q : Q) (fuel : nat) (results : list ResponseTransaction) (c : nat)
    (m m' : StreamMerger S) (out : completion (list ResponseTransaction)) :
  c < 3 →
  Part000.loop fuel (Finite q) results c m = Some (out, m') →
  ∃ new, calls m' = calls m ++ new
         ∧ length (streams m') = length (streams m)
         ∧ length (next_calls new) ≤ 3 * (room q - length results) - c
         ∧ peek_count new ≤ (length (next_calls new) + 1) * length (streams m).
Proof.
  revert results c m. induction fuel as [|fuel IH]; intros results c m Hc Hloop; [done|].
  rewrite loop_S in Hloop.
  destruct (Number.lt _ _) eqn:Hlt.
  2:{ simplify_eq. exists []. rewrite app_nil_r.
      split_and!; try done; change (peek_count []) with 0; simpl; lia. }
  apply lt_room in Hlt.
  destruct (round_shape_io _ _ _ (round_shape_000 m))
    as (new & m1 & Hm1 & Hcalls & Hlen & Hpeeks & Hnext & _).
  destruct (Part000.round m) as [m0|e m0|v m0|m0]; subst m1.
  - simplify_eq. exists new. split_and!; try done; lia.
  - simplify_eq. exists new. split_and!; try done; lia.
  - destruct (IH _ 0 _ ltac:(lia) Hloop) as (new' & Hcalls' & Hlen' & Hnext' & Hpeeks').
    exists (new ++ new'). rewrite next_calls_app, peek_count_app, !length_app.
    rewrite length_app in Hnext'. simpl in Hnext'. rewrite Hlen in *.
    split_and!; [by rewrite Hcalls', Hcalls, app_assoc|congruence|lia|nia].
  - unfold Part000.MAX_EMPTY_PEEKS in Hloop.
    destruct (3 <=? Datatypes.S c)%nat eqn:Hle.
    + simplify_eq. exists new. split_and!; try done; lia.
    + apply Nat.leb_gt in Hle.
      destruct (IH _ (Datatypes.S c) _ ltac:(lia) Hloop)
        as (new' & Hcalls' & Hlen' & Hnext' & Hpeeks').
      exists (new ++ new'). rewrite next_calls_app, peek_count_app, !length_app.
      rewrite Hlen in *.
      split_and!; [by rewrite Hcalls', Hcalls, app_assoc|congruence|lia|nia].
Qed.

Lemma room_of_valid (q : Q) (z : Z) :
  Number.strict_eq (Finite q) (Number.of_Z z) = true → (0 ≤ z)%Z →
  Z.of_nat (room q) = z.
Proof.
  unfold Number.strict_eq, Number.of_Z, room. intros Heq%Qeq_bool_iff Hz.
  rewrite (Qceiling_comp _ _ Heq), Qceiling_Z. lia.
Qed.

(** The results of a run are the values that the calls of [next] yielded, in
    the order of the calls. *)
Lemma loop_results (fuel : nat) (limit : number) (results : list ResponseTransaction)
    (c : nat) (m m' : StreamMerger S) (res : list ResponseTransaction) :
  Part000.loop fuel limit results c m = Some (Return res, m') →
  ∃ new, calls m' = calls m ++ new ∧ res = results ++ (provenance new).*2.
Proof.
  revert results c m. induction fuel as [|fuel IH]; intros results c m Hloop; [done|].
  rewrite loop_S in Hloop.
  destruct (Number.lt _ _).
  2:{ simplify_eq. exists []. by rewrite !app_nil_r. }
  destruct (round_shape_io _ _ _ (round_shape_000 m))
    as (new & m1 & Hm1 & Hcalls & _ & _ & _ & Hprov).
  destruct (Part000.round m) as [m0|e m0|v m0|m0]; subst m1; try done.
  - simplify_eq. exists new. rewrite Hprov. by rewrite app_nil_r.
  - destruct (IH _ _ _ Hloop) as (new' & Hcalls' & ->).
    exists (new ++ new').
    split; [by rewrite Hcalls', Hcalls, app_assoc|].
    rewrite provenance_app, fmap_app, Hprov. by rewrite <- ?app_assoc.
  - destruct (_ <=? _)%nat; [done|].
    destruct (IH _ _ _ Hloop) as (new' & Hcalls' & ->).
    exists (new ++ new').
    split; [by rewrite Hcalls', Hcalls, app_assoc|].
    rewrite provenance_app, fmap_app, Hprov. by rewrite <- ?app_assoc.
Qed.

Lemma random_loop_results (fuel : nat) (limit : number)
    (results : list ResponseTransaction)
    (m m' : StreamMerger S) (res : list ResponseTransaction) :
  Random.loop fuel limit results m = Some (Return res, m') →
  ∃ new, calls m' = calls m ++ new ∧ res = results ++ (provenance new).*2.
Proof.
  revert results m. induction fuel as [|fuel IH]; intros results m Hloop; [done|].
  rewrite random_loop_S in Hloop.
  destruct (Number.lt _ _).
  2:{ simplify_eq. exists []. by rewrite !app_nil_r. }
  destruct (round_shape_io _ _ _ (round_shape_random m))
    as (new & m1 & Hm1 & Hcalls & _ & _ & _ & Hprov).
  destruct (Random.round m) as [m0|e m0|v m0|m0]; subst m1; try done.
  - simplify_eq. exists new. rewrite Hprov. by rewrite app_nil_r.
  - destruct (IH _ _ Hloop) as (new' & Hcalls' & ->).
    exists (new ++ new').
    split; [by rewrite Hcalls', Hcalls, app_assoc|].
    rewrite provenance_app, fmap_app, Hprov. by rewrite <- ?app_assoc.
  - destruct (IH _ _ Hloop) as (new' & Hcalls' & ->).
    exists (new ++ new').
    split; [by rewrite Hcalls', Hcalls, app_assoc|].
    rewrite provenance_app, fmap_app, Hprov. by rewrite <- ?app_assoc.
Qed.

(** X1: for any limit and any streams, a call of [takeN] of [part_000] calls
    [next] at most three times for each item the limit allows, 30,000 times at
    most, and [peek] once on every stream in each round: the rounds are those
    that called [next], and at most one more.  The number of streams does not
    change. *)
Theorem takeN_call_budget (fuel : nat) (limit : number) (m m' : StreamMerger S)
    (out : completion (list ResponseTransaction)) :
  Part000.takeN fuel limit m = Some (out, m') →
  ∃ new, calls m' = calls m ++ new
         ∧ length (streams m') = length (streams m)
         ∧ (Z.of_nat (length (next_calls new)) ≤ 30000)%Z
         ∧ (∀ q, limit = Finite q → length (next_calls new) ≤ 3 * room q)
         ∧ peek_count new ≤ (length (next_calls new) + 1) * length (streams m).
Proof.
  unfold Part000.takeN.
  destruct (_ || _) eqn:Hinvalid.
  { intros [= <- <-]. exists []. rewrite app_nil_r.
    split_and!; try done; change (peek_count []) with 0; simpl; lia. }
  destruct (Number.gt _ _) eqn:Hgt.
  { intros [= <- <-]. exists []. rewrite app_nil_r.
    split_and!; try done; change (peek_count []) with 0; simpl; lia. }
  destruct limit as [| |q|]; try done.
  intros Hloop. apply room_bound in Hgt.
  destruct (loop_calls q fuel [] 0 m m' out ltac:(lia) Hloop)
    as (new & Hcalls & Hlen & Hnext & Hpeeks).
  exists new. simpl in Hnext.
  split_and!; try done; [lia|]. intros q' [= <-]. lia.
Qed.

(** X2: whatever the streams do, the sequence [takeN] returns holds the values
    that its calls of [next] produced, all of them and in the order of the
    calls; nothing a [peek] showed enters it.  This holds for both versions. *)
Theorem takeN_returns_next_values (fuel : nat) (limit : number)
    (m m' : StreamMerger S) (res : list ResponseTransaction) :
  Part000.takeN fuel limit m = Some (Return res, m')
  ∨ Random.takeN fuel limit m = Some (Return res, m') →
  ∃ new, calls m' = calls m ++ new ∧ res = (provenance new).*2.
Proof.
  intros [Ht%takeN_returns_loop|Ht].
  - by apply loop_results in Ht.
  - by apply random_loop_results in Ht.
Qed.

End CallAccounting.

Lemma takeN_call_budget_witness :
  ∃ m', Part000.takeN (H:=test_runtime) 20 (Number.of_Z 3) stalling_merger
        = Some (Throw Part000.stall_error, m')
        ∧ ∃ new, calls m' = calls stalling_merger ++ new
                 ∧ length (streams m') = length (streams stalling_merger)
                 ∧ (Z.of_nat (length (next_calls new)) ≤ 30000)%Z
                 ∧ (∀ q, Number.of_Z 3 = Finite q → length (next_calls new) ≤ 3 * room q)
                 ∧ peek_count new
                   ≤ (length (next_calls new) + 1) * length (streams stalling_merger).
Proof.
  destruct (Part000.takeN (H:=test_runtime) 20 (Number.of_Z 3) stalling_merger)
    as [[out m']|] eqn:Hrun; [|by vm_compute in Hrun].
  assert (out = Throw Part000.stall_error) as ->
    by (vm_compute in Hrun; by simplify_eq).
  exists m'. split; [done|].
  exact (takeN_call_budget (H:=test_runtime) 20 (Number.of_Z 3) stalling_merger m'
           (Throw Part000.stall_error) Hrun).
Defined.

Lemma takeN_returns_next_values_witness :
  ∃ m', Random.takeN (H:=test_runtime) 20 (Number.of_Z 3) stalling_merger
        = Some (Return [btc "A1" 100; btc "B1" 90], m')
        ∧ ∃ new, calls m' = calls stalling_merger ++ new
                 ∧ [btc "A1" 100; btc "B1" 90] = (provenance new).*2.
Proof.
  destruct (Random.takeN (H:=test_runtime) 20 (Number.of_Z 3) stalling_merger)
    as [[out m']|] eqn:Hrun; [|by vm_compute in Hrun].
  assert (out = Return [btc "A1" 100; btc "B1" 90]) as ->
    by (vm_compute in Hrun; by simplify_eq).
  exists m'. split; [done|].
  exact (takeN_returns_next_values (H:=test_runtime) 20 (Number.of_Z 3)
           stalling_merger m' _ (or_intror Hrun)).
Defined.

(** * Beyond the claims: the errors of one call *)
Section ErrorKinds.
Context `{Runtime} {S : Type} `{TransactionStream S}.

Lemma pick_either (best curr w : Candidate) :
  Part000.pick best curr = Return w → w = best ∨ w = curr.
Proof.
  intros ->%pick_return. apply choose_either.
Qed.

(** An error of the callback is an error of the normalizer on one of its two
    arguments. *)
Lemma pick_throws (best curr : Candidate) (e : Error) :
  Part000.pick best curr = Throw e →
  Part000.getTransactionTimestamp (cand_transaction best) = Throw e
  ∨ Part000.getTransactionTimestamp (cand_transaction curr) = Throw e.
Proof.
  unfold Part000.pick.
  destruct (Part000.getTransactionTimestamp (cand_transaction best)) eqn:Hb.
  2:{ intros [= <-]. by left. }
  destruct (Part000.getTransactionTimestamp (cand_transaction curr)) eqn:Hc.
  2:{ intros [= <-]. by right. }
  repeat case_match; done.
Qed.

Lemma reduce_from_throws (l : list Candidate) (acc : Candidate) (e : Error) :
  reduce_from Part000.pick acc l = Throw e →
  l ≠ []
  ∧ ∃ c, c ∈ acc :: l
         ∧ Part000.getTransactionTimestamp (cand_transaction c) = Throw e.
Proof.
  revert acc. induction l as [|x l IH]; intros acc; simpl; [done|].
  destruct (Part000.pick acc x) as [acc'|e'] eqn:Hp.
  - intros (_ & c & Hc & He)%IH. split; [done|]. exists c. split; [|done].
    apply elem_of_cons in Hc as [->|Hc]; [|by right; right].
    destruct (pick_either _ _ _ Hp) as [-> | ->]; [left|right; left].
  - intros [= <-]. split; [done|].
    destruct (pick_throws _ _ _ Hp) as [He|He]; eexists; (split; [|exact He]).
    + left.
    + right; left.
Qed.

(** [reduce] throws only on two candidates or more, and then an error of the
    normalizer on one of them. *)
Lemma reduce_throws (avail : list Candidate) (e : Error) :
  avail ≠ [] → reduce Part000.pick avail = Throw e →
  2 ≤ length avail
  ∧ ∃ c, c ∈ avail ∧ Part000.getTransactionTimestamp (cand_transaction c) = Throw e.
Proof.
  destruct avail as [|a l]; [done|]. intros _ Hthrow. simpl in Hthrow.
  apply reduce_from_throws in Hthrow as [Hne Hc]. split; [|done].
  destruct l; [done|]. simpl. lia.
Qed.

Lemma loop_error (fuel : nat) (limit : number) (results : list ResponseTransaction)
    (c : nat) (m m' : StreamMerger S) (e : Error) :
  Part000.loop fuel limit results c m = Some (Throw e, m') → takeN_error limit m' e.
Proof.
  revert results c m. induction fuel as [|fuel IH]; intros results c m; [done|].
  rewrite loop_S. destruct (Number.lt _ _); [|done].
  pose proof (round_shape_000 m) as Hshape.
  destruct (Part000.round m) as [m1|e1 m1|v m1|m1]; try done.
  - intros [= <- <-]. inversion Hshape as [|e' Hne He| |]; subst.
    destruct (reduce_throws _ _ Hne He) as (Hlen & c0 & Hin & Hthrow).
    do 3 right. by exists m, c0.
  - apply IH.
  - destruct (_ <=? _)%nat; [|apply IH]. intros [= <- <-]. right; right; by left.
Qed.

(** X3: on streams whose [peek] and [next] answer (a call that rejects is
    not modelled), an error that [takeN] of [part_000] throws is one of the two
    errors of the limit checks, the stall error, or an error that the
    normalizer threw on a candidate of the round the call stopped in, a round
    of two candidates or more that ended after its peeks.  The loop itself
    throws nothing else: it reads no stream that is not there and reduces no
    empty array. *)
Theorem takeN_throws_known_errors (fuel : nat) (limit : number)
    (m m' : StreamMerger S) (e : Error) :
  Part000.takeN fuel limit m = Some (Throw e, m') → takeN_error limit m' e.
Proof.
  unfold Part000.takeN.
  destruct (_ || _); [intros [= <- <-]; by left|].
  destruct (Number.gt _ _); [intros [= <- <-]; right; by left|].
  apply loop_error.
Qed.

End ErrorKinds.

Lemma takeN_throws_known_errors_witness :
  takeN_error (H:=test_runtime) (Number.of_Z 2) (peeked garbled_merger)
    (mkError "Invalid blockTimestamp for starknet transaction: garbage").
Proof.
  apply (takeN_throws_known_errors (H:=test_runtime) 1 (Number.of_Z 2)
           garbled_merger (peeked garbled_merger)).
  by vm_compute.
Defined.

(** * Beyond the claims: pages *)
Section Pages.
Context `{Runtime} {S : Type} `{TransactionStream S}.

Lemma of_nat_lt (n k : nat) :
  Number.lt (Number.of_nat n) (Number.of_nat k) = (n <? k)%nat.
Proof.
  unfold Number.of_nat. destruct (n <? k)%nat eqn:E.
  - apply of_Z_lt. apply Nat.ltb_lt in E. lia.
  - apply not_true_is_false. rewrite of_Z_lt. apply Nat.ltb_ge in E. lia.
Qed.

Lemma valid_of_nat (n : nat) :
  0 < n → (Z.of_nat n ≤ 10000)%Z → valid_limit (Number.of_nat n).
Proof.
  intros Hn Hmax. exists (Z.of_nat n). split; [|lia].
  unfold Number.of_nat. by apply strict_eq_refl.
Qed.

Lemma random_loop_fuel_mono (fuel k : nat) (limit : number)
    (results : list ResponseTransaction) (m : StreamMerger S)
    (r : completion (list ResponseTransaction) * StreamMerger S) :
  Random.loop fuel limit results m = Some r →
  Random.loop (fuel + k) limit results m = Some r.
Proof.
  revert results m. induction fuel as [|fuel IH]; intros results m; [done|].
  rewrite Nat.add_succ_l, !random_loop_S.
  destruct (Number.lt _ _); [|done].
  destruct (Random.round m); try done; apply IH.
Qed.

(** With [pre] collected beforehand, the loop for [length pre + b] items does
    what the loop for [b] items does from no item. *)
Lemma loop_shift (fuel a b : nat) (pre results : list ResponseTransaction) (c : nat)
    (m : StreamMerger S) :
  length pre = a →
  Part000.loop fuel (Number.of_nat (a + b)) (pre ++ results) c m
  = (λ r, (prepend pre r.1, r.2)) <$> Part000.loop fuel (Number.of_nat b) results c m.
Proof.
  intros Ha. revert results c m.
  induction fuel as [|fuel IH]; intros results c m; [done|].
  rewrite !loop_S, !of_nat_lt, length_app, Ha.
  assert ((a + length results <? a + b) = (length results <? b)) as ->
    by (apply eq_true_iff_eq; rewrite !Nat.ltb_lt; lia).
  destruct (_ <? _); [|done].
  destruct (Part000.round m) as [m1|e m1|v m1|m1]; try done.
  - rewrite <- app_assoc. apply IH.
  - destruct (_ <=? _)%nat; [done|apply IH].
Qed.

Lemma random_loop_shift (fuel a b : nat) (pre results : list ResponseTransaction)
    (m : StreamMerger S) :
  length pre = a →
  Random.loop fuel (Number.of_nat (a + b)) (pre ++ results) m
  = (λ r, (prepend pre r.1, r.2)) <$> Random.loop fuel (Number.of_nat b) results m.
Proof.
  intros Ha. revert results m.
  induction fuel as [|fuel IH]; intros results m; [done|].
  rewrite !random_loop_S, !of_nat_lt, length_app, Ha.
  assert ((a + length results <? a + b) = (length results <? b)) as ->
    by (apply eq_true_iff_eq; rewrite !Nat.ltb_lt; lia).
  destruct (_ <? _); [|done].
  destruct (Random.round m) as [m1|e m1|v m1|m1]; try done.
  rewrite <- app_assoc. apply IH.
Qed.

(** The loop for [a + b] items goes through the rounds of the loop for [a]
    items that fills its page, and goes on from where that one stops. *)
Lemma loop_extend (fuel fuel2 a b : nat) (results res1 : list ResponseTransaction)
    (c : nat) (m m1 : StreamMerger S)
    (r : completion (list ResponseTransaction) * StreamMerger S) :
  Part000.loop fuel (Number.of_nat a) results c m = Some (Return res1, m1) →
  length res1 = a → length results < a ∨ c = 0 →
  Part000.loop fuel2 (Number.of_nat (a + b)) res1 0 m1 = Some r →
  Part000.loop (fuel + fuel2) (Number.of_nat (a + b)) results c m = Some r.
Proof.
  intros Hloop Hlen Hinv Hnext. revert results c m Hloop Hinv.
  induction fuel as [|fuel IH]; intros results c m Hloop Hinv; [done|].
  rewrite loop_S, of_nat_lt in Hloop.
  destruct (_ <? _) eqn:Hlt.
  - apply Nat.ltb_lt in Hlt. rewrite Nat.add_succ_l, loop_S, of_nat_lt.
    assert ((length results <? a + b) = true) as -> by (apply Nat.ltb_lt; lia).
    destruct (Part000.round m) as [m0|e m0|v m0|m0]; try done.
    + injection Hloop as <- <-. lia.
    + apply IH; [done|by right].
    + destruct (_ <=? _)%nat; [done|]. apply IH; [done|by left].
  - apply Nat.ltb_ge in Hlt. injection Hloop as <- <-.
    destruct Hinv as [Hshort| ->]; [lia|].
    rewrite Nat.add_comm. by apply loop_fuel_mono.
Qed.

Lemma random_loop_extend (fuel fuel2 a b : nat)
    (results res1 : list ResponseTransaction) (m m1 : StreamMerger S)
    (r : completion (list ResponseTransaction) * StreamMerger S) :
  Random.loop fuel (Number.of_nat a) results m = Some (Return res1, m1) →
  length res1 = a →
  Random.loop fuel2 (Number.of_nat (a + b)) res1 m1 = Some r →
  Random.loop (fuel + fuel2) (Number.of_nat (a + b)) results m = Some r.
Proof.
  intros Hloop Hlen Hnext. revert results m Hloop.
  induction fuel as [|fuel IH]; intros results m Hloop; [done|].
  rewrite random_loop_S, of_nat_lt in Hloop.
  destruct (_ <? _) eqn:Hlt.
  - apply Nat.ltb_lt in Hlt. rewrite Nat.add_succ_l, random_loop_S, of_nat_lt.
    assert ((length results <? a + b) = true) as -> by (apply Nat.ltb_lt; lia).
    destruct (Random.round m) as [m0|e m0|v m0|m0]; try done.
    + injection Hloop as <- <-. lia.
    + by apply IH.
    + by apply IH.
  - injection Hloop as <- <-. rewrite Nat.add_comm. by apply random_loop_fuel_mono.
Qed.

(** A call that ends before its page is full ends the same way under any
    larger limit. *)
Lemma loop_unfilled (fuel a a' : nat) (results : list ResponseTransaction) (c : nat)
    (m m' : StreamMerger S) (out : completion (list ResponseTransaction)) :
  a ≤ a' →
  Part000.loop fuel (Number.of_nat a) results c m = Some (out, m') →
  unfilled a out →
  Part000.loop fuel (Number.of_nat a') results c m = Some (out, m').
Proof.
  intros Hle. revert results c m.
  induction fuel as [|fuel IH]; intros results c m; [done|].
  rewrite !loop_S, !of_nat_lt.
  destruct (length results <? a) eqn:Hlt.
  - apply Nat.ltb_lt in Hlt.
    assert ((length results <? a') = true) as -> by (apply Nat.ltb_lt; lia).
    destruct (Part000.round m) as [m0|e m0|v m0|m0]; try done.
    + apply IH.
    + destruct (_ <=? _)%nat; [done|apply IH].
  - apply Nat.ltb_ge in Hlt. intros [= <- <-] Hshort. simpl in Hshort. lia.
Qed.

Lemma random_loop_unfilled (fuel a a' : nat) (results : list ResponseTransaction)
    (m m' : StreamMerger S) (out : completion (list ResponseTransaction)) :
  a ≤ a' →
  Random.loop fuel (Number.of_nat a) results m = Some (out, m') →
  unfilled a out →
  Random.loop fuel (Number.of_nat a') results m = Some (out, m').
Proof.
  intros Hle. revert results m.
  induction fuel as [|fuel IH]; intros results m; [done|].
  rewrite !random_loop_S, !of_nat_lt.
  destruct (length results <? a) eqn:Hlt.
  - apply Nat.ltb_lt in Hlt.
    assert ((length results <? a') = true) as -> by (apply Nat.ltb_lt; lia).
    destruct (Random.round m) as [m0|e m0|v m0|m0]; try done; apply IH.
  - apply Nat.ltb_ge in Hlt. intros [= <- <-] Hshort. simpl in Hshort. lia.
Qed.

(** X4: in [part_000], a call for [a] items that fills its page, followed by a
    call for [b] items on the merger it leaves, amounts to one call for
    [a + b] items, for [b] above 0 and [a + b] not above 10,000: the second
    page comes behind the first, an error of the second call is the error of
    the whole, and the merger is left the same. *)
Theorem takeN_pages_compose (f1 f2 a b : nat) (m m1 m2 : StreamMerger S)
    (res1 : list ResponseTransaction) (out2 : completion (list ResponseTransaction)) :
  Part000.takeN f1 (Number.of_nat a) m = Some (Return res1, m1) →
  length res1 = a →
  Part000.takeN f2 (Number.of_nat b) m1 = Some (out2, m2) →
  0 < b → (Z.of_nat (a + b) ≤ 10000)%Z →
  Part000.takeN (f1 + f2) (Number.of_nat (a + b)) m = Some (prepend res1 out2, m2).
Proof.
  intros Hone%takeN_returns_loop Hlen Htwo Hb Hmax.
  rewrite valid_limit_accepted in Htwo by (apply valid_of_nat; lia).
  rewrite valid_limit_accepted by (apply valid_of_nat; lia).
  eapply loop_extend; [done|done|by right|].
  rewrite <- (app_nil_r res1) at 1. rewrite (loop_shift _ _ _ _ _ _ _ Hlen), Htwo.
  done.
Qed.

(** X5: in [random.ts], a call for [a] items that fills its page, followed
    by a call for [b] items on the merger it leaves, amounts to one call for
    [a + b] items, whatever [a] and [b] are: the second page comes behind the
    first and the merger is left the same. *)
Theorem random_takeN_pages_compose (f1 f2 a b : nat) (m m1 m2 : StreamMerger S)
    (res1 : list ResponseTransaction) (out2 : completion (list ResponseTransaction)) :
  Random.takeN f1 (Number.of_nat a) m = Some (Return res1, m1) →
  length res1 = a →
  Random.takeN f2 (Number.of_nat b) m1 = Some (out2, m2) →
  Random.takeN (f1 + f2) (Number.of_nat (a + b)) m = Some (prepend res1 out2, m2).
Proof.
  unfold Random.takeN. intros Hone Hlen Htwo.
  eapply random_loop_extend; [done|done|].
  rewrite <- (app_nil_r res1) at 1.
  rewrite (random_loop_shift _ _ _ _ _ _ Hlen), Htwo. done.
Qed.

(** X6: in [part_000], a call that ends before its page is full, on a short
    page or on an error, ends the same way, leaving the same merger, for every
    larger limit that is accepted: no item and no error depends on how many
    items were asked for beyond those returned. *)
Theorem takeN_unfilled_stable (fuel a a' : nat) (m m' : StreamMerger S)
    (out : completion (list ResponseTransaction)) :
  Part000.takeN fuel (Number.of_nat a) m = Some (out, m') →
  unfilled a out → 0 < a ≤ a' → (Z.of_nat a' ≤ 10000)%Z →
  Part000.takeN fuel (Number.of_nat a') m = Some (out, m').
Proof.
  intros Hrun Hshort Ha Hmax.
  rewrite valid_limit_accepted in Hrun by (apply valid_of_nat; lia).
  rewrite valid_limit_accepted by (apply valid_of_nat; lia).
  apply (loop_unfilled fuel a a'); [lia|done|done].
Qed.

(** X7: in [random.ts], a call that returns fewer items than the [a] it was
    asked for returns the same items, leaving the same merger, for every
    larger limit. *)
Theorem random_takeN_unfilled_stable (fuel a a' : nat) (m m' : StreamMerger S)
    (res : list ResponseTransaction) :
  Random.takeN fuel (Number.of_nat a) m = Some (Return res, m') →
  length res < a → a ≤ a' →
  Random.takeN fuel (Number.of_nat a') m = Some (Return res, m').
Proof.
  unfold Random.takeN. intros Hrun Hshort Ha.
  by apply (random_loop_unfilled fuel a a').
Qed.

End Pages.

Lemma takeN_pages_compose_witness :
  ∃ m2, Part000.takeN (H:=test_runtime) (10 + 10) (Number.of_nat (2 + 2)) tie_merger
        = Some (prepend [btc "A1" 100; btc "B1" 100]
                  (Return [btc "B2" 90; btc "A2" 50]), m2).
Proof.
  eexists.
  eapply (takeN_pages_compose (H:=test_runtime) 10 10 2 2 tie_merger _ _
            [btc "A1" 100; btc "B1" 100] (Return [btc "B2" 90; btc "A2" 50])).
  - vm_compute. reflexivity.
  - reflexivity.
  - vm_compute. reflexivity.
  - lia.
  - lia.
Defined.

Lemma random_takeN_pages_compose_witness :
  ∃ m2, Random.takeN (H:=test_runtime) (10 + 10) (Number.of_nat (1 + 3)) stalling_merger
        = Some (prepend [btc "A1" 100] (Return [btc "B1" 90]), m2).
Proof.
  eexists.
  eapply (random_takeN_pages_compose (H:=test_runtime) 10 10 1 3 stalling_merger _ _
            [btc "A1" 100] (Return [btc "B1" 90])).
  - vm_compute. reflexivity.
  - reflexivity.
  - vm_compute. reflexivity.
Defined.

Lemma takeN_unfilled_stable_witness :
  ∃ m', Part000.takeN (H:=test_runtime) 20 (Number.of_nat 7) stalling_merger
        = Some (Throw Part000.stall_error, m').
Proof.
  eexists.
  eapply (takeN_unfilled_stable (H:=test_runtime) 20 3 7 stalling_merger).
  - vm_compute. reflexivity.
  - exact I.
  - lia.
  - lia.
Defined.

Lemma random_takeN_unfilled_stable_witness :
  ∃ m', Random.takeN (H:=test_runtime) 10 (Number.of_nat 7) interleaved_merger
        = Some (Return [btc "A1" 100; btc "B1" 90; btc "A2" 50], m').
Proof.
  eexists.
  eapply (random_takeN_unfilled_stable (H:=test_runtime) 10 5 7 interleaved_merger).
  - vm_compute. reflexivity.
  - simpl. lia.
  - lia.
Defined.

(** * Beyond the claims: what a call takes from each stream *)
Section Conservation.
Context `{Runtime} {S : Type} `{TransactionStream S}.
Context (R : S → list ResponseTransaction → Prop) (HR : follows_contract R).

Lemma from_stream_here (i : nat) (v : ResponseTransaction)
    (out : list (nat * ResponseTransaction)) :
  from_stream i ((i, v) :: out) = v :: from_stream i out.
Proof. unfold from_stream. by rewrite filter_cons_True. Qed.

Lemma from_stream_other (i j : nat) (v : ResponseTransaction)
    (out : list (nat * ResponseTransaction)) :
  i ≠ j → from_stream j ((i, v) :: out) = from_stream j out.
Proof. intros Hne. unfold from_stream. by rewrite filter_cons_False. Qed.

Lemma drawn_nothing (exact : Prop) (ls : list (list ResponseTransaction)) :
  drawn exact ls [] ls.
Proof. intros i l Hl. exists l. by split_and!. Qed.

Lemma drawn_serve (exact : Prop) (ls ls' : list (list ResponseTransaction)) (i : nat)
    (v : ResponseTransaction) (l0 : list ResponseTransaction)
    (out : list (nat * ResponseTransaction)) :
  ls !! i = Some (v :: l0) → drawn exact (<[i:=l0]> ls) out ls' →
  drawn exact ls ((i, v) :: out) ls'.
Proof.
  intros Hi Hd j l Hj. destruct (decide (i = j)) as [<-|Hne].
  - destruct (Hd i l0) as (l' & Hl' & Hsub & Heq).
    { rewrite list_lookup_insert_eq; [done|by eapply lookup_lt_Some]. }
    simplify_eq. exists l'. rewrite from_stream_here. split_and!; [done| |].
    + by apply sublist_skip.
    + intros He. simpl. f_equal. by apply Heq.
  - destruct (Hd j l) as (l' & Hl' & Hsub & Heq).
    { by rewrite list_lookup_insert_ne. }
    exists l'. by rewrite from_stream_other.
Qed.

Lemma drawn_drop (exact : Prop) (ls ls' : list (list ResponseTransaction)) (i : nat)
    (x : ResponseTransaction) (l0 : list ResponseTransaction)
    (out : list (nat * ResponseTransaction)) :
  ¬ exact → ls !! i = Some (x :: l0) → drawn exact (<[i:=l0]> ls) out ls' →
  drawn exact ls out ls'.
Proof.
  intros Hno Hi Hd j l Hj. destruct (decide (i = j)) as [<-|Hne].
  - destruct (Hd i l0) as (l' & Hl' & Hsub & Heq).
    { rewrite list_lookup_insert_eq; [done|by eapply lookup_lt_Some]. }
    simplify_eq. exists l'. split_and!; [done| |done].
    by apply sublist_cons.
  - destruct (Hd j l) as (l' & Hl' & Hsub & Heq).
    { by rewrite list_lookup_insert_ne. }
    by exists l'.
Qed.

(** What a round does to the items left, whatever the callback. *)
Lemma round_shape_conserves (pick : Candidate → Candidate → completion Candidate)
    (m : StreamMerger S) (r : round_result S) (ls : list (list ResponseTransaction)) :
  round_shape pick m r → Forall2 R (streams m) ls →
  match r with
  | Exhausted m' =>
      Forall2 R (streams m') ls ∧ Forall (λ l, l = []) ls
      ∧ provenance (calls m') = provenance (calls m)
  | Failed _ _ => True
  | Appended v m' =>
      ∃ i l, ls !! i = Some (v :: l) ∧ Forall2 R (streams m') (<[i:=l]> ls)
             ∧ provenance (calls m') = provenance (calls m) ++ [(i, v)]
  | Empty m' =>
      provenance (calls m') = provenance (calls m)
      ∧ (Forall2 R (streams m') ls
         ∨ ∃ i x l, ls !! i = Some (x :: l) ∧ Forall2 R (streams m') (<[i:=l]> ls))
  end.
Proof.
  intros Hshape HF.
  assert (∀ w s, streams m !! cand_streamIndex w = Some s →
                 (peek s).1 = Some (cand_transaction w) →
                 ∃ l, ls !! cand_streamIndex w = Some (cand_transaction w :: l)) as Hhead.
  { intros w s Hs Ht.
    destruct (Forall2_lookup_l _ _ _ _ _ HF Hs) as (l & Hl & Hsl).
    destruct (peek_reports_head R HR s l Hsl) as [Hp _]. rewrite Ht in Hp.
    destruct l as [|x l]; simplify_eq/=. eauto. }
  assert (∀ w s l, streams m !! cand_streamIndex w = Some s →
            ls !! cand_streamIndex w = Some (cand_transaction w :: l) →
            let m' := advanced m (cand_streamIndex w) s in
            (produced (next (peek s).2).1 = Some (cand_transaction w)
             ∧ Forall2 R (streams m') (<[cand_streamIndex w := l]> ls))
            ∨ (produced (next (peek s).2).1 = None
               ∧ (Forall2 R (streams m') ls
                  ∨ Forall2 R (streams m') (<[cand_streamIndex w := l]> ls)))) as Hnext.
  { intros w s l Hs Hl. simpl.
    destruct (Forall2_lookup_l _ _ _ _ _ HF Hs) as (l0 & Hl0 & Hsl). simplify_eq.
    destruct (peek_reports_head R HR s _ Hsl) as [_ Hsl'].
    pose proof (after_peeks_contract R HR _ _ HF) as HF1.
    destruct (next_serves_head R HR _ _ _ Hsl') as [[Hr Hs']|[Hr Hs']]; [left|right];
      (split; [done|]).
    - by apply Forall2_insert.
    - destruct Hs' as [Hs'|Hs']; [left|right].
      + rewrite <- (list_insert_id ls (cand_streamIndex w) _ Hl).
        by apply Forall2_insert.
      + by apply Forall2_insert. }
  destruct Hshape as [Hall|e Hne He|w s v Hw Hs Ht Hv|w s Hw Hs Ht Hv].
  - split_and!.
    + by apply after_peeks_contract.
    + apply Forall_lookup. intros i l Hl.
      destruct (Forall2_lookup_r _ _ _ _ _ HF Hl) as (s & Hs & Hsl).
      destruct (peek_reports_head R HR s l Hsl) as [Hp _].
      eapply Forall_lookup_1 in Hall; [|done]. rewrite Hall in Hp.
      by destruct l.
    + simpl. by rewrite provenance_app, provenance_peek_calls, app_nil_r.
  - done.
  - destruct (Hhead w s Hs Ht) as (l & Hl).
    destruct (Hnext w s l Hs Hl) as [[Hr HF']|[Hr _]]; [|congruence].
    assert (v = cand_transaction w) as -> by congruence.
    exists (cand_streamIndex w), l. split_and!; [done|done|].
    simpl. rewrite !provenance_app, provenance_peek_calls. simpl. by rewrite Hv.
  - split.
    { simpl. rewrite !provenance_app, provenance_peek_calls. simpl. rewrite Hv.
      by rewrite app_nil_r. }
    destruct (Hhead w s Hs Ht) as (l & Hl).
    destruct (Hnext w s l Hs Hl) as [[Hr _]|[_ [HF'|HF']]]; [congruence| |].
    + by left.
    + right. eauto.
Qed.

Lemma random_loop_conserves (fuel : nat) (limit : number)
    (results : list ResponseTransaction) (m m' : StreamMerger S)
    (ls : list (list ResponseTransaction)) (res : list ResponseTransaction) :
  Forall2 R (streams m) ls →
  Random.loop fuel limit results m = Some (Return res, m') →
  ∃ out ls', provenance (calls m') = provenance (calls m) ++ out
             ∧ res = results ++ out.*2
             ∧ Forall2 R (streams m') ls'
             ∧ drawn (always_serves R) ls out ls'
             ∧ (Number.lt (Number.of_nat (length res)) limit = true →
                Forall (λ l, l = []) ls').
Proof.
  revert results m ls. induction fuel as [|fuel IH]; intros results m ls HF Hloop; [done|].
  rewrite random_loop_S in Hloop.
  destruct (Number.lt (Number.of_nat (length results)) limit) eqn:Hlt.
  2:{ simplify_eq. exists [], ls. rewrite !app_nil_r.
      split_and!; try done; [apply drawn_nothing|congruence]. }
  pose proof (round_shape_random m) as Hshape.
  pose proof (round_shape_conserves _ _ _ ls Hshape HF) as Hr.
  destruct (Random.round m) as [m1|e m1|v m1|m1]; try done.
  - simplify_eq. destruct Hr as (HF' & Hnil & Hp). exists [], ls.
    rewrite !app_nil_r. split_and!; try done. apply drawn_nothing.
  - destruct Hr as (i & l0 & Hi & HF1 & Hp).
    destruct (IH _ _ _ HF1 Hloop) as (out & ls' & Hprov & Hres & HF' & Hd & Hshort).
    exists ((i, v) :: out), ls'. split_and!; try done.
    + rewrite Hprov, Hp. by rewrite <- app_assoc.
    + rewrite Hres. csimpl. by rewrite <- app_assoc.
    + by eapply drawn_serve.
  - destruct Hr as (Hp & [HF1|(i & x & l0 & Hi & HF1)]).
    + destruct (IH _ _ _ HF1 Hloop) as (out & ls' & Hprov & Hres & HF' & Hd & Hshort).
      exists out, ls'. split_and!; try done. by rewrite Hprov, Hp.
    + destruct (IH _ _ _ HF1 Hloop) as (out & ls' & Hprov & Hres & HF' & Hd & Hshort).
      exists out, ls'. split_and!; try done; [by rewrite Hprov, Hp|].
      eapply drawn_drop; [|done|done].
      intros Hserves. by eapply (round_not_empty R HR Hserves) in Hshape.
Qed.

(** X8: on streams that follow the contract, whatever their items, a call of
    [takeN] that returns took from each stream a run of the items it had left,
    in their order: the items it took followed by the items still left are
    drawn, in order, from the items the stream had at the start, and they are
    all of them when no stream ever answers empty.  A page shorter than the
    limit leaves every stream with no item.  This holds for both versions. *)
Theorem takeN_conserves_streams (fuel : nat) (limit : number) (m m' : StreamMerger S)
    (ls : list (list ResponseTransaction)) (res : list ResponseTransaction) :
  Forall2 R (streams m) ls →
  Part000.takeN fuel limit m = Some (Return res, m')
  ∨ Random.takeN fuel limit m = Some (Return res, m') →
  ∃ out ls', provenance (calls m') = provenance (calls m) ++ out
             ∧ res = out.*2
             ∧ Forall2 R (streams m') ls'
             ∧ drawn (always_serves R) ls out ls'
             ∧ (Number.lt (Number.of_nat (length res)) limit = true →
                Forall (λ l, l = []) ls').
Proof.
  intros HF Hrun.
  assert (Random.takeN fuel limit m = Some (Return res, m')) as Hrandom
    by (destruct Hrun as [Hrun|Hrun]; [by apply takeN_simulates|done]).
  by apply (random_loop_conserves _ _ _ _ _ _ _ HF) in Hrandom.
Qed.

End Conservation.

Section ShortPages.
Context `{Runtime} {S : Type} `{TransactionStream S}.

Lemma random_loop_short (fuel : nat) (limit : number)
    (results : list ResponseTransaction) (m m' : StreamMerger S)
    (res : list ResponseTransaction) :
  Random.loop fuel limit results m = Some (Return res, m') →
  Number.lt (Number.of_nat (length res)) limit = true →
  ∃ m0, m' = peeked m0 ∧ Forall (λ s, (peek s).1 = None) (streams m0).
Proof.
  revert results m. induction fuel as [|fuel IH]; intros results m Hloop Hshort; [done|].
  rewrite random_loop_S in Hloop.
  destruct (Number.lt (Number.of_nat (length results)) limit) eqn:Hlt.
  2:{ simplify_eq. congruence. }
  pose proof (round_shape_random m) as Hshape.
  destruct (Random.round m) as [m1|e m1|v m1|m1]; try done.
  - simplify_eq. inversion Hshape; subst. eauto.
  - by eapply IH.
  - by eapply IH.
Qed.

(** X9: whatever the streams do, a call of [takeN] that returns fewer items than
    the limit ended on a round in which every stream was peeked and none showed
    an item: the merger is left as those peeks leave it.  This holds for both
    versions. *)
Theorem takeN_short_page_exhausted (fuel : nat) (limit : number)
    (m m' : StreamMerger S) (res : list ResponseTransaction) :
  Part000.takeN fuel limit m = Some (Return res, m')
  ∨ Random.takeN fuel limit m = Some (Return res, m') →
  Number.lt (Number.of_nat (length res)) limit = true →
  ∃ m0, m' = peeked m0 ∧ Forall (λ s, (peek s).1 = None) (streams m0).
Proof.
  intros Hrun.
  assert (Random.takeN fuel limit m = Some (Return res, m')) as Hrandom
    by (destruct Hrun as [Hrun|Hrun]; [by apply takeN_simulates|done]).
  by apply (random_loop_short fuel limit [] m).
Qed.

End ShortPages.

Lemma takeN_conserves_streams_witness :
  ∃ m' out ls',
    Part000.takeN (H:=test_runtime) 10 (Number.of_Z 3) tie_merger
    = Some (Return [btc "A1" 100; btc "B1" 100; btc "B2" 90], m')
    ∧ provenance (calls m') = provenance (calls tie_merger) ++ out
    ∧ [btc "A1" 100; btc "B1" 100; btc "B2" 90] = out.*2
    ∧ Forall2 (λ (s : scripted) l, items s = l) (streams m') ls'
    ∧ drawn (always_serves (λ (s : scripted) l, items s = l)) tie_lists out ls'.
Proof.
  destruct (Part000.takeN (H:=test_runtime) 10 (Number.of_Z 3) tie_merger)
    as [[o m']|] eqn:Hrun; [|by vm_compute in Hrun].
  assert (o = Return [btc "A1" 100; btc "B1" 100; btc "B2" 90]) as ->
    by (vm_compute in Hrun; by simplify_eq).
  destruct (takeN_conserves_streams (H:=test_runtime) (λ (s : scripted) l, items s = l)
              scripted_contract 10 (Number.of_Z 3) tie_merger m' tie_lists _
              (serving_related tie_lists) (or_introl Hrun))
    as (out & ls' & Hprov & Hres & HF & Hd & _).
  by exists m', out, ls'.
Defined.

Lemma takeN_short_page_exhausted_witness :
  ∃ m' m0,
    Part000.takeN (H:=test_runtime) 10 (Number.of_Z 5) interleaved_merger
    = Some (Return [btc "A1" 100; btc "B1" 90; btc "A2" 50], m')
    ∧ m' = peeked m0 ∧ Forall (λ s, (peek s).1 = None) (streams m0).
Proof.
  destruct (Part000.takeN (H:=test_runtime) 10 (Number.of_Z 5) interleaved_merger)
    as [[o m']|] eqn:Hrun; [|by vm_compute in Hrun].
  assert (o = Return [btc "A1" 100; btc "B1" 90; btc "A2" 50]) as ->
    by (vm_compute in Hrun; by simplify_eq).
  destruct (takeN_short_page_exhausted (H:=test_runtime) 10 (Number.of_Z 5)
              interleaved_merger m' _ (or_introl Hrun) eq_refl)
    as (m0 & Hm' & Hnone).
  by exists m', m0.
Defined.

(** * Beyond the claims: the normalizer keeps the order of times *)
Section Monotone.
Context `{Runtime}.

Lemma le_finite (p q : Q) : Number.le (Finite p) (Finite q) = true ↔ (p <= q)%Q.
Proof.
  unfold Number.le, Number.lt, Number.strict_eq.
  rewrite orb_true_iff, Qltb_spec, Qeq_bool_iff. split.
  - intros [Hlt|Heq]; [by apply Qlt_le_weak|]. rewrite Heq. apply Qle_refl.
  - intros Hle. destruct (Qlt_le_dec p q) as [|Hge]; [by left|right].
    by apply Qle_antisym.
Qed.

Lemma floor_div_by_monotone (a b : number) (d : positive) :
  Number.le a b = true →
  Number.le (Number.floor (Number.div_by a d)) (Number.floor (Number.div_by b d)) = true.
Proof.
  destruct a as [| |p|], b as [| |q|]; try done.
  rewrite le_finite. intros Hle. unfold Number.floor, Number.div_by.
  apply of_Z_le, Qfloor_resp_le. unfold Qdiv.
  apply Qmult_le_compat_r; [done|]. by apply Qinv_le_0_compat.
Qed.

(** On a time value other than NaN both normalizers return the floor of
    the seconds. *)
Lemma normalizer_of_time (tx : ResponseTransaction) (t : number) :
  time_of tx = Some t → Number.isNaN t = false →
  Part000.getTransactionTimestamp tx = Return (Number.floor (Number.div_by t 1000))
  ∧ Random.getTransactionTimestamp tx = Number.floor (Number.div_by t 1000).
Proof.
  destruct tx as [p b|p b c|p raw|p created]; simpl; try done.
  - intros [= <-] Hn. by rewrite Hn.
  - intros [= <-] Hn. by rewrite Hn.
Qed.

(** X10: the normalizer is monotone on starknet and spark transactions: when the
    time value of one is at or below the time value of the other, so are
    their MergeKeys, in both versions.  Flooring to seconds may make two times
    equal; it never swaps them. *)
Theorem normalizer_monotone (tx1 tx2 : ResponseTransaction) (t1 t2 : number) :
  time_of tx1 = Some t1 → time_of tx2 = Some t2 → Number.le t1 t2 = true →
  ∃ k1 k2,
    Part000.getTransactionTimestamp tx1 = Return k1
    ∧ Part000.getTransactionTimestamp tx2 = Return k2
    ∧ Random.getTransactionTimestamp tx1 = k1
    ∧ Random.getTransactionTimestamp tx2 = k2
    ∧ Number.le k1 k2 = true.
Proof.
  intros H1 H2 Hle.
  assert (Number.isNaN t1 = false ∧ Number.isNaN t2 = false) as [Hn1 Hn2]
    by (by destruct t1, t2).
  destruct (normalizer_of_time tx1 t1 H1 Hn1) as [-> ->].
  destruct (normalizer_of_time tx2 t2 H2 Hn2) as [-> ->].
  eexists _, _. split_and!; try done. by apply floor_div_by_monotone.
Qed.

End Monotone.

Lemma normalizer_monotone_witness :
  ∃ k1 k2,
    Part000.getTransactionTimestamp (H:=test_runtime)
      (starknet "s" "1969-12-31T23:59:59.500Z") = Return k1
    ∧ Part000.getTransactionTimestamp (H:=test_runtime) (spark "p" None) = Return k2
    ∧ Random.getTransactionTimestamp (H:=test_runtime)
        (starknet "s" "1969-12-31T23:59:59.500Z") = k1
    ∧ Random.getTransactionTimestamp (H:=test_runtime) (spark "p" None) = k2
    ∧ Number.le k1 k2 = true.
Proof.
  apply (normalizer_monotone (H:=test_runtime)
           (starknet "s" "1969-12-31T23:59:59.500Z") (spark "p" None)
           (Number.of_Z (-500)) (Number.of_Z 0)).
  - by vm_compute.
  - by vm_compute.
  - by vm_compute.
Defined.

(** * Beyond the claims: the winner does not depend on the order of the
    candidates *)
Section WinnerUnique.
Context `{Runtime}.

Lemma lt_irrefl (a : number) : Number.lt a a = false.
Proof.
  destruct a as [| |q|]; try done. simpl. apply negb_false_iff, Qle_bool_iff, Qle_refl.
Qed.

Lemma merge_order_antisym (p q : nat * ResponseTransaction) :
  merge_order p q → merge_order q p → p.1 = q.1.
Proof.
  unfold merge_order, Number.gt. intros [Hpq|[Hpq Hi]] [Hqp|[Hqp Hj]].
  - pose proof (lt_trans _ _ _ Hpq Hqp) as Hbad. by rewrite lt_irrefl in Hbad.
  - apply lt_not_eq in Hpq. congruence.
  - apply lt_not_eq in Hqp. congruence.
  - lia.
Qed.

Lemma best_candidate_unique (avail : list Candidate) (w1 w2 : Candidate) :
  NoDup (cand_streamIndex <$> avail) →
  best_candidate w1 avail → best_candidate w2 avail → w1 = w2.
Proof.
  intros Hnd [Hin1 Hb1] [Hin2 Hb2].
  pose proof (merge_order_antisym _ _ (Hb1 _ Hin2) (Hb2 _ Hin1)) as Hidx.
  simpl in Hidx.
  apply list_elem_of_lookup in Hin1 as [i Hi].
  apply list_elem_of_lookup in Hin2 as [j Hj].
  assert (i = j) as ->.
  { eapply (NoDup_lookup _ _ _ _ Hnd).
    - by rewrite list_lookup_fmap, Hi.
    - rewrite list_lookup_fmap, Hj. simpl. by rewrite Hidx. }
  congruence.
Qed.

Lemma random_reduce_best (avail : list Candidate) :
  avail ≠ [] → Forall (λ c, keyed (cand_transaction c)) avail →
  ∃ w, reduce Random.pick avail = Return w ∧ best_candidate w avail.
Proof.
  destruct avail as [|a l]; [done|]. intros _ Hall.
  inversion Hall; subst. eexists. split; [apply random_reduce_pick|].
  by apply fold_choose_best.
Qed.

(** X11: on candidates that have MergeKeys and come from distinct streams, what
    [reduce] returns with the callback of either version does not depend on
    the order in which the candidates are listed: the comparison of stream
    indices on equal MergeKeys settles every tie. *)
Theorem winner_independent_of_order
    (pick : Candidate → Candidate → completion Candidate)
    (avail1 avail2 : list Candidate) :
  pick = Part000.pick ∨ pick = Random.pick →
  avail1 ≡ₚ avail2 → NoDup (cand_streamIndex <$> avail1) →
  Forall (λ c, keyed (cand_transaction c)) avail1 →
  reduce pick avail1 = reduce pick avail2.
Proof.
  intros Hpick Hperm Hnd Hk.
  destruct avail1 as [|a l] eqn:Ha.
  { apply Permutation_nil_l in Hperm. by subst. }
  rewrite <- Ha in *.
  assert (avail1 ≠ []) as Hne1 by (by subst).
  assert (avail2 ≠ []) as Hne2.
  { intros ->. apply Permutation_nil_r in Hperm. by subst. }
  assert (Forall (λ c, keyed (cand_transaction c)) avail2) as Hk2
    by (by rewrite <- Hperm).
  assert (∃ w1 w2, reduce pick avail1 = Return w1 ∧ best_candidate w1 avail1
                   ∧ reduce pick avail2 = Return w2 ∧ best_candidate w2 avail2)
    as (w1 & w2 & -> & Hb1 & -> & Hb2).
  { destruct Hpick as [-> | ->].
    - destruct (reduce_pick_best avail1 Hne1 Hk) as (w1 & ? & ?).
      destruct (reduce_pick_best avail2 Hne2 Hk2) as (w2 & ? & ?).
      by exists w1, w2.
    - destruct (random_reduce_best avail1 Hne1 Hk) as (w1 & ? & ?).
      destruct (random_reduce_best avail2 Hne2 Hk2) as (w2 & ? & ?).
      by exists w1, w2. }
  f_equal. apply (best_candidate_unique avail1); [done|done|].
  destruct Hb2 as [Hin Hbest]. split.
  - by rewrite Hperm.
  - intros c Hc. apply Hbest. by rewrite <- Hperm.
Qed.

End WinnerUnique.

Lemma winner_independent_of_order_witness :
  reduce (Part000.pick (H:=test_runtime))
    [{| cand_transaction := btc "B1" 100; cand_streamIndex := 1 |};
     {| cand_transaction := btc "A1" 100; cand_streamIndex := 0 |}]
  = reduce (Part000.pick (H:=test_runtime))
      [{| cand_transaction := btc "A1" 100; cand_streamIndex := 0 |};
       {| cand_transaction := btc "B1" 100; cand_streamIndex := 1 |}].
Proof.
  apply (winner_independent_of_order (H:=test_runtime)).
  - by left.
  - apply perm_swap.
  - apply NoDup_cons. split; [|apply NoDup_singleton].
    intros Hin%list_elem_of_singleton. done.
  - repeat constructor.
Defined.

(** * Beyond the claims: the size of a page *)
Section PageSize.
Context `{Runtime} {S : Type} `{TransactionStream S}.

Lemma within_room (q : Q) (results : list ResponseTransaction) :
  within (Finite q) results → length results ≤ room q.
Proof. intros [Hz|Hlt%lt_room]; lia. Qed.

Lemma room_le (q : Q) (n : nat) :
  Number.lt (Number.of_nat n) (Finite q) = false → room q ≤ n.
Proof.
  unfold Number.lt, Number.of_nat, Number.of_Z, room.
  intros Hle%negb_false_iff%Qle_bool_iff.
  apply Qceiling_resp_le in Hle. rewrite Qceiling_Z in Hle. lia.
Qed.

(** X12: for a finite limit, integral or not, a page of [takeN] holds at most
    the limit rounded up to an integer, and exactly that many items unless it
    is shorter than the limit.  This holds for both versions, and in
    [random.ts] for limits at or below 0 as well, where the page is empty. *)
Theorem takeN_page_size (fuel : nat) (q : Q) (m m' : StreamMerger S)
    (res : list ResponseTransaction) :
  Part000.takeN fuel (Finite q) m = Some (Return res, m')
  ∨ Random.takeN fuel (Finite q) m = Some (Return res, m') →
  length res ≤ room q
  ∧ (Number.lt (Number.of_nat (length res)) (Finite q) = false → length res = room q).
Proof.
  intros Hrun.
  assert (Random.takeN fuel (Finite q) m = Some (Return res, m')) as Hrandom
    by (destruct Hrun as [Hrun|Hrun]; [by apply takeN_simulates|done]).
  apply random_loop_within in Hrandom; [|by left].
  apply within_room in Hrandom. split; [done|].
  intros Hfull%room_le. lia.
Qed.

End PageSize.

Lemma takeN_page_size_witness :
  length [btc "A1" 100; btc "B1" 100; btc "B2" 90] ≤ room (5 # 2)
  ∧ (Number.lt (Number.of_nat (length [btc "A1" 100; btc "B1" 100; btc "B2" 90]))
       (Finite (5 # 2)) = false →
     length [btc "A1" 100; btc "B1" 100; btc "B2" 90] = room (5 # 2)).
Proof.
  destruct (Part000.takeN (H:=test_runtime) 10 (Finite (5 # 2)) tie_merger)
    as [[o m']|] eqn:Hrun; [|by vm_compute in Hrun].
  assert (o = Return [btc "A1" 100; btc "B1" 100; btc "B2" 90]) as ->
    by (vm_compute in Hrun; by simplify_eq).
  exact (takeN_page_size (H:=test_runtime) 10 (5 # 2) tie_merger m' _ (or_introl Hrun)).
Defined.

(** * Beyond the claims: a merger of one stream *)
Section SingleStream.
Context `{Runtime} {S : Type} `{TransactionStream S}.
Context (R : S → list ResponseTransaction → Prop) (HR : follows_contract R).
Context (Hserves : always_serves R).

(** A round on one stream: the item the stream shows is the winner, whatever
    it is, and [next] serves it. *)
Lemma single_round (m : StreamMerger S) (s : S) (l : list ResponseTransaction) :
  streams m = [s] → R s l →
  match l with
  | [] => Part000.round m = Exhausted (peeked m)
  | x :: l0 =>
      ∃ m1 s1, Part000.round m = Appended x m1 ∧ streams m1 = [s1] ∧ R s1 l0
  end.
Proof.
  intros Hs HRl. destruct (peek_reports_head R HR s l HRl) as [Hp HRp].
  unfold Part000.round. rewrite Hs. unfold peeks, available. simpl. rewrite Hp.
  destruct l as [|x l0]; simpl; [done|].
  unfold consume. simpl. rewrite Hs. simpl.
  pose proof (Hserves _ _ _ HRp) as Hv.
  destruct (next_serves_head R HR _ _ _ HRp) as [[_ HR1]|[Hnone _]]; [|congruence].
  destruct (next (peek s).2) as [r s1]. simpl in *. rewrite Hv.
  by eexists _, s1.
Qed.

Lemma single_loop_take (fuel : nat) (limit : number) (z : Z)
    (results : list ResponseTransaction) (c : nat) (m m' : StreamMerger S) (s : S)
    (l : list ResponseTransaction) (out : completion (list ResponseTransaction)) :
  Number.strict_eq limit (Number.of_Z z) = true →
  streams m = [s] → R s l →
  Part000.loop fuel limit results c m = Some (out, m') →
  out = Return (results ++ take (Z.to_nat z - length results) l).
Proof.
  intros Heq. revert results c m s l.
  induction fuel as [|fuel IH]; intros results c m s l Hs HRl; [done|].
  rewrite loop_S, (lt_compat_r _ _ _ Heq). unfold Number.of_nat.
  destruct (Number.lt _ _) eqn:Hlt.
  - apply of_Z_lt in Hlt.
    pose proof (single_round m s l Hs HRl) as Hround.
    destruct l as [|x l0].
    + rewrite Hround. intros [= <- _]. by rewrite take_nil, app_nil_r.
    + destruct Hround as (m1 & s1 & -> & Hs1 & HR1).
      intros Hloop. rewrite (IH _ _ _ _ _ Hs1 HR1 Hloop), length_app. simpl.
      replace (Z.to_nat z - length results)
        with (Datatypes.S (Z.to_nat z - (length results + 1))) by lia.
      simpl. by rewrite <- app_assoc.
  - intros [= <- _].
    assert (¬ (Z.of_nat (length results) < z)%Z) as Hge
      by (rewrite <- of_Z_lt; congruence).
    replace (Z.to_nat z - length results) with 0 by lia.
    by rewrite take_0, app_nil_r.
Qed.

(** X13: a merger of one stream never compares two candidates, so neither
    version calls the normalizer on it: on a stream that follows the contract
    and always serves, [takeN] with a valid limit returns the first [limit]
    items the stream has left, in the order of the stream, whatever their
    timestamps are, in order or not, parsable or not.  In [part_000] an item
    whose timestamp does not parse is thus returned like any other. *)
Theorem single_stream_unchecked (limit : number) (z : Z) (m : StreamMerger S) (s : S)
    (l : list ResponseTransaction) :
  streams m = [s] → R s l →
  Number.strict_eq limit (Number.of_Z z) = true → (0 < z ≤ 10000)%Z →
  ∃ m', ∀ fuel, (30000 < Z.of_nat fuel)%Z →
    Part000.takeN fuel limit m = Some (Return (take (Z.to_nat z) l), m')
    ∧ Random.takeN fuel limit m = Some (Return (take (Z.to_nat z) l), m').
Proof.
  intros Hs HRl Heq Hz.
  assert (valid_limit limit) as Hvalid by (by exists z).
  destruct (takeN_terminates limit m) as [[out m'] Hr].
  pose proof (Hr (Z.to_nat 30001) ltac:(lia)) as Hone.
  rewrite valid_limit_accepted in Hone by done.
  apply (single_loop_take _ _ _ _ _ _ _ _ _ _ Heq Hs HRl) in Hone as Hout.
  simpl in Hout. rewrite Nat.sub_0_r in Hout. subst out.
  exists m'. intros fuel Hfuel. split; [by apply Hr|].
  by apply takeN_simulates, Hr.
Qed.

End SingleStream.

(** The streams [serving l] follow the contract and always serve. *)
Lemma serving_contract :
  follows_contract (λ (s : scripted) (l : list ResponseTransaction),
                      stalls s = 0 ∧ items s = l).
Proof.
  split.
  - intros s l [Hz <-]. done.
  - intros [k its] x l [Hz Hl]. simpl in *. subst. simpl. by left.
Qed.

Lemma serving_always_serves :
  always_serves (λ (s : scripted) (l : list ResponseTransaction),
                   stalls s = 0 ∧ items s = l).
Proof. intros [k its] x l [Hz Hl]. simpl in *. by subst. Qed.

Lemma single_stream_unchecked_witness :
  ∃ m', ∀ fuel, (30000 < Z.of_nat fuel)%Z →
    Part000.takeN (H:=test_runtime) fuel (Number.of_Z 2)
      {| streams := [serving [starknet "S1" "garbage"; btc "B1" 3; btc "B2" 9]];
         calls := [] |}
    = Some (Return [starknet "S1" "garbage"; btc "B1" 3], m')
    ∧ Random.takeN (H:=test_runtime) fuel (Number.of_Z 2)
        {| streams := [serving [starknet "S1" "garbage"; btc "B1" 3; btc "B2" 9]];
           calls := [] |}
      = Some (Return [starknet "S1" "garbage"; btc "B1" 3], m').
Proof.
  apply (single_stream_unchecked (H:=test_runtime) _ serving_contract
           serving_always_serves (Number.of_Z 2) 2
           {| streams := [serving [starknet "S1" "garbage"; btc "B1" 3; btc "B2" 9]];
              calls := [] |}
           (serving [starknet "S1" "garbage"; btc "B1" 3; btc "B2" 9])
           [starknet "S1" "garbage"; btc "B1" 3; btc "B2" 9]).
  - reflexivity.
  - split; reflexivity.
  - reflexivity.
  - lia.
Defined.
